(** * Coverage tracer of the validation library: [lib/trace.js]

    A shallow embedding of [lib/trace.js] and the properties of its
    identifier resolver, graph scanner, instrumentation port, registry
    and report generator.

    JavaScript objects that the code compares by identity (schema nodes,
    path arrays, stores) carry an explicit address.  [Map] and [Set] keep
    insertion order, so they are lists here; the plain object [log.rule]
    is the finite map of its own properties, read and written by key
    through what it inherits from [Object.prototype].  Schemas,
    [Errors.path] and [Pinpoint.location] belong to other files and are
    parameters.  The closures that [exports.setup] installs on a root
    object work on a [Process], which holds the tracer objects made so
    far and the one the root refers to. *)

From Stdlib Require Import ZArith Lia.
From stdpp Require Import base option list strings gmap.

Open Scope Z_scope.
Open Scope string_scope.
Open Scope list_scope.

(** ** Values *)

(** The JavaScript values that appear as literals of allow/deny lists and
    as path segments.  Objects are compared by address, which is what
    [Set.prototype.has/delete] do. *)
Inductive val : Type :=
  | VUndefined
  | VNull
  | VBool (b : bool)
  | VNumber (z : Z)
  | VString (s : string)
  | VObject (addr : positive).

#[global] Instance value_eq_dec : EqDecision val.
Proof. solve_decision. Defined.

(** An array object: its identity and its elements.  Path arrays are never
    mutated after [concat] built them. *)
Record Array : Type := mkArray { addr : nat; elems : list val }.

#[global] Instance Array_eq_dec : EqDecision Array.
Proof. solve_decision. Defined.

(** ** Schema nodes (external to this file of the library) *)

(** A schema object is referred to by its address. *)
Definition node : Type := positive.

(** The context [{ source, name, path }] that [$_modify] hands to [each]. *)
Record Context : Type := mkContext {
  source : string;
  name : string;
  path : list val
}.

(** The flags the tracer reads: [_flags.id], [_flags._key], [_flags.default]
    and [_flags.failover].  An absent string flag is [None], an absent
    [default] or [failover] is [VUndefined]. *)
Record Flags : Type := mkFlags {
  flag_id : option string;
  flag_key : option string;
  flag_default : val;
  flag_failover : val
}.

Record Rule : Type := mkRule { rule_name : string }.

(** A [Values] object; [_set] is a [Set], listed in insertion order. *)
Record Values : Type := mkValues { _set : list val }.

(** What the tracer uses of a schema.  [each_calls] is the sequence of
    [(sub, context)] pairs with which [schema.$_modify({ each, ref: false })]
    calls [each], in call order. *)
Record Schema : Type := mkSchema {
  _flags : Flags;
  _rules : list Rule;
  _valids : option Values;
  _invalids : option Values;
  each_calls : list (node * Context)
}.

(** The schema objects in memory. *)
Definition Heap : Type := node -> Schema.

(** ** Coverage logs, stores, registry *)

(** The log object created in [_scan]:
    [{ paths: new Set(), entry: false, rule: {}, valid: new Set(), invalid: new Set() }]. *)
Record Log : Type := mkLog {
  log_paths : list Array;
  log_entry : bool;
  log_rule : gmap string Z;
  log_valid : list val;
  log_invalid : list val
}.

(** [internals.Store]: [_logs] is a [Map] from schema objects to logs. *)
Record StoreObj : Type := mkStore { _logs : list (node * Log) }.

(** An entry of [Tracer._schemas]: [{ filename, line, store }], the store
    held by reference. *)
Record Registration : Type := mkRegistration {
  filename : string;
  line : Z;
  store : nat
}.

(** [internals.Tracer]. *)
Record TracerObj : Type := mkTracer {
  tracer_name : string;
  _schemas : list (node * Registration)
}.

(** The part of memory the tracer works on: the tracer object, the store
    objects (the address of a store is its index) and the next free array
    address. *)
Record Memory : Type := mkMemory {
  tracer : TracerObj;
  stores : list StoreObj;
  next_array : nat
}.

(** ** Report items *)

(** [status] is a label or the list of missing literals. *)
Inductive Status : Type :=
  | Label (s : string)
  | Literals (vs : list val).

(** An element of [missing]; an absent property is [None]. *)
Record Missing : Type := mkMissing {
  status : Status;
  rule : option string;
  paths : option (list Array)
}.

Record Coverage : Type := mkCoverage {
  cov_filename : string;
  cov_line : Z;
  cov_missing : list Missing;
  cov_severity : string;
  cov_message : string
}.

#[global] Instance Status_eq_dec : EqDecision Status.
Proof. solve_decision. Defined.

#[global] Instance Missing_eq_dec : EqDecision Missing.
Proof. solve_decision. Defined.

(** ** JavaScript containers *)

(** [Map.prototype.get] on a map keyed by object identity. *)
Fixpoint map_get {V : Type} (k : node) (m : list (node * V)) : option V :=
  match m with
  | [] => None
  | (k', v) :: m' => if decide (k' = k) then Some v else map_get k m'
  end.

(** In-place update of the value object stored under [k]. *)
Fixpoint map_update {V : Type} (k : node) (f : V -> V) (m : list (node * V))
  : list (node * V) :=
  match m with
  | [] => []
  | (k', v) :: m' =>
      if decide (k' = k) then (k', f v) :: m' else (k', v) :: map_update k f m'
  end.

(** [Set.prototype.add] on a set of values. *)
Definition set_add (v : val) (s : list val) : list val :=
  if decide (v ∈ s) then s else s ++ [v].

(** [Set.prototype.delete] on a set of values. *)
Definition set_delete (v : val) (s : list val) : list val :=
  filter (λ x, x ≠ v) s.

(** [Set.prototype.add] on a set of arrays: membership is identity. *)
Definition paths_add (a : Array) (s : list Array) : list Array :=
  if decide (addr a ∈ map addr s) then s else s ++ [a].

(** The property names that a plain object [{}] inherits from
    [Object.prototype]. *)
Definition Object_prototype : list string :=
  ["constructor"; "__defineGetter__"; "__defineSetter__"; "hasOwnProperty";
   "__lookupGetter__"; "__lookupSetter__"; "isPrototypeOf";
   "propertyIsEnumerable"; "toString"; "valueOf"; "__proto__";
   "toLocaleString"].

(** What [o[name]] gives on a plain object whose own properties hold
    numbers: the own number, else the function or object inherited under
    that name, else [undefined]. *)
Inductive property : Type :=
  | PNumber (z : Z)
  | PInherited
  | PUndefined.

Definition get_property (o : gmap string Z) (name : string) : property :=
  match o !! name with
  | Some z => PNumber z
  | None => if decide (name ∈ Object_prototype) then PInherited else PUndefined
  end.

(** [o[name] = o[name] || 0; o[name] |= code] on such an object.  An
    assignment to ["__proto__"] goes to the setter of [Object.prototype],
    which ignores a number and leaves the prototype as it is when given
    it back.  Under any other name the first assignment makes an own
    property, of the inherited function when there is one, which [|=]
    converts to 0. *)
Definition or_property (o : gmap string Z) (name : string) (code : Z)
  : gmap string Z :=
  if decide (name = "__proto__") then o
  else
    <[name := Z.lor (match get_property o name with
                     | PNumber z => z
                     | PInherited | PUndefined => 0
                     end) code]> o.

(** JavaScript truthiness of a string-or-undefined. *)
Definition truthy (o : option string) : bool :=
  match o with
  | Some s => negb (String.eqb s "")
  | None => false
  end.

(** [DeepEqual] of [@hapi/hoek] on two arrays of primitive values. *)
Definition DeepEqual (a b : list val) : bool := bool_decide (a = b).

(** What [internals.message] needs from outside this file: [Errors.path]
    of [./errors], applied to [item.paths[0]] (undefined when [paths] is
    empty), and the conversion of a literal to a string. *)
Record Render : Type := mkRender {
  Errors_path : option (list val) -> string;
  ToString : val -> string
}.

(** ** [internals] *)

Module internals.

(** Keys of [internals.codes]. *)
Inductive result : Type := error | value_ | full.

#[global] Instance result_eq_dec : EqDecision result.
Proof. solve_decision. Defined.

Definition codes (r : result) : Z :=
  match r with
  | error => 1
  | value_ => 2
  | full => 3
  end.

(** [internals.labels[n]]; [None] is [undefined]. *)
Definition labels (n : Z) : option string :=
  if decide (n = 0) then Some "never used"
  else if decide (n = 1) then Some "always error"
  else if decide (n = 2) then Some "always pass"
  else None.

(** What [internals.id] returns: a string or the array [[name, path[1]]]. *)
Inductive Ident : Type :=
  | Name (s : string)
  | Term (name : string) (position : val).

Definition id (schema : Schema) (ctx : Context) : Ident :=
  if truthy (flag_id (_flags schema)) then
    Name (default "" (flag_id (_flags schema)))
  else if truthy (flag_key (_flags schema)) then
    Name (default "" (flag_key (_flags schema)))
  else
    let name := String.append "@" (name ctx) in
    if String.eqb (source ctx) "terms" then
      Term name (default VUndefined (path ctx !! 1%nat))
    else
      Name name.

(** [internals.sub]: some path starts with some skipped path. *)
Definition sub (paths skipped : list Array) : bool :=
  existsb (λ path,
    existsb (λ skip,
      DeepEqual (take (length (elems skip)) (elems path)) (elems skip))
      skipped)
    paths.

(** String conversion of [item.status] inside the template literal; an
    array is joined with commas, [null] and [undefined] giving nothing. *)
Definition status_string (R : Render) (s : Status) : string :=
  match s with
  | Label l => l
  | Literals vs =>
      String.concat ","
        (map (λ v, match v with
                   | VUndefined | VNull => ""
                   | _ => ToString R v
                   end) vs)
  end.

Definition message (R : Render) (item : Missing) : string :=
  let path :=
    match paths item with
    | Some ps =>
        String.append (Errors_path R (elems <$> head ps))
                      (if truthy (rule item) then ":" else "")
    | None => ""
    end in
  String.append path
    (String.append (if truthy (rule item) then default "" (rule item) else "")
       (String.append " (" (String.append (status_string R (status item)) ")"))).

End internals.

(** [path.concat(id)]: a string is appended, an array is spliced in. *)
Definition concat_elems (path : list val) (i : internals.Ident) : list val :=
  match i with
  | internals.Name s => path ++ [VString s]
  | internals.Term n p => path ++ [VString n; p]
  end.

(** ** [internals.Store] *)

Module Store.

Definition new_log : Log :=
  {| log_paths := []; log_entry := false; log_rule := ∅;
     log_valid := []; log_invalid := [] |}.

(** The state [_scan] works on: the [_logs] map under construction and
    the next free array address. *)
Record ScanState : Type := mkScan {
  scan_logs : list (node * Log);
  scan_next : nat
}.

Definition add_path (p : Array) (l : Log) : Log :=
  {| log_paths := paths_add p (log_paths l); log_entry := log_entry l;
     log_rule := log_rule l; log_valid := log_valid l;
     log_invalid := log_invalid l |}.

(** The part of [_scan] before [$_modify]: get or create the log, then
    record the path unless it is empty. *)
Definition visit (schema : node) (path : Array) (logs : list (node * Log))
  : list (node * Log) :=
  let logs :=
    match map_get schema logs with
    | Some _ => logs
    | None => logs ++ [(schema, new_log)]
    end in
  if decide (length (elems path) = 0%nat) then logs
  else map_update schema (add_path path) logs.

(** [schema.$_modify({ each, ref: false })]: [each] is called on every
    entry of [each_calls] in turn, on the state the previous call left. *)
Fixpoint modify_each (each : ScanState -> node * Context -> option ScanState)
    (calls : list (node * Context)) (st : ScanState) : option ScanState :=
  match calls with
  | [] => Some st
  | c :: calls => st' ← each st c; modify_each each calls st'
  end.

(** [_scan(schema, _path)].  The recursion follows the schema graph and
    need not terminate on a cyclic one; [None] is running out of [fuel].
    [path.concat(id)] and [_path || []] build a new array object each. *)
Fixpoint _scan (H : Heap) (fuel : nat) (schema : node) (_path : option Array)
    (st : ScanState) : option ScanState :=
  match fuel with
  | O => None
  | S fuel =>
      let '(path, next) :=
        match _path with
        | Some p => (p, scan_next st)
        | None => (mkArray (scan_next st) [], S (scan_next st))
        end in
      let logs := visit schema path (scan_logs st) in
      let each (st : ScanState) (call : node * Context) :=
        let id := internals.id (H call.1) call.2 in
        let path' := mkArray (scan_next st) (concat_elems (elems path) id) in
        _scan H fuel call.1 (Some path') (mkScan (scan_logs st) (S (scan_next st))) in
      modify_each each (each_calls (H schema)) (mkScan logs next)
  end.

(** [new internals.Store(schema)], given the next free array address. *)
Definition constructor (H : Heap) (fuel : nat) (schema : node) (next : nat)
  : option (StoreObj * nat) :=
  st ← _scan H fuel schema None (mkScan [] next);
  Some (mkStore (scan_logs st), scan_next st).

Definition set_entry (l : Log) : Log :=
  {| log_paths := log_paths l; log_entry := true; log_rule := log_rule l;
     log_valid := log_valid l; log_invalid := log_invalid l |}.

(** [entry(schema)]; [None] is the [TypeError] of writing to [undefined]. *)
Definition entry (schema : node) (this : StoreObj) : option StoreObj :=
  match map_get schema (_logs this) with
  | None => None
  | Some _ => Some (mkStore (map_update schema set_entry (_logs this)))
  end.

(** The one table of a log that [log] can index with [source]. *)
Inductive log_source : Type := src_rule.

Definition or_rule (name : string) (code : Z) (l : Log) : Log :=
  {| log_paths := log_paths l; log_entry := log_entry l;
     log_rule := or_property (log_rule l) name code;
     log_valid := log_valid l; log_invalid := log_invalid l |}.

(** [log(source, name, result, schema)]. *)
Definition log (source : log_source) (name : string) (result : internals.result)
    (schema : node) (this : StoreObj) : option StoreObj :=
  match map_get schema (_logs this) with
  | None => None
  | Some _ =>
      Some (mkStore (map_update schema (or_rule name (internals.codes result))
                       (_logs this)))
  end.

(** The two sets of a log that [value] can select with [source]. *)
Inductive value_source : Type := valid | invalid.

Definition add_value (source : value_source) (v : val) (l : Log) : Log :=
  match source with
  | valid =>
      {| log_paths := log_paths l; log_entry := log_entry l;
         log_rule := log_rule l; log_valid := set_add v (log_valid l);
         log_invalid := log_invalid l |}
  | invalid =>
      {| log_paths := log_paths l; log_entry := log_entry l;
         log_rule := log_rule l; log_valid := log_valid l;
         log_invalid := set_add v (log_invalid l) |}
  end.

(** [value(source, value, schema)]. *)
Definition value (source : value_source) (v : val) (schema : node)
    (this : StoreObj) : option StoreObj :=
  match map_get schema (_logs this) with
  | None => None
  | Some _ => Some (mkStore (map_update schema (add_value source v) (_logs this)))
  end.

End Store.

(** ** [internals.Tracer] *)

Module Tracer.

Definition constructor : TracerObj := mkTracer "Joi" [].

(** [_register(schema)]; [loc] is what [Pinpoint.location(4)] returns. *)
Definition _register (H : Heap) (fuel : nat) (loc : string * Z) (schema : node)
    (m : Memory) : option (nat * Memory) :=
  match map_get schema (_schemas (tracer m)) with
  | Some existing => Some (store existing, m)
  | None =>
      r ← Store.constructor H fuel schema (next_array m);
      let store := length (stores m) in
      Some (store,
            mkMemory
              (mkTracer (tracer_name (tracer m))
                 (_schemas (tracer m)
                    ++ [(schema, mkRegistration loc.1 loc.2 store)]))
              (stores m ++ [r.1])
              r.2)
  end.

(** The body of [for (const type of ['valid', 'invalid'])] for one type. *)
Definition check_values (set : option Values) (observed : list val)
    (rule : string) : list Missing :=
  match set with
  | None => []
  | Some set =>
      let values := foldl (λ values value, set_delete value values)
                      (_set set) observed in
      if decide (length values = 0%nat) then []
      else [mkMissing (Literals values) (Some rule) None]
  end.

(** [rules]: the rule names, then the declared pseudo-rules. *)
Definition rules (sub : Schema) : list string :=
  map rule_name (_rules sub)
    ++ (if decide (flag_default (_flags sub) ≠ VUndefined) then ["default"] else [])
    ++ (if decide (flag_failover (_flags sub) ≠ VUndefined) then ["failover"] else []).

(** [internals.labels[log.rule[name] || 0]]: an inherited function or
    object is truthy and no key of [labels]. *)
Definition rule_status (log : Log) (name : string) : option string :=
  match get_property (log_rule log) name with
  | PNumber z => internals.labels z
  | PInherited => None
  | PUndefined => internals.labels 0
  end.

(** The body of [for (const name of rules)]. *)
Definition check_rule (log : Log) (name : string) : list Missing :=
  match rule_status log name with
  | Some status =>
      [mkMissing (Label status) (Some name)
         (if decide (length (log_paths log) = 0%nat) then None
          else Some (log_paths log))]
  | None => []
  end.

(** The body of [for (const [sub, log] of store._logs)], on the pair
    [(missing, skipped)]. *)
Definition report_log (H : Heap) (acc : list Missing * list Array)
    (entry : node * Log) : list Missing * list Array :=
  let '(missing, skipped) := acc in
  let '(sub, log) := entry in
  if internals.sub (log_paths log) skipped then acc
  else if negb (log_entry log) then
    (missing ++ [mkMissing (Label "never reached") None (Some (log_paths log))],
     skipped ++ log_paths log)
  else
    (missing
       ++ check_values (_valids (H sub)) (log_valid log) "valids"
       ++ check_values (_invalids (H sub)) (log_invalid log) "invalids"
       ++ (rules (H sub) ≫= check_rule log),
     skipped).

(** [missing] once the loop over a store is over. *)
Definition missing_of (H : Heap) (s : StoreObj) : list Missing :=
  (foldl (report_log H) ([], []) (_logs s)).1.

(** The store a registration refers to. *)
Definition deref (m : Memory) (a : nat) : StoreObj :=
  default (mkStore []) (stores m !! a).

(** The body of the loop over [this._schemas.values()]. *)
Definition report_schema (H : Heap) (R : Render) (file : option string)
    (m : Memory) (coverage : list Coverage) (reg : Registration)
  : list Coverage :=
  if truthy file && negb (String.eqb (default "" file) (filename reg))
  then coverage
  else
    let missing := missing_of H (deref m (store reg)) in
    if decide (length missing = 0%nat) then coverage
    else
      coverage ++
        [mkCoverage (filename reg) (line reg) missing "error"
           (String.append "Schema missing tests for "
              (String.concat ", " (map (internals.message R) missing)))].

(** [report(file)]; [None] is [null]. *)
Definition report (H : Heap) (R : Render) (file : option string) (m : Memory)
  : option (list Coverage) :=
  let coverage :=
    foldl (report_schema H R file m) [] (_schemas (tracer m)).*2 in
  if decide (length coverage = 0%nat) then None else Some coverage.

End Tracer.

(** ** [report], with what it reads and writes made explicit *)

(** The same [report], on a world in which the registry and the logs are
    part of the state that a call is given and hands back, and in which the
    [Set] objects of values (the literals [set._set] of a schema, the sets
    [log.valid] and [log.invalid], and the sets that [report] makes with
    [new Set]) live in one heap, a set object being its address: whatever
    [report] writes, it writes there.  The arrays [coverage], [missing],
    [skipped] and [rules] are made by [report] itself and are local. *)
Module Effects.

(** A log whose sets of observed values are objects of the heap. *)
Record LogRef : Type := mkLogRef {
  ref_paths : list Array;
  ref_entry : bool;
  ref_rule : gmap string Z;
  ref_valid : nat;
  ref_invalid : nat
}.

Record World : Type := mkWorld {
  registry : list (node * Registration);
  logs : list (list (node * LogRef));
  sets : list (list val)
}.

(** Where the literals of the schemas are: the address of [set._set] for
    [sub._valids] or [sub._invalids], when the schema has that list. *)
Definition Literals_at : Type := node -> Store.value_source -> option nat.

(** A computation on the world. *)
Definition M (A : Type) : Type := World -> A * World.

Definition ret {A} (x : A) : M A := λ w, (x, w).

Definition bind {A B} (m : M A) (f : A -> M B) : M B :=
  λ w, let r := m w in f r.1 r.2.

#[local] Notation "x ←← m ; k" := (bind m (λ x, k))
  (at level 100, m at next level, right associativity).

(** [for (const x of l) body(x)]. *)
Fixpoint for_each {A} (l : list A) (body : A -> M unit) : M unit :=
  match l with
  | [] => ret tt
  | x :: l => _ ←← body x; for_each l body
  end.

(** A loop that carries the local arrays along. *)
Fixpoint fold_each {A B} (body : B -> A -> M B) (l : list A) (acc : B) : M B :=
  match l with
  | [] => ret acc
  | x :: l => acc' ←← body acc x; fold_each body l acc'
  end.

(** [this._schemas.values()]. *)
Definition schemas_values : M (list Registration) :=
  λ w, ((registry w).*2, w).

(** The entries of [store._logs], for the store at address [a]. *)
Definition store_logs (a : nat) : M (list (node * LogRef)) :=
  λ w, (default [] (logs w !! a), w).

(** [new Set(s)]: a new set object with the values of the set at [a]. *)
Definition new_Set (a : nat) : M nat :=
  λ w, (length (sets w),
        mkWorld (registry w) (logs w) (sets w ++ [default [] (sets w !! a)])).

(** [s.delete(v)] on the set at [a]. *)
Definition Set_delete (a : nat) (v : val) : M unit :=
  λ w, (tt, mkWorld (registry w) (logs w) (alter (set_delete v) a (sets w))).

(** The values of the set at [a], in insertion order. *)
Definition Set_values (a : nat) : M (list val) :=
  λ w, (default [] (sets w !! a), w).

Definition observed_at (log : LogRef) (type : Store.value_source) : nat :=
  match type with
  | Store.valid => ref_valid log
  | Store.invalid => ref_invalid log
  end.

Definition rule_of (type : Store.value_source) : string :=
  match type with
  | Store.valid => "valids"
  | Store.invalid => "invalids"
  end.

(** The body of [for (const type of ['valid', 'invalid'])]. *)
Definition check_values (L : Literals_at) (sub : node) (log : LogRef)
    (missing : list Missing) (type : Store.value_source) : M (list Missing) :=
  match L sub type with
  | None => ret missing
  | Some set =>
      values ←← new_Set set;
      observed ←← Set_values (observed_at log type);
      _ ←← for_each observed (Set_delete values);
      rest ←← Set_values values;
      ret (if decide (length rest = 0%nat) then missing
           else missing ++ [mkMissing (Literals rest) (Some (rule_of type)) None])
  end.

(** What the rule check reads of a log: its paths and its rule table. *)
Definition scalars (log : LogRef) : Log :=
  mkLog (ref_paths log) (ref_entry log) (ref_rule log) [] [].

(** The body of [for (const [sub, log] of store._logs)]. *)
Definition report_log (L : Literals_at) (H : Heap)
    (acc : list Missing * list Array) (entry : node * LogRef)
  : M (list Missing * list Array) :=
  if internals.sub (ref_paths entry.2) acc.2 then ret acc
  else if negb (ref_entry entry.2) then
    ret (acc.1 ++ [mkMissing (Label "never reached") None (Some (ref_paths entry.2))],
         acc.2 ++ ref_paths entry.2)
  else
    missing ←← fold_each (check_values L entry.1 entry.2)
                 [Store.valid; Store.invalid] acc.1;
    ret (missing ++ (Tracer.rules (H entry.1) ≫= Tracer.check_rule (scalars entry.2)),
         acc.2).

(** The body of the loop over [this._schemas.values()]. *)
Definition report_schema (L : Literals_at) (H : Heap) (R : Render)
    (file : option string) (coverage : list Coverage) (reg : Registration)
  : M (list Coverage) :=
  if truthy file && negb (String.eqb (default "" file) (filename reg))
  then ret coverage
  else
    entries ←← store_logs (store reg);
    acc ←← fold_each (report_log L H) entries ([], []);
    ret (if decide (length acc.1 = 0%nat) then coverage
         else coverage ++
                [mkCoverage (filename reg) (line reg) acc.1 "error"
                   (String.append "Schema missing tests for "
                      (String.concat ", " (map (internals.message R) acc.1)))]).

(** [report(file)]. *)
Definition report (L : Literals_at) (H : Heap) (R : Render)
    (file : option string) : M (option (list Coverage)) :=
  regs ←← schemas_values;
  coverage ←← fold_each (report_schema L H R file) regs [];
  ret (if decide (length coverage = 0%nat) then None else Some coverage).

(** The world holds the log [l] as [r]. *)
Definition holds_log (w : World) (r : LogRef) (l : Log) : Prop :=
  ref_paths r = log_paths l
  ∧ ref_entry r = log_entry l
  ∧ ref_rule r = log_rule l
  ∧ sets w !! ref_valid r = Some (log_valid l)
  ∧ sets w !! ref_invalid r = Some (log_invalid l).

(** The world holds the registry and the stores of [m] and the literals of
    the schemas of [H], the latter where [L] says. *)
Definition holds (L : Literals_at) (H : Heap) (m : Memory) (w : World) : Prop :=
  registry w = _schemas (tracer m)
  ∧ Forall2 (λ rs s, Forall2 (λ r e, r.1 = e.1 ∧ holds_log w r.2 e.2) rs (_logs s))
      (logs w) (stores m)
  ∧ ∀ k type,
      match (match type with
             | Store.valid => _valids (H k)
             | Store.invalid => _invalids (H k)
             end) with
      | Some set => ∃ a, L k type = Some a ∧ sets w !! a = Some (_set set)
      | None => L k type = None
      end.

(** [w'] has all that [w] has, and maybe new set objects. *)
Definition extended (w w' : World) : Prop :=
  registry w' = registry w
  ∧ logs w' = logs w
  ∧ ∃ fresh, sets w' = sets w ++ fresh.

End Effects.

(** ** The calls the validation engine and the test runner make *)

Inductive call : Type :=
  | Register (loc : string * Z) (schema : node)
  | Entry (store : nat) (schema : node)
  | LogRule (store : nat) (source : Store.log_source) (name : string)
      (result : internals.result) (schema : node)
  | RecordValue (store : nat) (source : Store.value_source) (v : val)
      (schema : node)
  | Report (file : option string).

Inductive answer : Type :=
  | Registered (store : nat)
  | Done
  | Reported (coverage : option (list Coverage)).

(** A method call on the store object at address [a]. *)
Definition on_store (a : nat) (f : StoreObj -> option StoreObj) (m : Memory)
  : option (answer * Memory) :=
  s ← stores m !! a;
  s' ← f s;
  Some (Done, mkMemory (tracer m) (<[a := s']> (stores m)) (next_array m)).

(** One call; [None] is an exception or a scan that does not return. *)
Definition step (H : Heap) (R : Render) (fuel : nat) (c : call) (m : Memory)
  : option (answer * Memory) :=
  match c with
  | Register loc schema =>
      r ← Tracer._register H fuel loc schema m;
      Some (Registered r.1, r.2)
  | Entry a schema => on_store a (Store.entry schema) m
  | LogRule a source name result schema =>
      on_store a (Store.log source name result schema) m
  | RecordValue a source v schema => on_store a (Store.value source v schema) m
  | Report file => Some (Reported (Tracer.report H R file m), m)
  end.

(** A memory with a fresh tracer and nothing else. *)
Definition initial : Memory := mkMemory Tracer.constructor [] 0.

(** ** Calls on one store *)

(** Instrumentation calls on one store, in sequence. *)
Inductive port : Type :=
  | PEntry (schema : node)
  | PLog (source : Store.log_source) (name : string) (result : internals.result)
      (schema : node)
  | PValue (source : Store.value_source) (v : val) (schema : node).

Definition port_call (p : port) (s : StoreObj) : option StoreObj :=
  match p with
  | PEntry schema => Store.entry schema s
  | PLog source name result schema => Store.log source name result schema s
  | PValue source v schema => Store.value source v schema s
  end.

Fixpoint port_calls (ps : list port) (s : StoreObj) : option StoreObj :=
  match ps with
  | [] => Some s
  | p :: ps => s' ← port_call p s; port_calls ps s'
  end.

(** The schema an instrumentation call is about, and what it does to the
    log of that schema. *)
Definition port_schema (p : port) : node :=
  match p with
  | PEntry schema | PLog _ _ _ schema | PValue _ _ schema => schema
  end.

Definition port_update (p : port) : Log -> Log :=
  match p with
  | PEntry _ => Store.set_entry
  | PLog _ name result _ => Store.or_rule name (internals.codes result)
  | PValue source v _ => Store.add_value source v
  end.

(** The store reached from the scan of [root] by the calls [ps]. *)
Definition store_after (H : Heap) (fuel : nat) (root : node) (ps : list port)
  : option StoreObj :=
  r ← Store.constructor H fuel root 0; port_calls ps r.1.

(** Calls in sequence, with their answers. *)
Fixpoint run (H : Heap) (R : Render) (fuel : nat) (cs : list call) (m : Memory)
  : option (list answer * Memory) :=
  match cs with
  | [] => Some ([], m)
  | c :: cs =>
      r ← step H R fuel c m;
      rs ← run H R fuel cs r.2;
      Some (r.1 :: rs.1, rs.2)
  end.

(** ** Notions used in the statements: the scan *)

(** The segments [path.concat(id)] appends. *)
Definition segments (i : internals.Ident) : list val := concat_elems [] i.

(** [route H s q k]: following [each_calls] from [s] leads to [k], and the
    identifiers met on the way, concatenated, are [q]. *)
Inductive route (H : Heap) : node -> list val -> node -> Prop :=
  | route_here (s : node) : route H s [] s
  | route_sub (s sub : node) (ctx : Context) (q : list val) (k : node) :
      (sub, ctx) ∈ each_calls (H s) ->
      route H sub q k ->
      route H s (segments (internals.id (H sub) ctx) ++ q) k.

(** The enumeration of sub-schemas has no cycle: [rank] decreases along it. *)
Definition acyclic (H : Heap) (rank : node -> nat) : Prop :=
  ∀ s sub ctx, (sub, ctx) ∈ each_calls (H s) -> (rank sub < rank s)%nat.

(** The [paths] of the log of [k], empty when [k] has no log. *)
Definition paths_of (k : node) (logs : list (node * Log)) : list Array :=
  default [] (log_paths <$> map_get k logs).

(** A sequence of visits [(schema, path)], each doing what the first part
    of [_scan] does. *)
Definition visit_all (logs : list (node * Log)) (vs : list (node * Array))
  : list (node * Log) :=
  foldl (λ l v, Store.visit v.1 v.2 l) logs vs.

(** The visits [vs] made with arrays allocated from address [n] up to
    [n']. *)
Definition allocated (n n' : nat) (vs : list (node * Array)) : Prop :=
  (n ≤ n')%nat ∧
  (∀ v, v ∈ vs -> (n ≤ addr v.2 < n')%nat) ∧
  NoDup (map (λ v, addr v.2) vs).

(** The body of [each] in a call of [_scan] whose path is [path]. *)
Definition each_of (H : Heap) (fuel : nat) (path : Array) (st : Store.ScanState)
    (call : node * Context) : option Store.ScanState :=
  let id := internals.id (H call.1) call.2 in
  let path' := mkArray (Store.scan_next st) (concat_elems (elems path) id) in
  Store._scan H fuel call.1 (Some path')
    (Store.mkScan (Store.scan_logs st) (S (Store.scan_next st))).

(** Every visit of [vs] was called from an earlier visit, or from the
    visit [top], with that visit's path continued by one identifier. *)
Definition parented (H : Heap) (top : node * Array) (vs : list (node * Array))
  : Prop :=
  ∀ i k a, vs !! i = Some (k, a) ->
    ∃ m b ctx,
      ((m, b) = top ∨ ∃ j, (j < i)%nat ∧ vs !! j = Some (m, b))
      ∧ (k, ctx) ∈ each_calls (H m)
      ∧ elems a = elems b ++ segments (internals.id (H k) ctx).

(** The visits of one call of [_scan] with path [path]: the call's own,
    then those of the calls it makes. *)
Definition scanned (H : Heap) (s : node) (path : Array)
    (st st' : Store.ScanState) : Prop :=
  ∃ vs,
    Store.scan_logs st' = visit_all (Store.scan_logs st) ((s, path) :: vs)
    ∧ allocated (Store.scan_next st) (Store.scan_next st') vs
    ∧ (∀ k a, (k, a) ∈ vs ->
         ∃ q, q ≠ [] ∧ route H s q k ∧ elems a = elems path ++ q)
    ∧ (∀ q k, route H s q k -> q ≠ [] ->
         ∃ a, (k, a) ∈ vs ∧ elems a = elems path ++ q)
    ∧ parented H (s, path) vs.

(** The visits that the scan of [s], arrived at with the segments [q],
    makes below [s], in order: for each sub-schema that [s] enumerates,
    the visit of that sub-schema with [q] continued by its identifier,
    then the visits below it.  [depth] bounds the nesting. *)
Fixpoint visits (H : Heap) (depth : nat) (s : node) (q : list val)
  : list (node * list val) :=
  match depth with
  | O => []
  | S depth =>
      each_calls (H s) ≫= (λ call,
        let q' := q ++ segments (internals.id (H call.1) call.2) in
        (call.1, q') :: visits H depth call.1 q')
  end.

(** One new array per visit, from the address [n] on. *)
Fixpoint arrays_from (n : nat) (ws : list (node * list val))
  : list (node * Array) :=
  match ws with
  | [] => []
  | w :: ws => (w.1, mkArray n w.2) :: arrays_from (S n) ws
  end.

(** A log nothing has been recorded in. *)
Definition untouched (l : Log) : Prop :=
  log_entry l = false ∧ log_rule l = ∅ ∧ log_valid l = [] ∧ log_invalid l = [].

(** No two logs of a map have the same set of paths. *)
Definition distinct_paths (logs : list (node * Log)) : Prop :=
  ∀ i j e1 e2, logs !! i = Some e1 -> logs !! j = Some e2 ->
               log_paths e1.2 = log_paths e2.2 -> i = j.

(** ** Notions used in the statements: the report *)

(** The pair [(missing, skipped)] after the logs [logs], from an empty one. *)
Definition loop (H : Heap) (logs : list (node * Log)) : list Missing * list Array :=
  foldl (Tracer.report_log H) ([], []) logs.

(** The gap of a schema that was never reached. *)
Definition never_reached (l : Log) : Missing :=
  mkMissing (Label "never reached") None (Some (log_paths l)).

(** The gap of a rule, with the paths of the log when it has some. *)
Definition rule_gap (l : Log) (name label : string) : Missing :=
  mkMissing (Label label) (Some name)
    (if decide (log_paths l = []) then None else Some (log_paths l)).

(** The accumulated outcome mask of a rule: the number the rule table
    holds under [name], 0 when it holds none. *)
Definition mask (l : Log) (name : string) : Z := default 0 (log_rule l !! name).

(** The rule table holds no number under [name], and [name] is the name
    of a property of [Object.prototype]: reading it gives what is
    inherited. *)
Definition inherited (l : Log) (name : string) : Prop :=
  log_rule l !! name = None ∧ name ∈ Object_prototype.

#[global] Instance inherited_dec l name : Decision (inherited l name).
Proof. unfold inherited. apply _. Defined.


(** The mask a sequence of logged outcomes accumulates. *)
Definition outcome_mask (rs : list internals.result) : Z :=
  foldl (λ m r, Z.lor m (internals.codes r)) 0 rs.

(** The outcomes logged for rule [name] of schema [k] by the calls [ps]. *)
Definition logged (ps : list port) (name : string) (k : node)
  : list internals.result :=
  omap (λ p, match p with
             | PLog _ n r k' =>
                 if decide (n = name ∧ k' = k) then Some r else None
             | _ => None
             end) ps.

(** The declared literals [sub._valids] or [sub._invalids], and the name
    under which their gap is reported. *)
Definition declared (source : Store.value_source) (sub : Schema) : option Values :=
  match source with
  | Store.valid => _valids sub
  | Store.invalid => _invalids sub
  end.

Definition literal_rule (source : Store.value_source) : string :=
  match source with
  | Store.valid => "valids"
  | Store.invalid => "invalids"
  end.

(** The observed set of a log that [source] selects. *)
Definition observed (source : Store.value_source) (l : Log) : list val :=
  match source with
  | Store.valid => log_valid l
  | Store.invalid => log_invalid l
  end.

(** The declared literals that were not observed. *)
Definition unobserved (declared observed : list val) : list val :=
  filter (λ v, v ∉ observed) declared.

(** The gap of an allow or deny list: its unobserved literals, if any. *)
Definition values_gap (set : option Values) (observed : list val) (rule : string)
  : list Missing :=
  match set with
  | None => []
  | Some set =>
      match unobserved (_set set) observed with
      | [] => []
      | vs => [mkMissing (Literals vs) (Some rule) None]
      end
  end.

(** A path starts with a skipped path. *)
Definition extends (p skip : Array) : Prop := elems skip `prefix_of` elems p.

(** What one log adds to [missing], given the paths skipped so far. *)
Definition contribution (H : Heap) (skipped : list Array) (e : node * Log)
  : list Missing :=
  if internals.sub (log_paths e.2) skipped then []
  else if negb (log_entry e.2) then [never_reached e.2]
  else Tracer.check_values (_valids (H e.1)) (log_valid e.2) "valids"
       ++ Tracer.check_values (_invalids (H e.1)) (log_invalid e.2) "invalids"
       ++ (Tracer.rules (H e.1) ≫= Tracer.check_rule e.2).

(** What one log adds to [skipped]. *)
Definition skipped_after (skipped : list Array) (e : node * Log) : list Array :=
  if internals.sub (log_paths e.2) skipped then skipped
  else if negb (log_entry e.2) then skipped ++ log_paths e.2
  else skipped.

(** The filter of [report(file)] lets a registration through: no file was
    given (or an empty name, which is falsy), or it is the registration's. *)
Definition selects (file : option string) (reg : Registration) : Prop :=
  match file with
  | None => True
  | Some f => f = "" ∨ f = filename reg
  end.

#[global] Instance selects_dec file reg : Decision (selects file reg).
Proof. destruct file; apply _. Defined.

(** The registrations [report(file)] has a record for. *)
Definition reported (H : Heap) (file : option string) (m : Memory)
  : list Registration :=
  filter (λ reg, selects file reg
                 ∧ Tracer.missing_of H (Tracer.deref m (store reg)) ≠ [])
    (_schemas (tracer m)).*2.

(** The record of a registration. *)
Definition record_of (H : Heap) (R : Render) (m : Memory) (reg : Registration)
  : Coverage :=
  let missing := Tracer.missing_of H (Tracer.deref m (store reg)) in
  mkCoverage (filename reg) (line reg) missing "error"
    (String.append "Schema missing tests for "
       (String.concat ", " (map (internals.message R) missing))).

(** ** Notions used in the statements: what calls leave unchanged *)

(** [l'] has all that [l] has: the same paths, the entry flag if [l] has
    it, every bit of every mask, every observed value. *)
Definition grows (l l' : Log) : Prop :=
  log_paths l' = log_paths l
  ∧ (log_entry l = true -> log_entry l' = true)
  ∧ (∀ name i, Z.testbit (mask l name) i = true ->
               Z.testbit (mask l' name) i = true)
  ∧ log_valid l ⊆ log_valid l'
  ∧ log_invalid l ⊆ log_invalid l'.

(** The shape of a store: its schemas, in order, each with its paths. *)
Definition topology (s : StoreObj) : list (node * list Array) :=
  (λ e, (e.1, log_paths e.2)) <$> _logs s.

(** [s'] has the logs of [s], for the same schemas in the same order, each
    grown. *)
Definition store_grows (s s' : StoreObj) : Prop :=
  (_logs s').*1 = (_logs s).*1
  ∧ topology s' = topology s
  ∧ ∀ k l, map_get k (_logs s) = Some l ->
           ∃ l', map_get k (_logs s') = Some l' ∧ grows l l'.

(** A call is an instrumentation call on the store at [b]. *)
Definition touches (b : nat) (c : call) : Prop :=
  match c with
  | Entry a _ | LogRule a _ _ _ _ | RecordValue a _ _ _ => a = b
  | Register _ _ | Report _ => False
  end.

(** ** Schemas and runs used as examples *)

Definition no_flags : Flags := mkFlags None None VUndefined VUndefined.

(** A schema with the given rules and sub-schemas and nothing else. *)
Definition plain (rules : list string) (calls : list (node * Context)) : Schema :=
  mkSchema no_flags (map mkRule rules) None None calls.

(** A schema without rules, with an explicit [id] flag. *)
Definition with_id (i : string) (calls : list (node * Context)) : Schema :=
  mkSchema (mkFlags (Some i) None VUndefined VUndefined) [] None None calls.

(** A schema without rules, with a [_key] flag. *)
Definition with_key (k : string) (calls : list (node * Context)) : Schema :=
  mkSchema (mkFlags None (Some k) VUndefined VUndefined) [] None None calls.

(** The context of the [i]-th schema of the term [name]. *)
Definition term (name : string) (i : Z) : Context :=
  mkContext "terms" name [VString name; VNumber i].

(** A heap holding the listed schemas; any other address holds a schema
    without rules or sub-schemas. *)
Definition heap_of (l : list (node * Schema)) : Heap :=
  λ k, default (plain [] []) (map_get k l).

(** [rank] decreases along every call of every listed schema. *)
Definition decreasing (rank : node -> nat) (l : list (node * Schema)) : bool :=
  forallb (λ e, forallb (λ c, bool_decide (rank c.1 < rank e.1)%nat)
                  (each_calls e.2)) l.

(** A rank for the examples, whose schemas are numbered from the root
    down. *)
Definition rev_rank (k : node) : nat := 10 - Pos.to_nat k.

(** [root = object(a: object(b: string))], as a chain of three schemas,
    the innermost with a rule and an allow-list. *)
Definition nested : Heap :=
  heap_of [(1%positive, plain [] [(2%positive, term "keys" 0)]);
           (2%positive, with_key "a" [(3%positive, term "keys" 0)]);
           (3%positive, mkSchema (mkFlags None (Some "b") VUndefined VUndefined)
                          [mkRule "min"]
                          (Some (mkValues [VString "a"; VString "b"])) None [])].

(** [root = alternatives(n, m)], [m = array(n)]: [n] is shared. *)
Definition shared_first : Heap :=
  heap_of [(1%positive, plain [] [(4%positive, term "matches" 0);
                                   (2%positive, term "matches" 1)]);
           (2%positive, plain [] [(4%positive, term "items" 0)]);
           (4%positive, plain ["min"] [])].

(** [root = when(then: a, otherwise: b)], [a = array(n)], [b = array(n)],
    [n] with a rule and an allow-list. *)
Definition two_branches : Heap :=
  heap_of [(1%positive, plain [] [(2%positive, term "whens" 0);
                                   (3%positive, term "whens" 1)]);
           (2%positive, plain [] [(4%positive, term "items" 0)]);
           (3%positive, plain [] [(4%positive, term "items" 0)]);
           (4%positive, mkSchema no_flags [mkRule "min"]
                          (Some (mkValues [VString "a"; VString "b"])) None [])].

(** [root = array(x, x)] with [x] carrying the id ["x"]. *)
Definition same_twice : Heap :=
  heap_of [(1%positive, plain [] [(2%positive, term "items" 0);
                                   (2%positive, term "items" 1)]);
           (2%positive, with_id "x" [])].

(** A rendering for the examples: string segments joined by dots, string
    literals as they are. *)
Definition example_render : Render :=
  mkRender
    (λ o, match o with
          | Some segs =>
              String.concat "."
                (omap (λ v, match v with VString s => Some s | _ => None end) segs)
          | None => ""
          end)
    (λ v, match v with VString s => s | _ => "" end).

(** The store of [nested] after a run that entered its three schemas,
    failed the rule of the innermost one and matched its literal ["a"]. *)
Definition nested_run : StoreObj :=
  default (mkStore [])
    (store_after nested 10 1%positive
       [PEntry 1%positive; PEntry 2%positive; PEntry 3%positive;
        PLog Store.src_rule "min" internals.error 3%positive;
        PValue Store.valid (VString "a") 3%positive]).

(** The store of [two_branches] after a run through the second branch:
    the root, the second array and the shared item were entered. *)
Definition second_branch_run : option StoreObj :=
  store_after two_branches 10 1%positive
    [PEntry 1%positive; PEntry 3%positive; PEntry 4%positive].

(** The memory after the first registration of the root of [nested]. *)
Definition nested_registered : Memory :=
  default initial
    (snd <$> step nested example_render 10
               (Register ("schema.js", 12) 1%positive) initial).

(** The memory with the root of [nested] registered and its store as
    [nested_run] left it. *)
Definition nested_ran : Memory :=
  mkMemory (tracer nested_registered) [nested_run] (next_array nested_registered).

(** A world that holds [nested_ran]: the two sets of observed values of
    the [i]-th log are the set objects [2 i] and [2 i + 1], and the
    literals of the innermost schema are the set object 6. *)
Definition nested_world : Effects.World :=
  Effects.mkWorld (_schemas (tracer nested_ran))
    [imap (λ i e, (e.1, Effects.mkLogRef (log_paths e.2) (log_entry e.2)
                          (log_rule e.2) (2 * i) (2 * i + 1)))
       (_logs nested_run)]
    [[]; []; []; []; [VString "a"]; []; [VString "a"; VString "b"]].

Definition nested_literals : Effects.Literals_at :=
  λ k type,
    match type with
    | Store.valid => if decide (k = 3%positive) then Some 6%nat else None
    | Store.invalid => None
    end.

(** ** [exports.setup] *)

(** The objects the closures of [exports.setup(root)] work on: the tracer
    objects (the address of a tracer is its index), the property
    [root._tracer] ([None] is [undefined] or [null]), the store objects and
    the next free array address. *)
Record Process : Type := mkProcess {
  tracers : list TracerObj;
  root_tracer : option nat;
  process_stores : list StoreObj;
  process_next : nat
}.

Module setup.

(** [root.trace()]: [root._tracer = root._tracer || new internals.Tracer()],
    and the tracer is returned. *)
Definition trace (p : Process) : nat * Process :=
  match root_tracer p with
  | Some a => (a, p)
  | None =>
      let a := length (tracers p) in
      (a, mkProcess (tracers p ++ [Tracer.constructor]) (Some a)
            (process_stores p) (process_next p))
  end.

(** [root.untrace()]: [root._tracer = null]. *)
Definition untrace (p : Process) : Process :=
  mkProcess (tracers p) None (process_stores p) (process_next p).

End setup.

(** A call on the tracer object at address [a]. *)
Definition on_tracer (H : Heap) (R : Render) (fuel : nat) (a : nat) (c : call)
    (p : Process) : option (answer * Process) :=
  t ← tracers p !! a;
  r ← step H R fuel c (mkMemory t (process_stores p) (process_next p));
  Some (r.1, mkProcess (<[a := tracer r.2]> (tracers p)) (root_tracer p)
               (stores r.2) (next_array r.2)).

(** ** Notions used in the further statements *)

(** The gaps a log can give: the one of a schema never reached, the one
    of literals not all observed, the one of a rule whose mask has a
    label. *)
Inductive gap_of (H : Heap) (e : node * Log) : Missing -> Prop :=
  | gap_never :
      log_entry e.2 = false -> gap_of H e (never_reached e.2)
  | gap_literals (source : Store.value_source) (set : Values) :
      log_entry e.2 = true ->
      declared source (H e.1) = Some set ->
      unobserved (_set set) (observed source e.2) ≠ [] ->
      gap_of H e (mkMissing (Literals (unobserved (_set set) (observed source e.2)))
                    (Some (literal_rule source)) None)
  | gap_rule (name label : string) :
      log_entry e.2 = true ->
      name ∈ Tracer.rules (H e.1) ->
      internals.labels (mask e.2 name) = Some label ->
      gap_of H e (rule_gap e.2 name label).

(** Nothing is missing for a log: its schema was entered, each of its
    declared literals was observed, and each of its rule names either
    reads as an inherited property of the rule table or has a mask without
    a label. *)
Definition covered (H : Heap) (e : node * Log) : Prop :=
  log_entry e.2 = true
  ∧ (∀ source set, declared source (H e.1) = Some set ->
       _set set ⊆ observed source e.2)
  ∧ (∀ name, name ∈ Tracer.rules (H e.1) ->
       inherited e.2 name ∨ internals.labels (mask e.2 name) = None).

(** Two logs that the report cannot tell apart: the same paths and entry
    flag, the same rule table, the same observed values in whatever
    order. *)
Definition alike (l1 l2 : Log) : Prop :=
  log_paths l1 = log_paths l2
  ∧ log_entry l1 = log_entry l2
  ∧ (∀ name, log_rule l1 !! name = log_rule l2 !! name)
  ∧ (∀ v, v ∈ log_valid l1 <-> v ∈ log_valid l2)
  ∧ (∀ v, v ∈ log_invalid l1 <-> v ∈ log_invalid l2).

(** A memory as the calls keep it: one registry entry per root, and the
    [i]-th registration holding the store at address [i]. *)
Definition consistent (m : Memory) : Prop :=
  NoDup (_schemas (tracer m)).*1
  ∧ store <$> (_schemas (tracer m)).*2 = seq 0 (length (stores m)).

(** Every store is the one the constructor built for the root it is
    registered for, grown by instrumentation calls. *)
Definition scanned_stores (H : Heap) (fuel : nat) (m : Memory) : Prop :=
  ∀ i k reg, _schemas (tracer m) !! i = Some (k, reg) ->
    ∃ st s next n,
      stores m !! i = Some st
      ∧ Store.constructor H fuel k next = Some (s, n)
      ∧ store_grows s st.

(** [s] is on a cycle of the enumeration of sub-schemas. *)
Definition on_cycle (H : Heap) (s : node) : Prop :=
  ∃ q, q ≠ [] ∧ route H s q s.

(** A heap with a cycle: an array of itself. *)
Definition looping : Heap :=
  heap_of [(1%positive, plain [] [(2%positive, term "items" 0)]);
           (2%positive, plain [] [(2%positive, term "items" 0)])].

(** * Properties *)

(** A decidable proposition that evaluates to false does not hold. *)
Ltac by_evaluation H :=
  match type of H with
  | ?P => exfalso; revert H;
          apply (proj1 (bool_decide_eq_false P)); vm_compute; reflexivity
  end.

(** ** Containers *)

Lemma map_get_None {V} k (m : list (node * V)) :
  map_get k m = None <-> k ∉ m.*1.
Proof.
  induction m as [|[k' v] m IH]; simpl.
  - split; [intros _; apply not_elem_of_nil | done].
  - case_decide; subst.
    + split; [done | intros []; left].
    + rewrite IH, not_elem_of_cons. csimpl. intuition congruence.
Qed.

Lemma map_get_Some_elem {V} k (m : list (node * V)) v :
  map_get k m = Some v -> (k, v) ∈ m.
Proof.
  induction m as [|[k' v'] m IH]; simpl; [done|].
  case_decide; subst.
  - intros [= ->]. left.
  - intros. right. auto.
Qed.

Lemma map_get_elem {V} k (m : list (node * V)) v :
  NoDup m.*1 -> (k, v) ∈ m -> map_get k m = Some v.
Proof.
  induction m as [|[k' v'] m IH]; simpl.
  - intros _ Hin. by apply elem_of_nil in Hin.
  - rewrite NoDup_cons. intros [Hk Hnd] Hin.
    apply elem_of_cons in Hin as [[= -> ->]|Hin].
    + by rewrite decide_True.
    + rewrite decide_False; [auto|].
      intros ->. apply Hk. apply list_elem_of_fmap. by exists (k, v).
Qed.

Lemma map_get_app {V} k (m1 m2 : list (node * V)) :
  map_get k (m1 ++ m2) =
    match map_get k m1 with Some v => Some v | None => map_get k m2 end.
Proof.
  induction m1 as [|[k' v] m1 IH]; simpl; [done|]. by case_decide.
Qed.

Lemma map_update_keys {V} k (f : V -> V) (m : list (node * V)) :
  (map_update k f m).*1 = m.*1.
Proof.
  induction m as [|[k' v] m IH]; csimpl; [done|].
  case_decide; csimpl; congruence.
Qed.

Lemma map_get_update {V} k k' (f : V -> V) (m : list (node * V)) :
  map_get k' (map_update k f m) =
    if decide (k = k') then f <$> map_get k' m else map_get k' m.
Proof.
  induction m as [|[k0 v] m IH]; simpl.
  - by case_decide.
  - destruct (decide (k0 = k)) as [->|Hk0]; simpl.
    + by destruct (decide (k = k')).
    + destruct (decide (k0 = k')) as [->|Hk0']; [by rewrite decide_False|].
      apply IH.
Qed.

Lemma concat_elems_app p i : concat_elems p i = p ++ segments i.
Proof. by destruct i. Qed.

Lemma segments_not_nil i : segments i ≠ [].
Proof. by destruct i. Qed.

(** ** The first part of [_scan] *)

Lemma visit_keys s p logs :
  (Store.visit s p logs).*1 = if decide (s ∈ logs.*1) then logs.*1 else logs.*1 ++ [s].
Proof.
  unfold Store.visit.
  destruct (decide (s ∈ logs.*1)) as [Hin|Hin].
  - destruct (map_get s logs) eqn:Hg; [|by apply map_get_None in Hg].
    case_decide; [done | apply map_update_keys].
  - apply map_get_None in Hin as Hg. rewrite Hg.
    case_decide; rewrite ?map_update_keys, fmap_app; done.
Qed.

Lemma visit_NoDup s p logs : NoDup logs.*1 -> NoDup (Store.visit s p logs).*1.
Proof.
  intros Hnd. rewrite visit_keys. case_decide; [done|].
  apply NoDup_app. split_and!; [done| |apply NoDup_singleton].
  intros x Hx Hs. apply list_elem_of_singleton in Hs. by subst.
Qed.

Lemma visit_paths_of k s p logs :
  paths_of k (Store.visit s p logs) =
    if decide (k = s ∧ elems p ≠ []) then paths_add p (paths_of k logs)
    else paths_of k logs.
Proof.
  unfold Store.visit, paths_of.
  assert (Hnew : map_get k
      match map_get s logs with
      | Some _ => logs
      | None => logs ++ [(s, Store.new_log)]
      end = match map_get k logs with
            | Some l => Some l
            | None => if decide (s = k) then Some Store.new_log else None
            end).
  { destruct (map_get s logs) eqn:Hs.
    - destruct (map_get k logs) eqn:Hk; [done|].
      case_decide; [congruence | done].
    - rewrite map_get_app. destruct (map_get k logs); [done|]. simpl.
      done. }
  destruct (decide (length (elems p) = 0%nat)) as [Hl|Hl].
  - rewrite Hnew. apply length_zero_iff_nil in Hl.
    destruct (decide (k = s ∧ elems p ≠ [])) as [[_ ?]|_]; [done|].
    destruct (map_get k logs); [done|]. by case_decide.
  - rewrite map_get_update, Hnew.
    assert (elems p ≠ []) by (intros E; by rewrite E in Hl).
    destruct (decide (k = s ∧ elems p ≠ [])) as [[-> _]|Hn].
    + rewrite !decide_True by done.
      by destruct (map_get s logs).
    + assert (s ≠ k) by (intros ->; by apply Hn).
      rewrite !decide_False by done.
      by destruct (map_get k logs).
Qed.

Lemma visit_all_app logs vs1 vs2 :
  visit_all logs (vs1 ++ vs2) = visit_all (visit_all logs vs1) vs2.
Proof. apply foldl_app. Qed.

Lemma visit_all_NoDup vs : ∀ logs, NoDup logs.*1 -> NoDup (visit_all logs vs).*1.
Proof.
  induction vs as [|v vs IH]; intros logs Hnd; simpl; [done|].
  apply IH. by apply visit_NoDup.
Qed.

Lemma paths_add_fresh a s : addr a ∉ map addr s -> paths_add a s = s ++ [a].
Proof. intros Hn. unfold paths_add. by rewrite decide_False. Qed.

(** With array addresses that are new and pairwise distinct, every visit
    with a non-empty path adds its array at the end of the set. *)
Lemma visit_all_paths_of k vs : ∀ logs,
  NoDup (map addr (paths_of k logs) ++ map (λ v, addr v.2) vs) ->
  paths_of k (visit_all logs vs) =
    paths_of k logs ++ (filter (λ v, v.1 = k ∧ elems v.2 ≠ []) vs).*2.
Proof.
  induction vs as [|[s p] vs IH]; intros logs Hnd; simpl.
  - by rewrite app_nil_r.
  - simpl in Hnd. apply NoDup_app in Hnd as (Hnd1 & Hdis & Hnd2).
    apply NoDup_cons in Hnd2 as [Hp Hnd2].
    assert (Hfresh : addr p ∉ map addr (paths_of k logs)).
    { intros Hin. apply (Hdis _ Hin). left. }
    assert (Hnd' : NoDup (map addr (paths_of k (Store.visit s p logs))
                            ++ map (λ v, addr v.2) vs)).
    { rewrite visit_paths_of.
      destruct (decide (k = s ∧ elems p ≠ [])) as [[-> Hne]|Hn]; simpl.
      - rewrite paths_add_fresh by done. rewrite map_app. simpl.
        rewrite <- app_assoc. simpl.
        apply NoDup_app. split_and!; [done| |by apply NoDup_cons].
        intros x Hx Hx'. apply elem_of_cons in Hx' as [->|Hx']; [done|].
        apply (Hdis _ Hx). by right.
      - apply NoDup_app. split_and!; [done| |done].
        intros x Hx Hx'. apply (Hdis _ Hx). by right. }
    rewrite (IH _ Hnd'), visit_paths_of, filter_cons. simpl.
    destruct (decide (k = s ∧ elems p ≠ [])) as [[-> Hne]|Hn].
    + rewrite decide_True by done. rewrite paths_add_fresh by done.
      csimpl. by rewrite <- app_assoc.
    + rewrite decide_False; [done|]. intros [-> ?]. by apply Hn.
Qed.

Lemma route_nil_inv H s k : route H s [] k -> k = s.
Proof.
  intros Hr. remember [] as q eqn:Hq. destruct Hr; [done|].
  apply app_eq_nil in Hq as [Hq _]. by apply segments_not_nil in Hq.
Qed.

Section scan.

Context (H : Heap).

#[local] Abbreviation each_of := (each_of H).
#[local] Abbreviation scanned := (scanned H).

Lemma allocated_app n n1 n2 vs1 vs2 :
  allocated n n1 vs1 -> allocated n1 n2 vs2 -> allocated n n2 (vs1 ++ vs2).
Proof.
  intros (Hle1 & Hr1 & Hnd1) (Hle2 & Hr2 & Hnd2). split_and!.
  - lia.
  - intros v [Hv|Hv]%elem_of_app; [apply Hr1 in Hv | apply Hr2 in Hv]; lia.
  - rewrite map_app. apply NoDup_app. split_and!; [done| |done].
    intros x (v1 & -> & Hv1)%list_elem_of_fmap (v2 & E & Hv2)%list_elem_of_fmap.
    apply Hr1 in Hv1. apply Hr2 in Hv2. lia.
Qed.

Lemma allocated_cons n n' s p vs :
  addr p = n -> allocated (S n) n' vs -> allocated n n' ((s, p) :: vs).
Proof.
  intros Hp (Hle & Hr & Hnd). split_and!.
  - lia.
  - intros v [->|Hv]%elem_of_cons; simpl; [lia | apply Hr in Hv; lia].
  - simpl. apply NoDup_cons. split; [|done].
    intros (v & E & Hv)%list_elem_of_fmap. apply Hr in Hv. lia.
Qed.

Lemma scan_unfold fuel s path st :
  Store._scan H (S fuel) s (Some path) st =
    Store.modify_each (each_of fuel path) (each_calls (H s))
      (Store.mkScan (Store.visit s path (Store.scan_logs st)) (Store.scan_next st)).
Proof. reflexivity. Qed.

Lemma each_scanned fuel s path
    (IH : ∀ s p st st', Store._scan H fuel s (Some p) st = Some st' ->
                        scanned s p st st') :
  ∀ calls st st',
    (∀ c, c ∈ calls -> c ∈ each_calls (H s)) ->
    Store.modify_each (each_of fuel path) calls st = Some st' ->
    ∃ vs,
      Store.scan_logs st' = visit_all (Store.scan_logs st) vs
      ∧ allocated (Store.scan_next st) (Store.scan_next st') vs
      ∧ (∀ k a, (k, a) ∈ vs ->
           ∃ sub ctx q, (sub, ctx) ∈ calls ∧ route H sub q k ∧
             elems a = elems path ++ segments (internals.id (H sub) ctx) ++ q)
      ∧ (∀ sub ctx q k, (sub, ctx) ∈ calls -> route H sub q k ->
           ∃ a, (k, a) ∈ vs ∧
             elems a = elems path ++ segments (internals.id (H sub) ctx) ++ q)
      ∧ parented H (s, path) vs.
Proof.
  induction calls as [|[sub ctx] calls IHc]; intros st st' Hcalls Hrun;
    simpl in Hrun.
  - injection Hrun as <-. exists []. split_and!; [done| |..].
    + split_and!; [lia | | constructor]. intros v Hv. by apply elem_of_nil in Hv.
    + intros k a Hin. by apply elem_of_nil in Hin.
    + intros ? ? ? ? Hin. by apply elem_of_nil in Hin.
    + by intros i k a Hi.
  - destruct (each_of fuel path st (sub, ctx)) as [st1|] eqn:Hsub; [|done].
    simpl in Hrun. apply IH in Hsub as (vs1 & Hl1 & Ha1 & Hs1 & Hc1 & Ho1).
    apply IHc in Hrun as (vs2 & Hl2 & Ha2 & Hs2 & Hc2 & Ho2);
      [|intros c Hc; apply Hcalls; by right].
    simpl in *. rewrite concat_elems_app in *.
    set (p' := mkArray (Store.scan_next st)
                 (elems path ++ segments (internals.id (H sub) ctx))) in *.
    exists (((sub, p') :: vs1) ++ vs2). split_and!.
    + by rewrite Hl2, Hl1, visit_all_app.
    + eapply allocated_app; [|done]. by apply allocated_cons.
    + intros k a [[[= -> ->]|Hin]%elem_of_cons|Hin]%elem_of_app.
      * exists sub, ctx, []. split_and!; [left|constructor|].
        by rewrite app_nil_r.
      * apply Hs1 in Hin as (q & _ & Hr & E). exists sub, ctx, q.
        split_and!; [left|done|]. by rewrite E, <- app_assoc.
      * apply Hs2 in Hin as (sub' & ctx' & q & Hin & Hr & E).
        exists sub', ctx', q. split_and!; [by right|done..].
    + intros sub' ctx' q k [[= -> ->]|Hin]%elem_of_cons Hr.
      * destruct (decide (q = [])) as [->|Hq].
        -- apply route_nil_inv in Hr as ->.
           exists p'. split; [left | by rewrite app_nil_r].
        -- destruct (Hc1 q k Hr Hq) as (a & Hin & E). exists a. split.
           ++ apply elem_of_app. left. by right.
           ++ by rewrite E, <- app_assoc.
      * destruct (Hc2 sub' ctx' q k Hin Hr) as (a & Hin' & E).
        exists a. split; [|done]. apply elem_of_app. by right.
    + intros i k a Hi. destruct i as [|i]; simpl in Hi.
      * injection Hi as <- <-. exists s, path, ctx. split_and!; [by left| |done].
        apply Hcalls. left.
      * apply lookup_app_Some in Hi as [Hi|[Hlen Hi]].
        -- destruct (Ho1 _ _ _ Hi) as (m & b & ctx' & Hpar & Hin & E).
           exists m, b, ctx'. split_and!; [right|done..].
           destruct Hpar as [[= -> ->]|(j & Hj & Hvj)].
           ++ exists 0%nat. split; [lia|done].
           ++ exists (S j). split; [lia|]. simpl. by apply lookup_app_l_Some.
        -- destruct (Ho2 _ _ _ Hi) as (m & b & ctx' & Hpar & Hin & E).
           exists m, b, ctx'. split_and!; [|done..].
           destruct Hpar as [Hpar|(j & Hj & Hvj)]; [by left|right].
           exists (S (length vs1 + j)). split; [lia|]. simpl.
           rewrite lookup_app_r by lia.
           by replace (length vs1 + j - length vs1)%nat with j by lia.
Qed.

Lemma scan_scanned fuel : ∀ s p st st',
  Store._scan H fuel s (Some p) st = Some st' -> scanned s p st st'.
Proof.
  induction fuel as [|fuel IH]; intros s p st st' Hscan; [done|].
  rewrite scan_unfold in Hscan.
  apply (each_scanned fuel s p IH) in Hscan as (vs & Hl & Ha & Hs & Hc & Ho);
    [|done].
  simpl in *. exists vs. split_and!; [done|done| | |done].
  - intros k a Hin. apply Hs in Hin as (sub & ctx & q & Hin & Hr & E).
    exists (segments (internals.id (H sub) ctx) ++ q). split_and!; [| |done].
    + intros [Hq _]%app_eq_nil. by apply segments_not_nil in Hq.
    + by econstructor.
  - intros q k Hr Hq. inversion Hr; subst; [done|]. by eapply Hc.
Qed.

End scan.

(** ** Termination of the scan on acyclic schemas *)

Lemma modify_each_is_Some each calls :
  (∀ c st, c ∈ calls -> is_Some (each st c)) ->
  ∀ st, is_Some (Store.modify_each each calls st).
Proof.
  induction calls as [|c calls IH]; intros Hall st; simpl; [by eexists|].
  destruct (Hall c st) as [st' ->]; [left|]. simpl.
  apply IH. intros c' st'' Hin. apply Hall. by right.
Qed.

Lemma scan_terminates H rank :
  acyclic H rank ->
  ∀ fuel s p st, (rank s < fuel)%nat -> is_Some (Store._scan H fuel s p st).
Proof.
  intros Hacyc. induction fuel as [|fuel IH]; intros s p st Hlt; [lia|].
  simpl. destruct p as [p|]; apply modify_each_is_Some;
    intros [sub ctx] st' Hin; apply IH; apply Hacyc in Hin; simpl; lia.
Qed.

(** Along a non-empty route the rank decreases. *)
Lemma route_rank H rank s q k :
  acyclic H rank -> route H s q k -> (rank k ≤ rank s)%nat ∧ (q ≠ [] -> (rank k < rank s)%nat).
Proof.
  intros Hacyc. induction 1 as [s|s sub ctx q k Hin Hr [IH _]].
  - split; [lia | done].
  - apply Hacyc in Hin. split; [lia | intros _; lia].
Qed.

(** More fuel does not change what a scan returns. *)
Lemma modify_each_mono each1 each2 calls :
  (∀ st c st', each1 st c = Some st' -> each2 st c = Some st') ->
  ∀ st st', Store.modify_each each1 calls st = Some st' ->
            Store.modify_each each2 calls st = Some st'.
Proof.
  intros Hmono. induction calls as [|c calls IH]; intros st st'; simpl; [done|].
  destruct (each1 st c) as [st1|] eqn:E1; [|done]. simpl.
  rewrite (Hmono _ _ _ E1). simpl. apply IH.
Qed.

Lemma scan_more_fuel H fuel : ∀ fuel' s p st st',
  (fuel ≤ fuel')%nat ->
  Store._scan H fuel s p st = Some st' -> Store._scan H fuel' s p st = Some st'.
Proof.
  induction fuel as [|fuel IH]; intros fuel' s p st st' Hle; [done|].
  destruct fuel' as [|fuel']; [lia|]. simpl.
  destruct p as [p|]; apply modify_each_mono;
    intros st0 c st1; apply IH; lia.
Qed.

Lemma constructor_more_fuel H fuel fuel' root next r :
  (fuel ≤ fuel')%nat ->
  Store.constructor H fuel root next = Some r ->
  Store.constructor H fuel' root next = Some r.
Proof.
  unfold Store.constructor. intros Hle.
  destruct (Store._scan H fuel root None _) as [st|] eqn:Hs; [|done].
  by rewrite (scan_more_fuel _ _ _ _ _ _ _ Hle Hs).
Qed.

(** ** What the constructor of a store builds *)

Lemma visit_all_keys vs : ∀ logs k,
  k ∈ (visit_all logs vs).*1 <-> k ∈ logs.*1 ∨ k ∈ vs.*1.
Proof.
  induction vs as [|[s p] vs IH]; intros logs k; simpl.
  - split; [by left | intros [?|[]%elem_of_nil]; done].
  - rewrite IH, visit_keys. csimpl. rewrite elem_of_cons.
    case_decide; [|rewrite elem_of_app, list_elem_of_singleton];
      intuition (subst; auto).
Qed.

Lemma map_update_Forall {V} (P : V -> Prop) k f (m : list (node * V)) :
  (∀ v, P v -> P (f v)) -> Forall P m.*2 -> Forall P (map_update k f m).*2.
Proof.
  intros Hf. induction m as [|[k' v] m IH]; csimpl; [done|].
  intros [Hv Hm]%Forall_cons. case_decide; csimpl; apply Forall_cons; auto.
Qed.

Lemma visit_untouched s p logs :
  Forall untouched logs.*2 -> Forall untouched (Store.visit s p logs).*2.
Proof.
  intros Hall. unfold Store.visit.
  assert (Forall untouched
            (match map_get s logs with
             | Some _ => logs
             | None => logs ++ [(s, Store.new_log)]
             end).*2) as Hall'.
  { destruct (map_get s logs); [done|]. rewrite fmap_app.
    apply Forall_app. split; [done|]. by apply Forall_singleton. }
  case_decide; [done|]. apply map_update_Forall; [|done].
  by intros v (? & ? & ? & ?).
Qed.

Lemma visit_all_untouched vs : ∀ logs,
  Forall untouched logs.*2 -> Forall untouched (visit_all logs vs).*2.
Proof.
  induction vs as [|v vs IH]; intros logs Hall; simpl; [done|].
  apply IH. by apply visit_untouched.
Qed.

Lemma paths_of_elem k logs a :
  a ∈ paths_of k logs -> ∃ l, map_get k logs = Some l ∧ a ∈ log_paths l.
Proof.
  unfold paths_of. destruct (map_get k logs) as [l|]; simpl.
  - intros. by exists l.
  - intros []%elem_of_nil.
Qed.

Lemma paths_of_get k logs l : map_get k logs = Some l -> paths_of k logs = log_paths l.
Proof. unfold paths_of. by intros ->. Qed.

Lemma filter_ext_elem {A} (P Q : A -> Prop) `{!∀ x, Decision (P x)}
    `{!∀ x, Decision (Q x)} (l : list A) :
  (∀ x, x ∈ l -> P x <-> Q x) -> filter P l = filter Q l.
Proof.
  induction l as [|x l IH]; intros Hpq; [done|].
  rewrite !filter_cons.
  rewrite IH by (intros y Hy; apply Hpq; by right).
  destruct (decide (P x)) as [Hp|Hp], (decide (Q x)) as [Hq|Hq]; try done.
  - exfalso. apply Hq, Hpq; [left|done].
  - exfalso. apply Hp, Hpq; [left|done].
Qed.

(** The store [new internals.Store(root)] builds, described by the visits
    of the scan after the one of the root. *)
Lemma constructor_visits H fuel root next s next' :
  Store.constructor H fuel root next = Some (s, next') ->
  ∃ vs,
    _logs s = visit_all [] ((root, mkArray next []) :: vs)
    ∧ allocated (S next) next' vs
    ∧ (∀ k a, (k, a) ∈ vs -> elems a ≠ [] ∧ route H root (elems a) k)
    ∧ (∀ q k, route H root q k -> q ≠ [] -> ∃ a, (k, a) ∈ vs ∧ elems a = q)
    ∧ (∀ k, paths_of k (_logs s) = (filter (λ v, v.1 = k) vs).*2)
    ∧ parented H (root, mkArray next []) vs.
Proof.
  unfold Store.constructor. intros Hc.
  destruct (Store._scan H fuel root None (Store.mkScan [] next)) as [st|] eqn:Hs;
    [|done].
  injection Hc as <- <-.
  assert (Hs' : Store._scan H fuel root (Some (mkArray next []))
                  (Store.mkScan [] (S next)) = Some st).
  { by destruct fuel. }
  apply scan_scanned in Hs' as (vs & Hl & Ha & Hsound & Hcompl & Hord).
  cbn [Store.scan_logs Store.scan_next elems app _logs] in *.
  assert (Hne : ∀ k a, (k, a) ∈ vs -> elems a ≠ [] ∧ route H root (elems a) k).
  { intros k a Hin. apply Hsound in Hin as (q & Hq & Hr & ->). done. }
  exists vs. split_and!; [done..| | |done].
  - intros q k Hr Hq. by apply Hcompl.
  - intros k. rewrite Hl.
    rewrite (visit_all_paths_of k ((root, mkArray next []) :: vs) []).
    + rewrite filter_cons. simpl.
      rewrite decide_False by (intros [_ ?]; done).
      unfold paths_of. simpl. f_equal. apply filter_ext_elem.
      intros [k' a] Hin. simpl. apply Hne in Hin as [? _]. tauto.
    + unfold paths_of. simpl. apply NoDup_cons. destruct Ha as (_ & Hr & Hnd).
      split; [|done]. intros (v & E & Hv)%list_elem_of_fmap.
      apply Hr in Hv. lia.
Qed.

(** ** Concrete heaps are acyclic when their ranks decrease *)

Lemma heap_of_acyclic rank l :
  decreasing rank l = true -> acyclic (heap_of l) rank.
Proof.
  intros Hdec s sub ctx Hin. unfold heap_of in Hin.
  destruct (map_get s l) as [sch|] eqn:Hg; simpl in Hin.
  - apply map_get_Some_elem in Hg.
    unfold decreasing in Hdec. rewrite forallb_forall in Hdec.
    apply list_elem_of_In in Hg. specialize (Hdec _ Hg). simpl in Hdec.
    rewrite forallb_forall in Hdec. apply list_elem_of_In in Hin.
    specialize (Hdec _ Hin). by apply bool_decide_eq_true in Hdec.
  - by apply elem_of_nil in Hin.
Qed.

Lemma constructor_total H rank root fuel next :
  acyclic H rank -> (rank root < fuel)%nat ->
  ∃ s next', Store.constructor H fuel root next = Some (s, next').
Proof.
  intros Hacyc Hlt. unfold Store.constructor.
  destruct (scan_terminates H rank Hacyc fuel root None (Store.mkScan [] next) Hlt)
    as [st ->].
  simpl. by eexists _, _.
Qed.

Lemma constructor_NoDup H fuel root next s next' :
  Store.constructor H fuel root next = Some (s, next') -> NoDup (_logs s).*1.
Proof.
  intros (vs & -> & _)%constructor_visits. apply visit_all_NoDup. constructor.
Qed.

Lemma constructor_keys H fuel root next s next' k :
  Store.constructor H fuel root next = Some (s, next') ->
  k ∈ (_logs s).*1 <-> ∃ q, route H root q k.
Proof.
  intros (vs & -> & _ & Hsound & Hcompl & _)%constructor_visits.
  rewrite visit_all_keys. csimpl. rewrite elem_of_cons. split.
  - intros [[]%elem_of_nil|[->|Hin]].
    + exists []. constructor.
    + apply list_elem_of_fmap in Hin as ([k' a] & -> & Hin).
      apply Hsound in Hin as [_ Hr]. by eexists.
  - intros [q Hr]. right. destruct (decide (q = [])) as [->|Hq].
    + left. by apply route_nil_inv in Hr.
    + right. destruct (Hcompl _ _ Hr Hq) as (a & Hin & _).
      apply list_elem_of_fmap. by exists (k, a).
Qed.

(** C3: one coverage log per schema node, holding every path that reaches
    the node and no other.  On an acyclic schema graph the scan of a root
    returns a store, the same however much fuel it is given beyond the
    rank of the root, in which (1) no node has two logs, and two entries of
    the map are the same entry exactly when they are for the same node,
    (2) the nodes with a log are those some route reaches, (3) every
    non-empty path of a route to a node is in the [paths] of the log of
    that node, whichever route it is, and (4) the [paths] of the log of a
    node are paths of routes to that node. *)
Theorem scan_one_log_per_node (H : Heap) (rank : node -> nat) (root : node)
    (fuel next : nat) :
  acyclic H rank -> (rank root < fuel)%nat ->
  ∃ s next',
    Store.constructor H fuel root next = Some (s, next')
    ∧ (∀ fuel', (fuel ≤ fuel')%nat ->
         Store.constructor H fuel' root next = Some (s, next'))
    ∧ NoDup (_logs s).*1
    ∧ (∀ i j e1 e2, _logs s !! i = Some e1 -> _logs s !! j = Some e2 ->
         (i = j <-> e1.1 = e2.1))
    ∧ (∀ k, k ∈ (_logs s).*1 <-> ∃ q, route H root q k)
    ∧ (∀ q k, route H root q k -> q ≠ [] ->
         ∃ l a, map_get k (_logs s) = Some l ∧ a ∈ log_paths l ∧ elems a = q)
    ∧ (∀ k l a, map_get k (_logs s) = Some l -> a ∈ log_paths l ->
         route H root (elems a) k).
Proof.
  intros Hacyc Hlt.
  destruct (constructor_total H rank root fuel next Hacyc Hlt) as (s & next' & Hc).
  exists s, next'. pose proof (constructor_NoDup _ _ _ _ _ _ Hc) as Hnd.
  split_and!; [done| |done| | | |].
  - intros fuel' Hle. by eapply constructor_more_fuel.
  - intros i j e1 e2 Hi Hj. split; [intros ->; congruence|].
    intros Hk. eapply NoDup_lookup; [exact Hnd| |].
    + rewrite list_lookup_fmap, Hi. done.
    + rewrite list_lookup_fmap, Hj. simpl. by rewrite Hk.
  - intros k. by eapply constructor_keys.
  - intros q k Hr Hq.
    apply constructor_visits in Hc as (vs & _ & _ & _ & Hcompl & Hpaths & _).
    destruct (Hcompl _ _ Hr Hq) as (a & Hin & E).
    assert (Ha : a ∈ paths_of k (_logs s)).
    { rewrite Hpaths. apply list_elem_of_fmap. exists (k, a). split; [done|].
      by apply list_elem_of_filter. }
    apply paths_of_elem in Ha as (l & Hg & Ha). by exists l, a.
  - intros k l a Hg Ha.
    apply constructor_visits in Hc as (vs & _ & _ & Hsound & _ & Hpaths & _).
    apply paths_of_get in Hg. rewrite <- Hg, Hpaths in Ha.
    apply list_elem_of_fmap in Ha as ([k' a'] & -> & Hin).
    apply list_elem_of_filter in Hin as [Hk Hin]. simpl in Hk. subst k'.
    by apply Hsound in Hin as [_ Hr].
Qed.

(** The shared schema of [shared_first] has one log with both its paths. *)
Lemma scan_one_log_per_node_witness :
  ∃ s next',
    Store.constructor shared_first 10 1%positive 0 = Some (s, next')
    ∧ (∀ fuel', (10 ≤ fuel')%nat ->
         Store.constructor shared_first fuel' 1%positive 0 = Some (s, next'))
    ∧ NoDup (_logs s).*1
    ∧ (∀ i j e1 e2, _logs s !! i = Some e1 -> _logs s !! j = Some e2 ->
         (i = j <-> e1.1 = e2.1))
    ∧ (∀ k, k ∈ (_logs s).*1 <-> ∃ q, route shared_first 1%positive q k)
    ∧ (∀ q k, route shared_first 1%positive q k -> q ≠ [] ->
         ∃ l a, map_get k (_logs s) = Some l ∧ a ∈ log_paths l ∧ elems a = q)
    ∧ (∀ k l a, map_get k (_logs s) = Some l -> a ∈ log_paths l ->
         route shared_first 1%positive (elems a) k).
Proof.
  apply (scan_one_log_per_node shared_first rev_rank 1%positive 10 0).
  - apply heap_of_acyclic. reflexivity.
  - vm_compute. lia.
Defined.

(** ** The visits of the scan, one by one *)

Lemma bind_ext_elem {A B} (f g : A -> list B) (l : list A) :
  (∀ x, x ∈ l -> f x = g x) -> l ≫= f = l ≫= g.
Proof.
  induction l as [|x l IH]; intros Hfg; [done|]. csimpl.
  rewrite (Hfg x) by left. rewrite IH; [done|].
  intros y Hy. apply Hfg. by right.
Qed.

Lemma length_arrays ws : ∀ n, length (arrays_from n ws) = length ws.
Proof. induction ws as [|w ws IH]; intros n; simpl; [done|]. by rewrite IH. Qed.

Lemma arrays_from_app n ws1 ws2 :
  arrays_from n (ws1 ++ ws2)
  = arrays_from n ws1 ++ arrays_from (n + length ws1) ws2.
Proof.
  revert n. induction ws1 as [|w ws1 IH]; intros n; simpl.
  - by rewrite Nat.add_0_r.
  - rewrite IH. by replace (S n + length ws1)%nat with (n + S (length ws1))%nat by lia.
Qed.

Lemma arrays_from_lookup ws : ∀ n i,
  arrays_from n ws !! i = (λ w, (w.1, mkArray (n + i) w.2)) <$> ws !! i.
Proof.
  induction ws as [|w ws IH]; intros n [|i]; simpl; [done|done| |].
  - by rewrite Nat.add_0_r.
  - rewrite IH. by replace (S n + i)%nat with (n + S i)%nat by lia.
Qed.

Lemma arrays_from_addr ws : ∀ n,
  map (λ v, addr v.2) (arrays_from n ws) = seq n (length ws).
Proof. induction ws as [|w ws IH]; intros n; simpl; [done|]. by rewrite IH. Qed.

Lemma arrays_from_elems k ws : ∀ n,
  elems <$> (filter (λ v, v.1 = k) (arrays_from n ws)).*2
  = (filter (λ w, w.1 = k) ws).*2.
Proof.
  induction ws as [|w ws IH]; intros n; simpl; [done|].
  rewrite !filter_cons. simpl. case_decide; csimpl; by rewrite IH.
Qed.

Lemma visits_segments H depth : ∀ s q k q',
  (k, q') ∈ visits H depth s q ->
  ∃ r, r ≠ [] ∧ q' = q ++ r ∧ route H s r k.
Proof.
  induction depth as [|depth IH]; intros s q k q'; simpl;
    [by intros []%elem_of_nil|].
  intros ([sub ctx] & Hin & Hcall)%list_elem_of_bind. simpl in Hin.
  apply elem_of_cons in Hin as [[= -> ->]|Hin].
  - exists (segments (internals.id (H sub) ctx) ++ []). split_and!.
    + rewrite app_nil_r. apply segments_not_nil.
    + by rewrite app_nil_r.
    + eapply route_sub; [done|constructor].
  - apply IH in Hin as (r & Hr & -> & Hroute).
    exists (segments (internals.id (H sub) ctx) ++ r). split_and!.
    + intros [E _]%app_eq_nil. by apply segments_not_nil in E.
    + by rewrite <- app_assoc.
    + by eapply route_sub.
Qed.

Lemma route_visits H rank s r k :
  acyclic H rank -> route H s r k -> r ≠ [] ->
  ∀ depth q, (rank s < depth)%nat -> (k, q ++ r) ∈ visits H depth s q.
Proof.
  intros Hacyc. induction 1 as [s|s sub ctx r k Hin Hr IH]; [done|].
  intros _ depth q Hlt. destruct depth as [|depth]; [lia|]. simpl.
  apply list_elem_of_bind. exists (sub, ctx). split; [|done]. simpl.
  destruct (decide (r = [])) as [->|Hne].
  - apply route_nil_inv in Hr as ->. rewrite app_nil_r. left.
  - right. rewrite app_assoc. apply IH; [done|].
    apply Hacyc in Hin. lia.
Qed.

Lemma visits_more_depth H rank :
  acyclic H rank ->
  ∀ depth depth' s q, (rank s < depth)%nat -> (depth ≤ depth')%nat ->
    visits H depth' s q = visits H depth s q.
Proof.
  intros Hacyc. induction depth as [|depth IH]; intros depth' s q Hlt Hle; [lia|].
  destruct depth' as [|depth']; [lia|]. simpl.
  apply bind_ext_elem. intros [sub ctx] Hin. simpl. f_equal.
  apply IH; [|lia]. apply Hacyc in Hin. lia.
Qed.

Section exact.

Context (H : Heap).

Lemma each_exact fuel path
    (IH : ∀ s p st st', Store._scan H fuel s (Some p) st = Some st' ->
       Store.scan_logs st'
       = visit_all (Store.visit s p (Store.scan_logs st))
           (arrays_from (Store.scan_next st) (visits H fuel s (elems p)))
       ∧ Store.scan_next st'
         = (Store.scan_next st + length (visits H fuel s (elems p)))%nat) :
  ∀ calls st st',
    Store.modify_each (each_of H fuel path) calls st = Some st' ->
    let ws := calls ≫= (λ call,
                let q' := elems path ++ segments (internals.id (H call.1) call.2) in
                (call.1, q') :: visits H fuel call.1 q') in
    Store.scan_logs st' = visit_all (Store.scan_logs st)
                            (arrays_from (Store.scan_next st) ws)
    ∧ Store.scan_next st' = (Store.scan_next st + length ws)%nat.
Proof.
  induction calls as [|[sub ctx] calls IHc]; intros st st' Hrun; simpl in Hrun.
  - injection Hrun as <-. simpl. split; [done|lia].
  - destruct (each_of H fuel path st (sub, ctx)) as [st1|] eqn:Hsub; [|done].
    simpl in Hrun. unfold each_of in Hsub. simpl in Hsub.
    rewrite concat_elems_app in Hsub.
    apply IH in Hsub as [Hl1 Hn1]. simpl in Hl1, Hn1.
    apply IHc in Hrun as [Hl2 Hn2]. cbn zeta in *. csimpl.
    change ((sub, elems path ++ segments (internals.id (H sub) ctx))
            :: visits H fuel sub (elems path ++ segments (internals.id (H sub) ctx))
            ++ _)
      with (((sub, elems path ++ segments (internals.id (H sub) ctx))
             :: visits H fuel sub (elems path ++ segments (internals.id (H sub) ctx)))
            ++ (calls ≫= (λ call,
                  (call.1, elems path ++ segments (internals.id (H call.1) call.2))
                  :: visits H fuel call.1
                       (elems path ++ segments (internals.id (H call.1) call.2))))).
    rewrite arrays_from_app, visit_all_app. simpl.
    rewrite Hl2, Hl1, Hn1, Hn2. split.
    + done.
    + rewrite Hn1, length_app. lia.
Qed.

Lemma scan_exact fuel : ∀ s p st st',
  Store._scan H fuel s (Some p) st = Some st' ->
  Store.scan_logs st'
  = visit_all (Store.visit s p (Store.scan_logs st))
      (arrays_from (Store.scan_next st) (visits H fuel s (elems p)))
  ∧ Store.scan_next st'
    = (Store.scan_next st + length (visits H fuel s (elems p)))%nat.
Proof.
  induction fuel as [|fuel IH]; intros s p st st' Hscan; [done|].
  rewrite scan_unfold in Hscan.
  by apply (each_exact fuel p IH) in Hscan.
Qed.

End exact.

(** The store of the constructor, visit by visit. *)
Lemma constructor_exact H fuel root next s next' :
  Store.constructor H fuel root next = Some (s, next') ->
  _logs s = visit_all [(root, Store.new_log)]
              (arrays_from (S next) (visits H fuel root []))
  ∧ next' = (S next + length (visits H fuel root []))%nat
  ∧ ∀ k, paths_of k (_logs s)
         = (filter (λ v, v.1 = k) (arrays_from (S next) (visits H fuel root []))).*2.
Proof.
  unfold Store.constructor. intros Hc.
  destruct (Store._scan H fuel root None (Store.mkScan [] next)) as [st|] eqn:Hs;
    [|done].
  injection Hc as <- <-.
  assert (Hs' : Store._scan H fuel root (Some (mkArray next []))
                  (Store.mkScan [] (S next)) = Some st).
  { by destruct fuel. }
  apply scan_exact in Hs' as [Hl Hn]. simpl in Hl, Hn.
  split_and!; [done|done|].
  intros k. cbn [_logs].
  change (Store.visit root (mkArray next []) []) with [(root, Store.new_log)] in Hl.
  assert (Hold : paths_of k [(root, Store.new_log)] = []).
  { unfold paths_of. simpl. by case_decide. }
  rewrite Hl, visit_all_paths_of, Hold.
  - simpl. f_equal. apply filter_ext_elem. intros [k' a] Hin. simpl.
    split; [tauto|]. intros ->. split; [done|].
    apply list_elem_of_lookup in Hin as [i Hi].
    rewrite arrays_from_lookup in Hi.
    destruct (visits H fuel root [] !! i) as [[k'' q]|] eqn:Hv; [|done].
    injection Hi as -> <-. simpl.
    apply list_elem_of_lookup_2, visits_segments in Hv as (r & Hr & -> & _).
    done.
  - rewrite arrays_from_addr, Hold. apply NoDup_seq.
Qed.

(** C6, as the code has it: after the scan of a root on an acyclic schema
    graph, the log of the root has no path, no log holds the empty path,
    and a log holds each path array once (arrays being told apart by their
    identity, not by their segments).  Every visit of a schema below the
    root adds the array built for that visit, a new one: the visits are
    those of the routes from the root, the paths of a log are the arrays
    of the visits of its schema, in the order of the visits, and two visits
    of a schema that arrive with the same segments leave two arrays with
    those segments in its log. *)
Theorem scan_paths_recorded (H : Heap) (rank : node -> nat) (root : node)
    (fuel next : nat) :
  acyclic H rank -> (rank root < fuel)%nat ->
  ∃ s next',
    Store.constructor H fuel root next = Some (s, next')
    ∧ (∃ l, map_get root (_logs s) = Some l ∧ log_paths l = [])
    ∧ (∀ k l, map_get k (_logs s) = Some l ->
         NoDup (addr <$> log_paths l) ∧ Forall (λ a, elems a ≠ []) (log_paths l))
    ∧ next' = (S next + length (visits H fuel root []))%nat
    ∧ (∀ k q, (k, q) ∈ visits H fuel root [] <-> q ≠ [] ∧ route H root q k)
    ∧ (∀ depth, (fuel ≤ depth)%nat ->
         visits H depth root [] = visits H fuel root [])
    ∧ (∀ k l, map_get k (_logs s) = Some l ->
         log_paths l
         = (filter (λ v, v.1 = k)
              (arrays_from (S next) (visits H fuel root []))).*2
         ∧ elems <$> log_paths l
           = (filter (λ w, w.1 = k) (visits H fuel root [])).*2)
    ∧ (∀ i k q, visits H fuel root [] !! i = Some (k, q) ->
         ∃ l, map_get k (_logs s) = Some l
              ∧ mkArray (S next + i) q ∈ log_paths l)
    ∧ (∀ i j k q, i ≠ j ->
         visits H fuel root [] !! i = Some (k, q) ->
         visits H fuel root [] !! j = Some (k, q) ->
         ∃ l a b, map_get k (_logs s) = Some l
                  ∧ a ∈ log_paths l ∧ b ∈ log_paths l ∧ a ≠ b
                  ∧ elems a = q ∧ elems b = q).
Proof.
  intros Hacyc Hlt.
  destruct (constructor_total H rank root fuel next Hacyc Hlt) as (s & next' & Hc).
  exists s, next'. split; [done|].
  pose proof (constructor_keys _ _ _ _ _ _ root Hc) as Hkeys.
  destruct (constructor_exact _ _ _ _ _ _ Hc) as (_ & Hnext & Hexact).
  assert (Hvisit : ∀ i k q, visits H fuel root [] !! i = Some (k, q) ->
            ∃ l, map_get k (_logs s) = Some l
                 ∧ mkArray (S next + i) q ∈ log_paths l).
  { intros i k q Hi.
    assert (Hin : k ∈ (_logs s).*1).
    { apply (constructor_keys _ _ _ _ _ _ k Hc).
      apply list_elem_of_lookup_2, visits_segments in Hi as (r & _ & _ & Hr).
      by exists r. }
    destruct (map_get k (_logs s)) as [l|] eqn:Hg; [|by apply map_get_None in Hg].
    exists l. split; [done|]. rewrite <- (paths_of_get _ _ _ Hg), Hexact.
    apply list_elem_of_fmap. exists (k, mkArray (S next + i) q). split; [done|].
    apply list_elem_of_filter. split; [done|].
    apply (list_elem_of_lookup_2 _ i). by rewrite arrays_from_lookup, Hi. }
  apply constructor_visits in Hc as (vs & _ & Ha & Hsound & _ & Hpaths & _).
  split_and!; [| |done| | | |done|].
  - destruct (map_get root (_logs s)) as [l|] eqn:Hg.
    + exists l. split; [done|]. apply paths_of_get in Hg. rewrite <- Hg, Hpaths.
      destruct (filter _ vs) as [|[k a] rest] eqn:Hf; [done|]. exfalso.
      assert (Hin : (k, a) ∈ filter (λ v, v.1 = root) vs) by (rewrite Hf; left).
      apply list_elem_of_filter in Hin as [Hk Hin]. simpl in Hk. subst k.
      apply Hsound in Hin as [Hne Hr].
      destruct (route_rank H rank _ _ _ Hacyc Hr) as [_ Hlt']. specialize (Hlt' Hne). lia.
    + exfalso. apply map_get_None in Hg. apply Hg, Hkeys. exists []. constructor.
  - intros k l Hg. apply paths_of_get in Hg. rewrite <- Hg, Hpaths. split.
    + destruct Ha as (_ & _ & Hnd). rewrite <- list_fmap_compose.
      revert Hnd. generalize vs. clear. intros vs.
      induction vs as [|v vs IH]; simpl; [constructor|].
      intros [Hv Hnd]%NoDup_cons. rewrite filter_cons.
      case_decide; csimpl; [|auto]. apply NoDup_cons. split; [|auto].
      intros (w & E & Hw)%list_elem_of_fmap. apply Hv.
      apply list_elem_of_filter in Hw as [_ Hw].
      apply list_elem_of_fmap. by exists w.
    + apply Forall_forall. intros a ([k' a'] & -> & Hin)%list_elem_of_fmap.
      apply list_elem_of_filter in Hin as [_ Hin]. by apply Hsound in Hin as [? _].
  - intros k q. split.
    + intros (r & Hr & -> & Hroute)%visits_segments. done.
    + intros [Hq Hr]. by apply (route_visits H rank root q k Hacyc Hr Hq fuel []).
  - intros depth Hle. by apply (visits_more_depth H rank Hacyc).
  - intros k l Hg. rewrite <- (paths_of_get _ _ _ Hg), Hexact. split; [done|].
    apply arrays_from_elems.
  - intros i j k q Hij Hi Hj.
    destruct (Hvisit _ _ _ Hi) as (l & Hg & Hina).
    destruct (Hvisit _ _ _ Hj) as (l' & Hg' & Hinb).
    rewrite Hg in Hg'. injection Hg' as <-.
    exists l, (mkArray (S next + i) q), (mkArray (S next + j) q).
    split_and!; try done. intros [= E]. lia.
Qed.

Lemma scan_paths_recorded_witness :
  let H := same_twice in
  let root := 1%positive in
  ∃ s next',
    Store.constructor H 10 root 0 = Some (s, next')
    ∧ (∃ l, map_get root (_logs s) = Some l ∧ log_paths l = [])
    ∧ (∀ k l, map_get k (_logs s) = Some l ->
         NoDup (addr <$> log_paths l) ∧ Forall (λ a, elems a ≠ []) (log_paths l))
    ∧ next' = (1 + length (visits H 10 root []))%nat
    ∧ (∀ k q, (k, q) ∈ visits H 10 root [] <-> q ≠ [] ∧ route H root q k)
    ∧ (∀ depth, (10 ≤ depth)%nat ->
         visits H depth root [] = visits H 10 root [])
    ∧ (∀ k l, map_get k (_logs s) = Some l ->
         log_paths l
         = (filter (λ v, v.1 = k)
              (arrays_from 1 (visits H 10 root []))).*2
         ∧ elems <$> log_paths l
           = (filter (λ w, w.1 = k) (visits H 10 root [])).*2)
    ∧ (∀ i k q, visits H 10 root [] !! i = Some (k, q) ->
         ∃ l, map_get k (_logs s) = Some l
              ∧ mkArray (1 + i) q ∈ log_paths l)
    ∧ (∀ i j k q, i ≠ j ->
         visits H 10 root [] !! i = Some (k, q) ->
         visits H 10 root [] !! j = Some (k, q) ->
         ∃ l a b, map_get k (_logs s) = Some l
                  ∧ a ∈ log_paths l ∧ b ∈ log_paths l ∧ a ≠ b
                  ∧ elems a = q ∧ elems b = q).
Proof.
  intros H root.
  apply (scan_paths_recorded H rev_rank root 10 0).
  - apply heap_of_acyclic. reflexivity.
  - vm_compute. lia.
Defined.

(** The two visits of the schema ["x"] of [same_twice], and the paths
    they leave in its log. *)
Example same_twice_visits :
  visits same_twice 10 1%positive []
  = [(2%positive, [VString "x"]); (2%positive, [VString "x"])]
  ∧ ((λ r, paths_of 2%positive (_logs r.1))
       <$> Store.constructor same_twice 10 1%positive 0)
    = Some [mkArray 1 [VString "x"]; mkArray 2 [VString "x"]].
Proof. vm_compute. split; reflexivity. Qed.

(** C6 as stated fails: the set of paths of a log can hold two copies of
    one path.  In [same_twice] the schema with id ["x"] is enumerated twice
    by the root, and its log holds the path [["x"]] twice. *)
Lemma scan_paths_not_deduplicated :
  ¬ (∀ (H : Heap) (fuel : nat) (root : node) (next : nat) s next' k l,
       Store.constructor H fuel root next = Some (s, next') ->
       map_get k (_logs s) = Some l ->
       NoDup (elems <$> log_paths l)).
Proof.
  intros Hall.
  specialize (Hall same_twice 5%nat 1%positive 0%nat).
  destruct (Store.constructor same_twice 5 1%positive 0) as [[s n]|] eqn:Hc;
    [|by vm_compute in Hc].
  vm_compute in Hc. injection Hc as <- <-.
  specialize (Hall _ _ 2%positive _ eq_refl eq_refl).
  apply NoDup_cons in Hall as [Hall _]. apply Hall. left.
Qed.

(** ** The identifier resolver *)

(** C5, as the code has it: [internals.id] returns the [id] flag when it
    is a non-empty string; otherwise the [_key] flag when that is a
    non-empty string; otherwise ["@" + name], paired with [path[1]] (or
    [undefined] when [path] is shorter) when [source] is ["terms"].  It is a
    total function: every schema and context get an identifier. *)
Theorem id_priority (schema : Schema) (ctx : Context) :
  (∀ s, flag_id (_flags schema) = Some s ∧ s ≠ "" ->
        internals.id schema ctx = internals.Name s)
  ∧ (∀ s, (flag_id (_flags schema) = None ∨ flag_id (_flags schema) = Some "")
          ∧ flag_key (_flags schema) = Some s ∧ s ≠ "" ->
        internals.id schema ctx = internals.Name s)
  ∧ ((flag_id (_flags schema) = None ∨ flag_id (_flags schema) = Some "")
     ∧ (flag_key (_flags schema) = None ∨ flag_key (_flags schema) = Some "") ->
     internals.id schema ctx =
       if decide (source ctx = "terms")
       then internals.Term (String.append "@" (name ctx))
              (default VUndefined (path ctx !! 1%nat))
       else internals.Name (String.append "@" (name ctx))).
Proof.
  assert (Htrue : ∀ s, s ≠ "" -> truthy (Some s) = true).
  { intros s Hs. simpl. apply negb_true_iff. by apply String.eqb_neq. }
  assert (Hfalse : ∀ o, o = None ∨ o = Some "" -> truthy o = false).
  { by intros o [->| ->]. }
  unfold internals.id. split_and!.
  - intros s [E Hs]. rewrite E. by rewrite (Htrue s Hs).
  - intros s (Hid & E & Hs). rewrite (Hfalse _ Hid), E. by rewrite (Htrue s Hs).
  - intros [Hid Hkey]. rewrite (Hfalse _ Hid), (Hfalse _ Hkey).
    destruct (String.eqb_spec (source ctx) "terms") as [E|E].
    + by rewrite decide_True.
    + by rewrite decide_False.
Qed.

(** C5 as stated fails on a flag that is declared but empty: a schema
    without [id] whose [_key] flag is the empty string (the property [""]
    of an object) gets the synthesized name, not its flag. *)
Lemma id_flag_not_verbatim :
  ¬ (∀ (schema : Schema) (ctx : Context),
       (∀ s, flag_id (_flags schema) = Some s ->
             internals.id schema ctx = internals.Name s)
       ∧ (flag_id (_flags schema) = None ->
          ∀ s, flag_key (_flags schema) = Some s ->
               internals.id schema ctx = internals.Name s)).
Proof.
  intros Hall.
  destruct (Hall (with_key "" []) (term "keys" 0)) as [_ Hkey].
  specialize (Hkey eq_refl "" eq_refl).
  vm_compute in Hkey. discriminate Hkey.
Qed.

(** ** The loop of [report] over a store *)

Lemma report_log_split H m sk e :
  Tracer.report_log H (m, sk) e = (m ++ contribution H sk e, skipped_after sk e).
Proof.
  destruct e as [k l]. unfold Tracer.report_log, contribution, skipped_after. simpl.
  destruct (internals.sub (log_paths l) sk); [by rewrite app_nil_r|].
  by destruct (log_entry l).
Qed.

Lemma foldl_report_log H logs : ∀ m sk,
  foldl (Tracer.report_log H) (m, sk) logs =
    (m ++ (foldl (Tracer.report_log H) ([], sk) logs).1,
     (foldl (Tracer.report_log H) ([], sk) logs).2).
Proof.
  induction logs as [|e logs IH]; intros m sk; cbn [foldl].
  - cbn. by rewrite app_nil_r.
  - rewrite !report_log_split. cbn [app].
    rewrite (IH (m ++ _)), (IH (contribution H sk e)). cbn [fst snd].
    by rewrite app_assoc.
Qed.

(** The gaps of a store, cut at one of its logs: the gaps of the logs
    before, what the log adds, the gaps of the logs after. *)
Lemma missing_of_split H s before e after :
  _logs s = before ++ e :: after ->
  Tracer.missing_of H s =
    (loop H before).1 ++ contribution H (loop H before).2 e
      ++ (foldl (Tracer.report_log H) ([], skipped_after (loop H before).2 e) after).1.
Proof.
  intros E. unfold Tracer.missing_of. rewrite E, foldl_app. fold (loop H before).
  cbn [foldl]. destruct (loop H before) as [m sk]. rewrite report_log_split.
  rewrite foldl_report_log. cbn [fst snd]. by rewrite app_assoc.
Qed.

(** A log that adds nothing might as well not be there. *)
Lemma missing_of_suppressed H s before e after :
  _logs s = before ++ e :: after ->
  internals.sub (log_paths e.2) (loop H before).2 = true ->
  Tracer.missing_of H s = Tracer.missing_of H (mkStore (before ++ after)).
Proof.
  intros E Hsub. unfold Tracer.missing_of. rewrite E. cbn [_logs].
  rewrite !foldl_app. fold (loop H before). cbn [foldl].
  destruct (loop H before) as [m sk]. rewrite report_log_split.
  unfold contribution, skipped_after. cbn [snd] in Hsub. rewrite Hsub.
  by rewrite app_nil_r.
Qed.

(** Every gap comes from one log. *)
Lemma missing_of_origin H s item :
  item ∈ Tracer.missing_of H s ->
  ∃ before e after,
    _logs s = before ++ e :: after ∧ item ∈ contribution H (loop H before).2 e.
Proof.
  unfold Tracer.missing_of. destruct s as [logs]. cbn [_logs].
  induction logs as [|e logs IH] using rev_ind; [by intros []%elem_of_nil|].
  rewrite foldl_app. cbn [foldl]. fold (loop H logs).
  destruct (loop H logs) as [m sk] eqn:Hl. rewrite report_log_split. cbn [fst].
  intros [Hin|Hin]%elem_of_app.
  - unfold loop in Hl. rewrite Hl in IH.
    destruct (IH Hin) as (before & e' & after & -> & Hin').
    exists before, e', (after ++ [e]). split; [by rewrite <- app_assoc|done].
  - exists logs, e, []. split; [done|]. by rewrite Hl.
Qed.

(** ** Labels of rule outcomes *)

Lemma rule_status_mask l name :
  Tracer.rule_status l name =
    if decide (inherited l name) then None else internals.labels (mask l name).
Proof.
  unfold Tracer.rule_status, get_property, inherited, mask.
  destruct (decide (_ ∧ _)) as [[E Hin]|Hn].
  - rewrite E. by rewrite decide_True.
  - destruct (log_rule l !! name) as [z|]; [done|].
    rewrite decide_False; [done|]. intros Hin. by apply Hn.
Qed.

Lemma check_rule_mask l name :
  Tracer.check_rule l name =
    if decide (inherited l name) then []
    else match internals.labels (mask l name) with
         | Some label => [rule_gap l name label]
         | None => []
         end.
Proof.
  unfold Tracer.check_rule, rule_gap. rewrite rule_status_mask.
  destruct (decide (inherited l name)); [done|].
  destruct (internals.labels (mask l name)); [|done].
  destruct (log_paths l); by repeat case_decide.
Qed.

Lemma check_rule_nil l name :
  Tracer.check_rule l name = [] <->
    inherited l name ∨ internals.labels (mask l name) = None.
Proof.
  rewrite check_rule_mask. destruct (decide (inherited l name)) as [Hi|Hi].
  - split; [by left|done].
  - destruct (internals.labels (mask l name)); naive_solver.
Qed.

Lemma check_rule_labels l name :
  ¬ inherited l name ->
  (mask l name = 0 -> Tracer.check_rule l name = [rule_gap l name "never used"])
  ∧ (mask l name = 1 -> Tracer.check_rule l name = [rule_gap l name "always error"])
  ∧ (mask l name = 2 -> Tracer.check_rule l name = [rule_gap l name "always pass"])
  ∧ (mask l name = 3 -> Tracer.check_rule l name = []).
Proof.
  intros Hn. rewrite check_rule_mask, decide_False by done.
  split_and!; by intros ->.
Qed.


Lemma outcome_mask_snoc rs r :
  outcome_mask (rs ++ [r]) = Z.lor (outcome_mask rs) (internals.codes r).
Proof. unfold outcome_mask. by rewrite foldl_app. Qed.

(** The mask is 0 when nothing was logged, 1 when only failures were, 2
    when only passes were, and 3 as soon as both (or a full outcome) were. *)
Lemma outcome_mask_cases rs :
  outcome_mask rs =
    if decide (internals.full ∈ rs ∨ (internals.error ∈ rs ∧ internals.value_ ∈ rs))
    then 3
    else if decide (internals.error ∈ rs) then 1
    else if decide (internals.value_ ∈ rs) then 2
    else 0.
Proof.
  induction rs as [|r rs IH] using rev_ind.
  - repeat case_decide; try done; exfalso;
      repeat match goal with
             | H : _ ∨ _ |- _ => destruct H
             | H : _ ∧ _ |- _ => destruct H
             | H : _ ∈ [] |- _ => by apply elem_of_nil in H
             end.
  - rewrite outcome_mask_snoc, IH. clear IH.
    repeat case_decide; destruct r; simpl; try reflexivity; exfalso;
      repeat match goal with
             | H : context [_ ∈ _ ++ [_]] |- _ =>
                 setoid_rewrite elem_of_app in H;
                 setoid_rewrite list_elem_of_singleton in H
             end;
      intuition congruence.
Qed.

(** ** Instrumentation calls *)

Lemma port_call_unfold p s :
  port_call p s =
    match map_get (port_schema p) (_logs s) with
    | None => None
    | Some _ => Some (mkStore (map_update (port_schema p) (port_update p) (_logs s)))
    end.
Proof. by destruct p. Qed.

Lemma port_call_get p s s' k :
  port_call p s = Some s' ->
  map_get k (_logs s') =
    if decide (port_schema p = k) then port_update p <$> map_get k (_logs s)
    else map_get k (_logs s).
Proof.
  rewrite port_call_unfold. destruct (map_get (port_schema p) (_logs s)); [|done].
  intros [= <-]. apply map_get_update.
Qed.

Lemma port_call_keys p s s' :
  port_call p s = Some s' -> (_logs s').*1 = (_logs s).*1.
Proof.
  rewrite port_call_unfold. destruct (map_get (port_schema p) (_logs s)); [|done].
  intros [= <-]. apply map_update_keys.
Qed.

Lemma port_call_is_Some p s :
  port_schema p ∈ (_logs s).*1 -> is_Some (port_call p s).
Proof.
  intros Hin. rewrite port_call_unfold.
  destruct (map_get (port_schema p) (_logs s)) eqn:Hg; [by eexists|].
  by apply map_get_None in Hg.
Qed.

Lemma port_calls_keys ps : ∀ s s',
  port_calls ps s = Some s' -> (_logs s').*1 = (_logs s).*1.
Proof.
  induction ps as [|p ps IH]; intros s s'; simpl; [by intros [= <-]|].
  destruct (port_call p s) as [s1|] eqn:Hp; [|done]. simpl. intros Hps.
  rewrite (IH _ _ Hps). by eapply port_call_keys.
Qed.

Lemma set_add_elem v w s : w ∈ set_add v s <-> w ∈ s ∨ w = v.
Proof.
  unfold set_add. case_decide.
  - split; [by left | intros [?| ->]; done].
  - by rewrite elem_of_app, list_elem_of_singleton.
Qed.

Lemma port_update_observed p source l w :
  w ∈ observed source (port_update p l) <->
    w ∈ observed source l ∨ ∃ k, p = PValue source w k.
Proof.
  destruct p as [k|src name r k|src v k].
  - destruct source; simpl;
      (split; [intros ?; by left | intros [?|[? ?]]; [done | discriminate]]).
  - destruct source; simpl;
      (split; [intros ?; by left | intros [?|[? ?]]; [done | discriminate]]).
  - destruct source, src; simpl; rewrite ?set_add_elem.
    + split; [intros [?| ->]; [by left | right; by exists k]
             | intros [?|[? [= -> ?]]]; [by left | by right]].
    + split; [intros ?; by left | intros [?|[? ?]]; [done | discriminate]].
    + split; [intros ?; by left | intros [?|[? ?]]; [done | discriminate]].
    + split; [intros [?| ->]; [by left | right; by exists k]
             | intros [?|[? [= -> ?]]]; [by left | by right]].
Qed.

(** The observed set of a log holds what was there and what was recorded
    for its schema since, whatever the order and the repetitions. *)
Lemma port_calls_observed ps : ∀ s s' k l l' source w,
  port_calls ps s = Some s' ->
  map_get k (_logs s) = Some l -> map_get k (_logs s') = Some l' ->
  w ∈ observed source l' <-> w ∈ observed source l ∨ PValue source w k ∈ ps.
Proof.
  induction ps as [|p ps IH]; intros s s' k l l' source w; simpl.
  - intros [= <-] E1 E2. rewrite E1 in E2. injection E2 as <-.
    split; [by left | intros [?|[]%elem_of_nil]; done].
  - destruct (port_call p s) as [s1|] eqn:Hp; [|done]. simpl. intros Hps Hg Hg'.
    apply (port_call_get _ _ _ k) in Hp. rewrite Hg in Hp.
    rewrite elem_of_cons. destruct (decide (port_schema p = k)) as [Hk|Hk]; simpl in Hp.
    + rewrite (IH _ _ _ _ _ source w Hps Hp Hg'), port_update_observed.
      split; [intros [[?|[k' ->]]|?] | intros [?|[E|?]]]; eauto.
      simpl in Hk. subst. eauto.
    + rewrite (IH _ _ _ _ _ source w Hps Hp Hg').
      split; [intros [?|?]; eauto | intros [?|[E|?]]; eauto].
      subst p. by simpl in Hk.
Qed.

(** ** Missing literals *)

Lemma foldl_set_delete obs : ∀ declared,
  foldl (λ values value, set_delete value values) declared obs =
    unobserved declared obs.
Proof.
  unfold unobserved, set_delete.
  induction obs as [|v obs IH]; intros declared; simpl.
  - induction declared as [|d declared IHd]; [done|].
    rewrite filter_cons, decide_True by apply not_elem_of_nil. by f_equal.
  - rewrite IH, list_filter_filter. apply filter_ext_elem.
    intros x _. rewrite not_elem_of_cons. tauto.
Qed.

Lemma check_values_gap set obs rule :
  Tracer.check_values set obs rule = values_gap set obs rule.
Proof.
  unfold Tracer.check_values, values_gap. destruct set as [set|]; [|done].
  rewrite foldl_set_delete. destruct (unobserved (_set set) obs); by case_decide.
Qed.

Lemma unobserved_elem declared obs v :
  v ∈ unobserved declared obs <-> v ∈ declared ∧ v ∉ obs.
Proof. unfold unobserved. rewrite list_elem_of_filter. tauto. Qed.

Lemma unobserved_same declared obs1 obs2 :
  (∀ v, v ∈ obs1 <-> v ∈ obs2) -> unobserved declared obs1 = unobserved declared obs2.
Proof.
  intros E. apply filter_ext_elem. intros v _. by rewrite E.
Qed.

Lemma values_gap_same set obs1 obs2 rule :
  (∀ v, v ∈ obs1 <-> v ∈ obs2) -> values_gap set obs1 rule = values_gap set obs2 rule.
Proof.
  intros E. unfold values_gap. destruct set; [|done].
  by rewrite (unobserved_same _ _ _ E).
Qed.

(** What a reached log that is not passed over adds to the gaps. *)
Lemma contribution_reached H sk k l :
  log_entry l = true -> internals.sub (log_paths l) sk = false ->
  contribution H sk (k, l) =
    values_gap (_valids (H k)) (log_valid l) "valids"
    ++ values_gap (_invalids (H k)) (log_invalid l) "invalids"
    ++ (Tracer.rules (H k) ≫= Tracer.check_rule l).
Proof.
  intros He Hs. unfold contribution. simpl. rewrite Hs, He. simpl.
  by rewrite !check_values_gap.
Qed.

(** ** Outcome masks *)

Lemma or_property_lookup o n code name :
  or_property o n code !! name =
    if decide (n = name ∧ name ≠ "__proto__")
    then Some (Z.lor (default 0 (o !! name)) code)
    else o !! name.
Proof.
  unfold or_property, get_property. destruct (decide (n = "__proto__")) as [->|Hn].
  - rewrite decide_False; [done|]. intros [<- ?]. done.
  - destruct (decide (n = name)) as [->|Hne].
    + rewrite (decide_True (P := name = name ∧ name ≠ "__proto__")) by done.
      rewrite lookup_insert_eq.
      destruct (o !! name); [done|]. by case_decide.
    + rewrite (decide_False (P := n = name ∧ name ≠ "__proto__"))
        by (by intros [? _]).
      by rewrite lookup_insert_ne.
Qed.

Lemma port_update_rule p l name :
  log_rule (port_update p l) !! name =
    match p with
    | PLog _ n r _ =>
        if decide (n = name ∧ name ≠ "__proto__")
        then Some (Z.lor (mask l name) (internals.codes r))
        else log_rule l !! name
    | _ => log_rule l !! name
    end.
Proof.
  destruct p as [k|src n r k|src v k]; [done| |by destruct src].
  simpl. apply or_property_lookup.
Qed.

Lemma port_update_mask p l name :
  name ≠ "__proto__" ->
  mask (port_update p l) name =
    match p with
    | PLog _ n r _ =>
        if decide (n = name) then Z.lor (mask l name) (internals.codes r)
        else mask l name
    | _ => mask l name
    end.
Proof.
  intros Hname. unfold mask at 1. rewrite port_update_rule.
  destruct p as [k|src n r k|src v k]; [done| |done].
  destruct (decide (n = name)) as [->|Hn].
  - by rewrite decide_True.
  - rewrite decide_False; [done|]. by intros [? _].
Qed.

Lemma port_update_proto p l :
  log_rule (port_update p l) !! "__proto__" = log_rule l !! "__proto__".
Proof.
  rewrite port_update_rule. destruct p as [k|src n r k|src v k]; [done| |done].
  rewrite decide_False; [done|]. by intros [_ ?].
Qed.

Lemma foldl_lor rs : ∀ z,
  foldl (λ m r, Z.lor m (internals.codes r)) z rs = Z.lor z (outcome_mask rs).
Proof.
  unfold outcome_mask.
  induction rs as [|r rs IH]; intros z; simpl; [by rewrite Z.lor_0_r|].
  rewrite (IH (Z.lor z _)), (IH (Z.lor 0 _)).
  by rewrite Z.lor_0_l, Z.lor_assoc.
Qed.

Lemma outcome_mask_cons r rs :
  outcome_mask (r :: rs) = Z.lor (internals.codes r) (outcome_mask rs).
Proof.
  unfold outcome_mask at 1. simpl. by rewrite foldl_lor, Z.lor_0_l.
Qed.

(** The mask of a rule after some calls: the mask before, with the bits
    of the outcomes logged for that rule of that schema. *)
Lemma port_calls_mask ps : ∀ s s' k l l' name,
  name ≠ "__proto__" ->
  port_calls ps s = Some s' ->
  map_get k (_logs s) = Some l -> map_get k (_logs s') = Some l' ->
  mask l' name = Z.lor (mask l name) (outcome_mask (logged ps name k)).
Proof.
  induction ps as [|p ps IH]; intros s s' k l l' name Hname; simpl.
  - intros [= <-] E1 E2. rewrite E1 in E2. injection E2 as <-.
    by rewrite Z.lor_0_r.
  - destruct (port_call p s) as [s1|] eqn:Hp; [|done]. simpl. intros Hps Hg Hg'.
    apply (port_call_get _ _ _ k) in Hp. rewrite Hg in Hp.
    destruct (decide (port_schema p = k)) as [Hk|Hk]; simpl in Hp.
    + rewrite (IH _ _ _ _ _ name Hname Hps Hp Hg'), port_update_mask by done.
      destruct p as [k'|src n r k'|src v k']; simpl in *; try done.
      destruct (decide (n = name)) as [->|Hn].
      * rewrite decide_True by done. simpl.
        by rewrite outcome_mask_cons, Z.lor_assoc.
      * rewrite decide_False by (intros [? _]; done). done.
    + rewrite (IH _ _ _ _ _ name Hname Hps Hp Hg').
      destruct p as [k'|src n r k'|src v k']; simpl in *; try done.
      rewrite decide_False by (intros [_ ?]; done). done.
Qed.

(** Under ["__proto__"] the rule table never holds anything new, and
    under any other name it holds a number once an outcome was logged. *)
Lemma port_calls_proto ps : ∀ s s' k l l',
  port_calls ps s = Some s' ->
  map_get k (_logs s) = Some l -> map_get k (_logs s') = Some l' ->
  log_rule l' !! "__proto__" = log_rule l !! "__proto__".
Proof.
  induction ps as [|p ps IH]; intros s s' k l l'; simpl.
  - intros [= <-] E1 E2. rewrite E1 in E2. by injection E2 as <-.
  - destruct (port_call p s) as [s1|] eqn:Hp; [|done]. simpl. intros Hps Hg Hg'.
    apply (port_call_get _ _ _ k) in Hp. rewrite Hg in Hp.
    destruct (decide (port_schema p = k)) as [Hk|Hk]; simpl in Hp.
    + by rewrite (IH _ _ _ _ _ Hps Hp Hg'), port_update_proto.
    + by rewrite (IH _ _ _ _ _ Hps Hp Hg').
Qed.

Lemma port_calls_own ps : ∀ s s' k l l' name,
  name ≠ "__proto__" ->
  port_calls ps s = Some s' ->
  map_get k (_logs s) = Some l -> map_get k (_logs s') = Some l' ->
  log_rule l' !! name = None <->
    log_rule l !! name = None ∧ logged ps name k = [].
Proof.
  induction ps as [|p ps IH]; intros s s' k l l' name Hname; simpl.
  - intros [= <-] E1 E2. rewrite E1 in E2. injection E2 as <-. naive_solver.
  - destruct (port_call p s) as [s1|] eqn:Hp; [|done]. simpl. intros Hps Hg Hg'.
    apply (port_call_get _ _ _ k) in Hp. rewrite Hg in Hp.
    destruct (decide (port_schema p = k)) as [Hk|Hk]; simpl in Hp.
    + rewrite (IH _ _ _ _ _ name Hname Hps Hp Hg'), port_update_rule.
      destruct p as [k'|src n r k'|src v k']; simpl in *; try done.
      destruct (decide (n = name)) as [->|Hn].
      * rewrite !decide_True by done. naive_solver.
      * rewrite !decide_False by (intros [? _]; done). done.
    + rewrite (IH _ _ _ _ _ name Hname Hps Hp Hg').
      destruct p as [k'|src n r k'|src v k']; simpl in *; try done.
      rewrite decide_False by (intros [_ ?]; done). done.
Qed.

(** ** The skip check *)

Lemma take_length_prefix {A} (l1 l2 : list A) :
  take (length l1) l2 = l1 <-> l1 `prefix_of` l2.
Proof.
  split.
  - intros E. exists (drop (length l1) l2). by rewrite <- E at 1; rewrite take_drop.
  - intros [k ->]. by rewrite take_app_length.
Qed.

Lemma sub_true paths skipped :
  internals.sub paths skipped = true <->
    ∃ p skip, p ∈ paths ∧ skip ∈ skipped ∧ extends p skip.
Proof.
  unfold internals.sub, extends, DeepEqual. rewrite existsb_exists. split.
  - intros (p & Hp & Hex). apply existsb_exists in Hex as (skip & Hskip & Heq).
    apply bool_decide_eq_true in Heq. exists p, skip.
    rewrite !list_elem_of_In. by rewrite <- take_length_prefix.
  - intros (p & skip & Hp & Hskip & Hpre). exists p.
    rewrite <- list_elem_of_In. split; [done|]. apply existsb_exists.
    exists skip. rewrite <- list_elem_of_In. split; [done|].
    apply bool_decide_eq_true. by apply take_length_prefix.
Qed.

Lemma sub_mono paths sk sk' :
  sk ⊆ sk' -> internals.sub paths sk = true -> internals.sub paths sk' = true.
Proof.
  rewrite !sub_true. intros Hsub (p & skip & ? & ? & ?).
  exists p, skip. split_and!; [done| |done]. by apply Hsub.
Qed.

Lemma sub_nil paths : internals.sub paths [] = false.
Proof.
  apply not_true_is_false. rewrite sub_true.
  intros (? & ? & _ & []%elem_of_nil & _).
Qed.

Lemma skipped_after_subseteq sk e : sk ⊆ skipped_after sk e.
Proof.
  unfold skipped_after. destruct (internals.sub _ _); [done|].
  destruct (negb _); [|done]. intros x ?. apply elem_of_app. by left.
Qed.

Lemma loop_snoc H logs e :
  loop H (logs ++ [e]) =
    ((loop H logs).1 ++ contribution H (loop H logs).2 e,
     skipped_after (loop H logs).2 e).
Proof.
  unfold loop. rewrite foldl_app. cbn [foldl].
  destruct (foldl _ _ logs) as [m sk]. apply report_log_split.
Qed.

Lemma loop_skipped_app H pre post : (loop H pre).2 ⊆ (loop H (pre ++ post)).2.
Proof.
  induction post as [|e post IH] using rev_ind; [by rewrite app_nil_r|].
  rewrite app_assoc, loop_snoc. cbn [snd].
  etrans; [exact IH|]. apply skipped_after_subseteq.
Qed.

(** Once the loop is past a log that was never reached and has a path,
    some path of that log starts with a skipped path. *)
Lemma loop_covers H logs e :
  e ∈ logs -> log_entry e.2 = false -> log_paths e.2 ≠ [] ->
  internals.sub (log_paths e.2) (loop H logs).2 = true.
Proof.
  intros Hin He Hp. apply list_elem_of_split in Hin as (pre & post & ->).
  eapply sub_mono.
  - change (pre ++ e :: post) with (pre ++ [e] ++ post). rewrite app_assoc.
    apply loop_skipped_app.
  - rewrite loop_snoc. cbn [snd]. unfold skipped_after.
    destruct (internals.sub (log_paths e.2) (loop H pre).2) eqn:Hs; [done|].
    rewrite He. simpl. apply sub_true.
    destruct (log_paths e.2) as [|a ps] eqn:Ea; [done|].
    exists a, a. split_and!; [left| |by unfold extends].
    apply elem_of_app. right. left.
Qed.

Lemma contribution_unreached H sk e :
  log_entry e.2 = false ->
  contribution H sk e =
    if internals.sub (log_paths e.2) sk then [] else [never_reached e.2].
Proof. intros He. unfold contribution. by rewrite He. Qed.

(** ** Routes *)

Lemma route_app H s q1 m q2 k :
  route H s q1 m -> route H m q2 k -> route H s (q1 ++ q2) k.
Proof.
  induction 1 as [s|s sub ctx q m Hin Hr IH]; intros Hr2; [done|].
  rewrite <- app_assoc. econstructor; [done|]. by apply IH.
Qed.

(** ** A store right after its construction *)

Lemma constructor_untouched H fuel root next s next' :
  Store.constructor H fuel root next = Some (s, next') ->
  Forall untouched (_logs s).*2.
Proof.
  intros (vs & -> & _)%constructor_visits. apply visit_all_untouched. constructor.
Qed.

Lemma constructor_unreached H fuel root next s next' e :
  Store.constructor H fuel root next = Some (s, next') ->
  e ∈ _logs s -> log_entry e.2 = false.
Proof.
  intros Hc Hin. apply constructor_untouched in Hc.
  rewrite Forall_forall in Hc. destruct (Hc e.2) as [? _]; [|done].
  apply list_elem_of_fmap. by exists e.
Qed.

(** A path array is in the log of one schema only. *)
Lemma constructor_paths_disjoint H fuel root next s next' k1 k2 l1 l2 a :
  Store.constructor H fuel root next = Some (s, next') ->
  map_get k1 (_logs s) = Some l1 -> map_get k2 (_logs s) = Some l2 ->
  a ∈ log_paths l1 -> a ∈ log_paths l2 -> k1 = k2.
Proof.
  intros (vs & _ & (_ & _ & Hnd) & _ & _ & Hpaths & _)%constructor_visits Hg1 Hg2.
  rewrite <- (paths_of_get _ _ _ Hg1), <- (paths_of_get _ _ _ Hg2), !Hpaths.
  intros ([k1' a1] & -> & [E1 Hin1]%list_elem_of_filter)%list_elem_of_fmap.
  intros ([k2' a2] & E & [E2 Hin2]%list_elem_of_filter)%list_elem_of_fmap.
  simpl in *. subst.
  apply list_elem_of_lookup in Hin1 as [i Hi], Hin2 as [j Hj].
  assert (i = j).
  { eapply NoDup_lookup; [exact Hnd| |].
    - rewrite list_lookup_fmap, Hi. done.
    - rewrite list_lookup_fmap, Hj. done. }
  subst. congruence.
Qed.

Lemma constructor_paths_nonroot H fuel root next s next' k l :
  Store.constructor H fuel root next = Some (s, next') ->
  map_get k (_logs s) = Some l -> k ≠ root -> log_paths l ≠ [].
Proof.
  intros Hc Hg Hk.
  assert (Hin : k ∈ (_logs s).*1).
  { apply dec_stable. intros Hn. apply map_get_None in Hn. congruence. }
  apply (constructor_keys _ _ _ _ _ _ _ Hc) in Hin as [q Hr].
  assert (q ≠ []) as Hq by (intros ->; by apply route_nil_inv in Hr).
  apply constructor_visits in Hc as (vs & _ & _ & _ & Hcompl & Hpaths & _).
  destruct (Hcompl _ _ Hr Hq) as (a & Hin & _).
  rewrite <- (paths_of_get _ _ _ Hg), Hpaths. intros Hnil.
  assert (Ha : a ∈ (filter (λ v, v.1 = k) vs).*2).
  { apply list_elem_of_fmap. exists (k, a). split; [done|].
    by apply list_elem_of_filter. }
  rewrite Hnil in Ha. by apply elem_of_nil in Ha.
Qed.

(** The paths to a schema, continued by a route from it, are paths of the
    schema the route leads to. *)
Lemma constructor_paths_descend H fuel root next s next' m lm k lk q a :
  Store.constructor H fuel root next = Some (s, next') ->
  map_get m (_logs s) = Some lm -> map_get k (_logs s) = Some lk ->
  route H m q k -> a ∈ log_paths lm ->
  ∃ b, b ∈ log_paths lk ∧ elems b = elems a ++ q.
Proof.
  intros Hc Hgm Hgk Hr Ha.
  apply constructor_visits in Hc as (vs & _ & _ & Hsound & Hcompl & Hpaths & _).
  rewrite <- (paths_of_get _ _ _ Hgm), Hpaths in Ha.
  apply list_elem_of_fmap in Ha as ([m' a'] & -> & [E Hin]%list_elem_of_filter).
  simpl in E. subst m'. simpl. apply Hsound in Hin as [Hne Hrm].
  destruct (Hcompl (elems a' ++ q) k) as (b & Hb & Eb).
  - by eapply route_app.
  - intros [? _]%app_eq_nil. done.
  - exists b. split; [|done]. rewrite <- (paths_of_get _ _ _ Hgk), Hpaths.
    apply list_elem_of_fmap. exists (k, b). split; [done|].
    by apply list_elem_of_filter.
Qed.

Lemma constructor_distinct_paths H fuel root next s next' :
  Store.constructor H fuel root next = Some (s, next') -> distinct_paths (_logs s).
Proof.
  intros Hc i j [k1 l1] [k2 l2] Hi Hj Hp. simpl in Hp.
  pose proof (constructor_NoDup _ _ _ _ _ _ Hc) as Hnd.
  assert (Hg1 : map_get k1 (_logs s) = Some l1).
  { apply map_get_elem; [done|]. by eapply list_elem_of_lookup_2. }
  assert (Hg2 : map_get k2 (_logs s) = Some l2).
  { apply map_get_elem; [done|]. by eapply list_elem_of_lookup_2. }
  assert (k1 = k2) as Hk.
  { destruct (log_paths l1) as [|a ps] eqn:E1.
    - destruct (decide (k1 = root)) as [->|Hk1];
        [|by destruct (constructor_paths_nonroot _ _ _ _ _ _ _ _ Hc Hg1 Hk1)].
      destruct (decide (k2 = root)) as [->|Hk2]; [done|].
      by destruct (constructor_paths_nonroot _ _ _ _ _ _ _ _ Hc Hg2 Hk2).
    - eapply (constructor_paths_disjoint _ _ _ _ _ _ _ _ _ _ a Hc Hg1 Hg2).
      + rewrite E1. left.
      + rewrite <- Hp. left. }
  eapply NoDup_lookup; [exact Hnd| |].
  - rewrite list_lookup_fmap, Hi. done.
  - rewrite list_lookup_fmap, Hj. simpl. by rewrite Hk.
Qed.

(** ** The report when nothing was reached *)

Section unreached.

Context (H : Heap) (logs : list (node * Log)).
Context (Hun : ∀ e, e ∈ logs -> log_entry e.2 = false).

(** Every gap is the "never reached" gap of a log the skip check let
    through. *)
Lemma unreached_origin item :
  item ∈ (loop H logs).1 ->
  ∃ before e after,
    logs = before ++ e :: after
    ∧ internals.sub (log_paths e.2) (loop H before).2 = false
    ∧ item = never_reached e.2.
Proof.
  intros Hin.
  destruct (missing_of_origin H (mkStore logs) item Hin)
    as (before & e & after & E & Hc).
  simpl in E. exists before, e, after. split; [done|].
  rewrite contribution_unreached in Hc.
  - destruct (internals.sub _ _); [by apply elem_of_nil in Hc|].
    by apply list_elem_of_singleton in Hc.
  - apply Hun. rewrite E. apply elem_of_app. right. left.
Qed.

End unreached.

Lemma unreached_from H logs : ∀ sk item,
  (∀ e, e ∈ logs -> log_entry e.2 = false) ->
  item ∈ (foldl (Tracer.report_log H) ([], sk) logs).1 ->
  ∃ e, e ∈ logs ∧ item = never_reached e.2.
Proof.
  induction logs as [|e logs IH]; intros sk item Hun; cbn [foldl].
  - by intros []%elem_of_nil.
  - rewrite report_log_split, foldl_report_log. cbn [fst].
    rewrite contribution_unreached by (apply Hun; left).
    intros [Hin|Hin]%elem_of_app.
    + destruct (internals.sub _ _); [by apply elem_of_nil in Hin|].
      apply list_elem_of_singleton in Hin. exists e. split; [left|done].
    + destruct (IH _ _ (λ e' He', Hun e' (list_elem_of_further _ _ _ He')) Hin)
        as (e' & He' & ->).
      exists e'. split; [by right|done].
Qed.

(** No gap is listed twice. *)
Lemma unreached_NoDup H logs : ∀ sk,
  (∀ e, e ∈ logs -> log_entry e.2 = false) ->
  distinct_paths logs ->
  NoDup (foldl (Tracer.report_log H) ([], sk) logs).1.
Proof.
  induction logs as [|e logs IH]; intros sk Hun Hdis; cbn [foldl].
  - constructor.
  - rewrite report_log_split, foldl_report_log. cbn [fst].
    rewrite contribution_unreached by (apply Hun; left).
    assert (Htail : NoDup (foldl (Tracer.report_log H)
                             ([], skipped_after sk e) logs).1).
    { apply IH.
      - intros e' He'. apply Hun. by right.
      - intros i j e1 e2 Hi Hj Hp.
        assert (S i = S j) by (by eapply Hdis). lia. }
    destruct (internals.sub _ _); [done|]. simpl. apply NoDup_cons. split; [|done].
    intros Hin. apply unreached_from in Hin as (e' & He' & Heq);
      [|intros e0 He0; apply Hun; by right].
    apply list_elem_of_lookup in He' as [j Hj].
    assert (0%nat = S j); [|done].
    eapply (Hdis 0%nat (S j) e e'); [done|done|]. by injection Heq.
Qed.

(** Visits only add logs at the end of the map. *)
Lemma visit_all_keys_prefix vs : ∀ logs,
  ∃ extra, (visit_all logs vs).*1 = logs.*1 ++ extra.
Proof.
  induction vs as [|[s p] vs IH]; intros logs; simpl.
  - exists []. by rewrite app_nil_r.
  - destruct (IH (Store.visit s p logs)) as [extra ->]. rewrite visit_keys.
    case_decide; [by exists extra|]. exists ([s] ++ extra). by rewrite app_assoc.
Qed.

(** A schema that the root does not enumerate itself has its log after
    the log of a schema, other than the root, that enumerates it. *)
Lemma constructor_parent_before H fuel root next s next' k lk :
  Store.constructor H fuel root next = Some (s, next') ->
  map_get k (_logs s) = Some lk ->
  k ≠ root ->
  (∀ ctx, (k, ctx) ∉ each_calls (H root)) ->
  ∃ before m lm mid after ctx,
    _logs s = before ++ (m, lm) :: mid ++ (k, lk) :: after
    ∧ m ≠ root ∧ (k, ctx) ∈ each_calls (H m).
Proof.
  intros Hc Hgk Hk Hdirect.
  pose proof (constructor_NoDup _ _ _ _ _ _ Hc) as Hnd.
  apply constructor_visits in Hc as (vs & Hl & _ & _ & _ & _ & Hord).
  set (top := (root, mkArray next [])) in *.
  assert (Hkin : k ∈ (_logs s).*1).
  { apply dec_stable. intros Hn. apply map_get_None in Hn. congruence. }
  rewrite Hl in Hkin. apply visit_all_keys in Hkin as [[]%elem_of_nil|Hkin].
  csimpl in Hkin. apply elem_of_cons in Hkin as [?|Hkin]; [done|].
  apply list_elem_of_split_l in Hkin as (l1 & l2 & Hsplit & Hfirst).
  assert (Hi : vs.*1 !! length l1 = Some k).
  { rewrite Hsplit. by apply list_lookup_middle. }
  apply list_lookup_fmap_Some in Hi as ([k' a] & E & Hi). simpl in E. subst k'.
  destruct (Hord _ _ _ Hi) as (m & b & ctx & Hpar & Hin & _).
  assert (m ≠ root) as Hm by (intros ->; by apply (Hdirect ctx)).
  destruct Hpar as [[= -> _]|(j & Hj & Hvj)]; [done|].
  assert (Hml1 : m ∈ l1).
  { apply list_elem_of_lookup. exists j.
    assert (vs.*1 !! j = Some m) as Hmj by (by rewrite list_lookup_fmap, Hvj).
    rewrite Hsplit in Hmj. by rewrite lookup_app_l in Hmj. }
  set (T1 := top :: take (S j) vs).
  assert (HT : top :: vs = T1 ++ drop (S j) vs).
  { unfold T1. by rewrite <- app_comm_cons, take_drop. }
  rewrite HT, visit_all_app in Hl.
  destruct (visit_all_keys_prefix (drop (S j) vs) (visit_all [] T1))
    as [extra Hkeys].
  rewrite <- Hl in Hkeys.
  assert (HmX : m ∈ (visit_all [] T1).*1).
  { apply visit_all_keys. right. unfold T1. csimpl. right.
    apply list_elem_of_fmap. exists (m, b). split; [done|].
    apply elem_of_take. exists j. split; [done|lia]. }
  assert (HkX : k ∉ (visit_all [] T1).*1).
  { intros [[]%elem_of_nil|Hin']%visit_all_keys. unfold T1 in Hin'. csimpl in Hin'.
    apply elem_of_cons in Hin' as [?|Hin']; [done|].
    rewrite fmap_take, Hsplit, take_app_le in Hin' by lia.
    apply Hfirst. by eapply subseteq_take. }
  set (n := length (visit_all [] T1).*1).
  assert (Htake : (take n (_logs s)).*1 = (visit_all [] T1).*1).
  { rewrite fmap_take, Hkeys. by apply take_app_length. }
  assert (Hdrop : (drop n (_logs s)).*1 = extra).
  { rewrite fmap_drop, Hkeys. by apply drop_app_length. }
  rewrite <- Htake in HmX.
  apply list_elem_of_fmap in HmX as ([m' lm] & Em & HmX). simpl in Em. subst m'.
  apply list_elem_of_split in HmX as (before & mid1 & Hbefore).
  assert (Hkextra : k ∈ (drop n (_logs s)).*1).
  { rewrite Hdrop. assert (k ∈ (_logs s).*1) as Hk'.
    { apply dec_stable. intros Hn. apply map_get_None in Hn. congruence. }
    rewrite Hkeys in Hk'. apply elem_of_app in Hk' as [?|?]; done. }
  apply list_elem_of_fmap in Hkextra as ([k' lk'] & Ek & Hkextra).
  simpl in Ek. subst k'.
  assert (lk' = lk) as ->.
  { assert (map_get k (_logs s) = Some lk') as Hg'; [|congruence].
    apply map_get_elem; [done|]. rewrite <- (take_drop n (_logs s)).
    apply elem_of_app. by right. }
  apply list_elem_of_split in Hkextra as (mid2 & after & Hafter).
  exists before, m, lm, (mid1 ++ mid2), after, ctx. split_and!; [|done..].
  rewrite <- (take_drop n (_logs s)), Hbefore, Hafter.
  by rewrite <- !app_assoc.
Qed.

Lemma loop_skipped_origin H logs skip :
  skip ∈ (loop H logs).2 ->
  ∃ e, e ∈ logs ∧ log_entry e.2 = false ∧ skip ∈ log_paths e.2
       ∧ never_reached e.2 ∈ (loop H logs).1.
Proof.
  induction logs as [|e logs IH] using rev_ind; [by intros []%elem_of_nil|].
  rewrite loop_snoc. cbn [fst snd]. unfold skipped_after, contribution.
  assert (Hold : skip ∈ (loop H logs).2 ->
            ∃ e0, e0 ∈ logs ++ [e] ∧ log_entry e0.2 = false ∧ skip ∈ log_paths e0.2
                  ∧ never_reached e0.2 ∈ (loop H logs).1 ++
                      (if internals.sub (log_paths e.2) (loop H logs).2 then []
                       else if negb (log_entry e.2) then [never_reached e.2]
                       else Tracer.check_values (_valids (H e.1)) (log_valid e.2) "valids"
                            ++ Tracer.check_values (_invalids (H e.1)) (log_invalid e.2)
                                 "invalids"
                            ++ (Tracer.rules (H e.1) ≫= Tracer.check_rule e.2))).
  { intros (e0 & ? & ? & ? & ?)%IH. exists e0.
    split_and!; [apply elem_of_app; by left|done|done|apply elem_of_app; by left]. }
  destruct (internals.sub _ _); [done|].
  destruct (log_entry e.2) eqn:He; simpl; [done|].
  intros [?|Hin]%elem_of_app; [auto|]. exists e.
  split_and!; [apply elem_of_app; right; left|done|done|].
  apply elem_of_app. right. left.
Qed.

Lemma loop_missing_app H pre post : (loop H pre).1 ⊆ (loop H (pre ++ post)).1.
Proof.
  unfold loop. rewrite foldl_app.
  destruct (foldl (Tracer.report_log H) ([], []) pre) as [m sk] eqn:E.
  rewrite foldl_report_log. cbn [fst]. intros x Hx. apply elem_of_app. by left.
Qed.

Section listed.

Context (H : Heap) (logs : list (node * Log)).
Context (Hun : ∀ e, e ∈ logs -> log_entry e.2 = false).
Context (Hdis : distinct_paths logs).

(** A schema is listed exactly when the skip check lets it through. *)
Lemma unreached_listed before e after :
  logs = before ++ e :: after ->
  never_reached e.2 ∈ (loop H logs).1 <->
    internals.sub (log_paths e.2) (loop H before).2 = false.
Proof.
  intros E. split.
  - intros Hin. apply (unreached_origin H logs Hun) in Hin
      as (before' & e' & after' & E' & Hsub' & Heq).
    injection Heq as Hp.
    assert (length before = length before') as Hlen.
    { eapply Hdis; [| |exact Hp].
      - rewrite E. by apply list_lookup_middle.
      - rewrite E'. by apply list_lookup_middle. }
    rewrite E in E'. apply app_inj_1 in E' as [<- [= <- _]]; [|done]. done.
  - intros Hsub.
    pose proof (missing_of_split H (mkStore logs) before e after E) as Hm.
    unfold Tracer.missing_of in Hm. simpl in Hm. fold (loop H logs) in Hm.
    rewrite Hm, contribution_unreached, Hsub
      by (apply Hun; rewrite E; apply elem_of_app; right; left).
    apply elem_of_app. right. left.
Qed.

(** The skip check passes a schema over exactly when one of its paths
    starts with a path of a schema listed before it. *)
Lemma unreached_passed_over before e after :
  logs = before ++ e :: after ->
  internals.sub (log_paths e.2) (loop H before).2 = true <->
    ∃ e' p skip, e' ∈ before ∧ never_reached e'.2 ∈ (loop H logs).1
                 ∧ p ∈ log_paths e.2 ∧ skip ∈ log_paths e'.2 ∧ extends p skip.
Proof.
  intros E. rewrite sub_true. split.
  - intros (p & skip & Hp & Hskip & Hext).
    apply loop_skipped_origin in Hskip as (e' & He' & _ & Hin & Hgap).
    exists e', p, skip. split_and!; try done.
    rewrite E. by apply loop_missing_app.
  - intros (e' & p & skip & He' & Hgap & Hp & Hskip & Hext).
    exists p, skip. split_and!; [done| |done].
    apply list_elem_of_split in He' as (b1 & b2 & ->).
    assert (E' : logs = b1 ++ e' :: (b2 ++ e :: after))
      by by rewrite E, <- app_assoc.
    apply (unreached_listed b1 e' _ E') in Hgap.
    assert (Hsk : skip ∈ (loop H (b1 ++ [e'])).2).
    { rewrite loop_snoc. cbn [snd]. unfold skipped_after. rewrite Hgap.
      rewrite Hun by (rewrite E'; apply elem_of_app; right; left).
      simpl. apply elem_of_app. by right. }
    assert (Hb : b1 ++ e' :: b2 = (b1 ++ [e']) ++ b2) by by rewrite <- app_assoc.
    rewrite Hb. by apply loop_skipped_app.
Qed.

End listed.

(** The gaps are those of the schemas listed, in the order of the logs. *)
Lemma unreached_filter H logs :
  (∀ e, e ∈ logs -> log_entry e.2 = false) ->
  distinct_paths logs ->
  (loop H logs).1 =
    (λ e, never_reached e.2)
      <$> filter (λ e, never_reached e.2 ∈ (loop H logs).1) logs.
Proof.
  induction logs as [|e logs IH] using rev_ind; intros Hun Hdis; [done|].
  assert (Hun' : ∀ x, x ∈ logs -> log_entry x.2 = false).
  { intros x Hx. apply Hun, elem_of_app. by left. }
  assert (Hdis' : distinct_paths logs).
  { intros i j e1 e2 Hi Hj. apply Hdis; by apply lookup_app_l_Some. }
  assert (Hother : ∀ x, x ∈ logs -> never_reached x.2 ≠ never_reached e.2).
  { intros x [i Hi]%list_elem_of_lookup [= Hp].
    assert (i = length logs) as ->.
    { eapply Hdis; [by apply lookup_app_l_Some|by apply list_lookup_middle|done]. }
    apply lookup_lt_Some in Hi. lia. }
  assert (Hfresh : never_reached e.2 ∉ (loop H logs).1).
  { intros Hin. apply (unreached_origin H logs Hun') in Hin
      as (before & x & after & E & _ & Heq).
    symmetry in Heq. revert Heq. apply Hother. rewrite E.
    apply elem_of_app. right. left. }
  rewrite loop_snoc. cbn [fst].
  rewrite contribution_unreached by (apply Hun, elem_of_app; right; left).
  rewrite filter_app, fmap_app. f_equal.
  - rewrite (IH Hun' Hdis') at 1. f_equal. apply filter_ext_elem.
    intros x Hx. rewrite elem_of_app. split; [by left|].
    intros [?|Hc]; [done|].
    destruct (internals.sub _ _); [by apply elem_of_nil in Hc|].
    apply list_elem_of_singleton in Hc. by apply Hother in Hc.
  - rewrite filter_cons, filter_nil.
    destruct (internals.sub _ _).
    + rewrite app_nil_r. by rewrite decide_False.
    + rewrite decide_True; [done|]. apply elem_of_app. right. left.
Qed.

(** C1, as the code has it: right after the scan of a root (no
    instrumentation call made), every gap of the report is the "never
    reached" gap of one schema, no gap is listed twice, and the root has
    its gap; a schema one of whose paths starts with a path skipped before
    its turn gets no gap at all, and the report is what it would be without
    its log; in particular a schema reached from a schema other than the
    root whose log comes earlier in the store gets no gap of its own, and
    that is so of every schema that the root does not enumerate itself:
    the schemas listed are the root and schemas directly under it.  A
    schema is listed exactly when none of its paths starts with a path of
    a schema listed before it: every other schema, in particular one
    directly under the root, has its gap, and a schema without a gap has
    the gap of an earlier schema on one of its paths.  The gaps come in
    the order of the logs. *)
Theorem zero_runs_report (H : Heap) (rank : node -> nat) (root : node)
    (fuel next : nat) :
  acyclic H rank -> (rank root < fuel)%nat ->
  ∃ s next',
    Store.constructor H fuel root next = Some (s, next')
    ∧ (∀ item, item ∈ Tracer.missing_of H s ->
         ∃ k l, map_get k (_logs s) = Some l ∧ item = never_reached l)
    ∧ NoDup (Tracer.missing_of H s)
    ∧ (∃ l, map_get root (_logs s) = Some l
            ∧ never_reached l ∈ Tracer.missing_of H s)
    ∧ (∀ before e after, _logs s = before ++ e :: after ->
         internals.sub (log_paths e.2) (loop H before).2 = true ->
         (never_reached e.2 ∉ Tracer.missing_of H s)
         ∧ Tracer.missing_of H s = Tracer.missing_of H (mkStore (before ++ after)))
    ∧ (∀ before m lm mid k lk after q,
         _logs s = before ++ (m, lm) :: mid ++ (k, lk) :: after ->
         m ≠ root -> route H m q k ->
         never_reached lk ∉ Tracer.missing_of H s)
    ∧ (∀ k lk, map_get k (_logs s) = Some lk ->
         k ≠ root -> (∀ ctx, (k, ctx) ∉ each_calls (H root)) ->
         never_reached lk ∉ Tracer.missing_of H s)
    ∧ (∀ before e after, _logs s = before ++ e :: after ->
         (never_reached e.2 ∈ Tracer.missing_of H s
          ∨ ∃ e' p skip,
              e' ∈ before ∧ never_reached e'.2 ∈ Tracer.missing_of H s
              ∧ p ∈ log_paths e.2 ∧ skip ∈ log_paths e'.2 ∧ extends p skip)
         ∧ ((∃ e' p skip,
               e' ∈ before ∧ never_reached e'.2 ∈ Tracer.missing_of H s
               ∧ p ∈ log_paths e.2 ∧ skip ∈ log_paths e'.2 ∧ extends p skip) ->
            never_reached e.2 ∉ Tracer.missing_of H s))
    ∧ Tracer.missing_of H s
      = (λ e, never_reached e.2)
          <$> filter (λ e, never_reached e.2 ∈ Tracer.missing_of H s) (_logs s).
Proof.
  intros Hacyc Hlt.
  destruct (constructor_total H rank root fuel next Hacyc Hlt) as (s & next' & Hc).
  exists s, next'.
  pose proof (constructor_NoDup _ _ _ _ _ _ Hc) as Hnd.
  pose proof (constructor_distinct_paths _ _ _ _ _ _ Hc) as Hdis.
  assert (Hun : ∀ e, e ∈ _logs s -> log_entry e.2 = false).
  { intros e. by eapply constructor_unreached. }
  assert (Hget : ∀ e, e ∈ _logs s -> map_get e.1 (_logs s) = Some e.2).
  { intros [k l] Hin. by apply map_get_elem. }
  assert (Hsupp : ∀ before e after, _logs s = before ++ e :: after ->
            internals.sub (log_paths e.2) (loop H before).2 = true ->
            never_reached e.2 ∉ Tracer.missing_of H s).
  { intros before e after E Hsub Hin.
    apply (unreached_origin H _ Hun) in Hin
      as (before' & e' & after' & E' & Hsub' & Heq).
    injection Heq as Hp.
    assert (length before = length before') as Hlen.
    { eapply Hdis; [| |exact Hp].
      - rewrite E. by apply list_lookup_middle.
      - rewrite E'. by apply list_lookup_middle. }
    rewrite E in E'. apply app_inj_1 in E' as [<- [= <- _]]; [|done].
    congruence. }
  assert (Hnested : ∀ before m lm mid k lk after q,
            _logs s = before ++ (m, lm) :: mid ++ (k, lk) :: after ->
            m ≠ root -> route H m q k ->
            never_reached lk ∉ Tracer.missing_of H s).
  { intros before m lm mid k lk after q E Hm Hr.
    change (before ++ (m, lm) :: mid ++ (k, lk) :: after)
      with (before ++ ((m, lm) :: mid) ++ (k, lk) :: after) in E.
    rewrite app_assoc in E.
    apply (Hsupp _ (k, lk) _ E). cbn [snd].
    assert (Hinm : (m, lm) ∈ _logs s).
    { rewrite E, <- app_assoc. apply elem_of_app. right. left. }
    assert (Hink : (k, lk) ∈ _logs s).
    { rewrite E. apply elem_of_app. right. left. }
    pose proof (Hget _ Hinm) as Hgm. pose proof (Hget _ Hink) as Hgk.
    assert (Hcov : internals.sub (log_paths lm)
                     (loop H (before ++ (m, lm) :: mid)).2 = true).
    { apply (loop_covers H _ (m, lm)).
      - apply elem_of_app. right. left.
      - by apply (Hun _ Hinm).
      - by eapply constructor_paths_nonroot. }
    apply sub_true in Hcov as (a & skip & Ha & Hskip & Hext).
    destruct (constructor_paths_descend _ _ _ _ _ _ _ _ _ _ _ _ Hc Hgm Hgk Hr Ha)
      as (b & Hb & Eb).
    apply sub_true. exists b, skip. split_and!; [done..|].
    unfold extends in *. rewrite Eb. by apply prefix_app_r. }
  split_and!; [done| | | | |done| | |].
  - intros item Hin.
    apply (unreached_origin H _ Hun) in Hin as (before & [k l] & after & E & _ & ->).
    exists k, l. split; [|done]. apply (Hget (k, l)).
    rewrite E. apply elem_of_app. right. left.
  - by apply unreached_NoDup.
  - destruct (_logs s) as [|[k l] logs] eqn:E.
    + exfalso. assert (root ∈ (_logs s).*1) as Hin.
      { apply (constructor_keys _ _ _ _ _ _ _ Hc). exists []. constructor. }
      rewrite E in Hin. by apply elem_of_nil in Hin.
    + assert (k = root) as ->.
      { apply constructor_visits in Hc as (vs & Hl & _). rewrite Hl in E.
        assert (Hpre : ∀ vs' logs', logs' ≠ [] -> head (visit_all logs' vs').*1 = head logs'.*1).
        { clear. induction vs' as [|v vs' IH]; intros logs' Hne; [done|].
          simpl. rewrite IH.
          - rewrite visit_keys. case_decide; [done|].
            destruct logs'; [done|]. done.
          - intros E. apply (f_equal (fmap fst)) in E. rewrite visit_keys in E.
            case_decide; destruct logs'; done. }
        assert (head (visit_all [] ((root, mkArray next []) :: vs)).*1 = Some root)
          as Hh by (simpl; by rewrite Hpre).
        rewrite E in Hh. by injection Hh. }
      exists l. split; [by simpl; rewrite decide_True|].
      rewrite (missing_of_split H s [] (root, l) logs E).
      apply elem_of_app. right. apply elem_of_app. left.
      rewrite contribution_unreached by (apply Hun; left).
      cbn [loop foldl snd]. rewrite sub_nil. left.
  - intros before e after E Hsub. split; [by eapply Hsupp|].
    by eapply missing_of_suppressed.
  - intros k lk Hgk Hk Hdirect.
    destruct (constructor_parent_before _ _ _ _ _ _ _ _ Hc Hgk Hk Hdirect)
      as (before & m & lm & mid & after & ctx & E & Hm & Hin).
    eapply (Hnested before m lm mid k lk after); [done|done|].
    eapply route_sub; [exact Hin | constructor].
  - intros before e after E.
    pose proof (unreached_listed H _ Hun Hdis before e after E) as Hl.
    pose proof (unreached_passed_over H _ Hun Hdis before e after E) as Hp.
    fold (Tracer.missing_of H s) in Hl, Hp. split.
    + destruct (internals.sub (log_paths e.2) (loop H before).2) eqn:Hsub.
      * right. by apply Hp.
      * left. by apply Hl.
    + intros Hex Hin. apply Hp in Hex. apply Hl in Hin. congruence.
  - apply (unreached_filter H (_logs s) Hun Hdis).
Qed.

Lemma zero_runs_report_witness :
  let H := nested in
  let root := 1%positive in
  ∃ s next',
    Store.constructor H 10 root 0 = Some (s, next')
    ∧ (∀ item, item ∈ Tracer.missing_of H s ->
         ∃ k l, map_get k (_logs s) = Some l ∧ item = never_reached l)
    ∧ NoDup (Tracer.missing_of H s)
    ∧ (∃ l, map_get root (_logs s) = Some l
            ∧ never_reached l ∈ Tracer.missing_of H s)
    ∧ (∀ before e after, _logs s = before ++ e :: after ->
         internals.sub (log_paths e.2) (loop H before).2 = true ->
         (never_reached e.2 ∉ Tracer.missing_of H s)
         ∧ Tracer.missing_of H s = Tracer.missing_of H (mkStore (before ++ after)))
    ∧ (∀ before m lm mid k lk after q,
         _logs s = before ++ (m, lm) :: mid ++ (k, lk) :: after ->
         m ≠ root -> route H m q k ->
         never_reached lk ∉ Tracer.missing_of H s)
    ∧ (∀ k lk, map_get k (_logs s) = Some lk ->
         k ≠ root -> (∀ ctx, (k, ctx) ∉ each_calls (H root)) ->
         never_reached lk ∉ Tracer.missing_of H s)
    ∧ (∀ before e after, _logs s = before ++ e :: after ->
         (never_reached e.2 ∈ Tracer.missing_of H s
          ∨ ∃ e' p skip,
              e' ∈ before ∧ never_reached e'.2 ∈ Tracer.missing_of H s
              ∧ p ∈ log_paths e.2 ∧ skip ∈ log_paths e'.2 ∧ extends p skip)
         ∧ ((∃ e' p skip,
               e' ∈ before ∧ never_reached e'.2 ∈ Tracer.missing_of H s
               ∧ p ∈ log_paths e.2 ∧ skip ∈ log_paths e'.2 ∧ extends p skip) ->
            never_reached e.2 ∉ Tracer.missing_of H s))
    ∧ Tracer.missing_of H s
      = (λ e, never_reached e.2)
          <$> filter (λ e, never_reached e.2 ∈ Tracer.missing_of H s) (_logs s).
Proof.
  intros H root.
  apply (zero_runs_report H rev_rank root 10 0).
  - apply heap_of_acyclic. reflexivity.
  - vm_compute. lia.
Defined.

(** The report on [nested] before any run: a gap for the root, a gap for
    the object under it, none for the string nested in that object. *)
Example nested_zero_runs :
  ((λ r, Tracer.missing_of nested r.1) <$> Store.constructor nested 10 1%positive 0)
  = Some [mkMissing (Label "never reached") None (Some []);
          mkMissing (Label "never reached") None
            (Some [mkArray 1 [VString "a"]])].
Proof. vm_compute. reflexivity. Qed.

(** C1 as stated fails: a schema that was never reached, under an ancestor
    that was never reached, can have a gap of its own.  In [shared_first]
    the shared string is enumerated by the root before the array that also
    holds it, so its log comes before the log of the array, the skip check
    lets it through, and it is listed; so is every schema directly under
    the root, the root having no path to skip. *)
Lemma nested_node_with_own_gap :
  ¬ (∀ (H : Heap) (rank : node -> nat) (root : node) (fuel next : nat)
       s next' p m q k lk,
       acyclic H rank -> (rank root < fuel)%nat ->
       Store.constructor H fuel root next = Some (s, next') ->
       route H root p m -> route H m q k -> q ≠ [] ->
       map_get k (_logs s) = Some lk ->
       never_reached lk ∉ Tracer.missing_of H s).
Proof.
  intros Hall.
  specialize (Hall shared_first rev_rank 1%positive 10%nat 0%nat).
  destruct (Store.constructor shared_first 10 1%positive 0) as [[s n]|] eqn:Hc;
    [|by vm_compute in Hc].
  vm_compute in Hc. injection Hc as <- <-.
  eapply (Hall _ _ (segments (internals.id (shared_first 2%positive) (term "matches" 1)) ++ [])
            2%positive
            (segments (internals.id (shared_first 4%positive) (term "items" 0)) ++ [])
            4%positive).
  - apply heap_of_acyclic. reflexivity.
  - vm_compute. lia.
  - reflexivity.
  - eapply route_sub; [|constructor]. right. left.
  - eapply route_sub; [|constructor]. left.
  - done.
  - reflexivity.
  - apply (bool_decide_unpack _). vm_compute. reflexivity.
Qed.

(** ** The instrumentation port only adds *)

Lemma grows_refl l : grows l l.
Proof. by unfold grows. Qed.

Lemma grows_trans l1 l2 l3 : grows l1 l2 -> grows l2 l3 -> grows l1 l3.
Proof.
  intros (Hp1 & He1 & Hm1 & Hv1 & Hi1) (Hp2 & He2 & Hm2 & Hv2 & Hi2).
  split_and!; [congruence|auto|auto| |]; by etrans.
Qed.

Lemma port_update_grows p l : grows l (port_update p l).
Proof.
  split_and!.
  - destruct p as [k|src n r k|src v k]; [done|done|by destruct src].
  - destruct p as [k|src n r k|src v k]; [done|done|by destruct src].
  - intros name i Hb. destruct (decide (name = "__proto__")) as [->|Hn].
    { unfold mask in *. by rewrite port_update_proto. }
    rewrite port_update_mask by done.
    destruct p as [k|src n r k|src v k]; [done| |done].
    case_decide; [|done]. rewrite Z.lor_spec, Hb. done.
  - destruct p as [k|src n r k|src v k]; [done|done|].
    destruct src; simpl; [|done]. intros x Hx. apply set_add_elem. by left.
  - destruct p as [k|src n r k|src v k]; [done|done|].
    destruct src; simpl; [done|]. intros x Hx. apply set_add_elem. by left.
Qed.

Lemma map_update_topology k f (logs : list (node * Log)) :
  (∀ l, log_paths (f l) = log_paths l) ->
  (λ e, (e.1, log_paths e.2)) <$> map_update k f logs
  = (λ e, (e.1, log_paths e.2)) <$> logs.
Proof.
  intros Hf. induction logs as [|[k' l] logs IH]; csimpl; [done|].
  case_decide; csimpl; [by rewrite Hf | by rewrite IH].
Qed.

Lemma port_call_topology p s s' : port_call p s = Some s' -> topology s' = topology s.
Proof.
  rewrite port_call_unfold. destruct (map_get _ _); [|done]. intros [= <-].
  apply map_update_topology. intros l'. by destruct (port_update_grows p l').
Qed.

Lemma port_call_grows p s s' : port_call p s = Some s' -> store_grows s s'.
Proof.
  intros Hp. split_and!.
  - by eapply port_call_keys.
  - by eapply port_call_topology.
  - intros k l Hg. rewrite (port_call_get _ _ _ k Hp), Hg.
    case_decide; simpl; eexists; split; eauto using grows_refl, port_update_grows.
Qed.

Lemma store_grows_refl s : store_grows s s.
Proof. split_and!; [done..|]. intros k l ?. exists l. split; [done|apply grows_refl]. Qed.

Lemma store_grows_trans s1 s2 s3 :
  store_grows s1 s2 -> store_grows s2 s3 -> store_grows s1 s3.
Proof.
  intros (Hk1 & Ht1 & Hl1) (Hk2 & Ht2 & Hl2). split_and!; [congruence..|].
  intros k l Hg. destruct (Hl1 _ _ Hg) as (l2 & Hg2 & Hgr1).
  destruct (Hl2 _ _ Hg2) as (l3 & Hg3 & Hgr2).
  exists l3. split; [done|]. by eapply grows_trans.
Qed.

Lemma port_calls_grows ps : ∀ s s', port_calls ps s = Some s' -> store_grows s s'.
Proof.
  induction ps as [|p ps IH]; intros s s'; simpl.
  - intros [= <-]. apply store_grows_refl.
  - destruct (port_call p s) as [s1|] eqn:Hp; [|done]. simpl. intros Hps.
    eapply store_grows_trans; [by eapply port_call_grows | by apply IH].
Qed.

(** C10: an instrumentation call on a schema that has a log succeeds and
    only adds to the store.  The schemas with a log and their order are
    the same, their paths are the same, an entry flag that was set is still
    set, every bit of every outcome mask is still there, and every
    observed value is still observed.  The logged rule has the bits of the
    outcome or-ed in, unless its name is ["__proto__"], for which the rule
    table stays as it is; the masks of the other names are as they were.
    The same holds of any sequence of such calls. *)
Theorem port_accumulates (s : StoreObj) (p : port) :
  port_schema p ∈ (_logs s).*1 ->
  (∃ s', port_call p s = Some s' ∧ store_grows s s')
  ∧ (∀ schema, port_schema p = schema ->
       (p = PEntry schema -> port_call p s = Store.entry schema s)
       ∧ (∀ source name result, p = PLog source name result schema ->
            port_call p s = Store.log source name result schema s
            ∧ ∀ s' l l', port_call p s = Some s' ->
                map_get schema (_logs s) = Some l ->
                map_get schema (_logs s') = Some l' ->
                (name ≠ "__proto__" ->
                   mask l' name = Z.lor (mask l name) (internals.codes result))
                ∧ (name = "__proto__" -> log_rule l' = log_rule l)
                ∧ (∀ name', name' ≠ name ->
                     log_rule l' !! name' = log_rule l !! name'))
       ∧ (∀ source v, p = PValue source v schema ->
            port_call p s = Store.value source v schema s))
  ∧ (∀ ps s', port_calls ps s = Some s' -> store_grows s s').
Proof.
  intros Hin. split_and!.
  - destruct (port_call_is_Some p s Hin) as [s' Hp].
    exists s'. split; [done|]. by apply (port_call_grows p).
  - intros schema Hs. split_and!.
    + by intros ->.
    + intros source name result ->. split; [done|].
      intros s' l l' Hp Hg Hg'.
      rewrite (port_call_get _ _ _ schema Hp), Hg in Hg'. simpl in Hg'.
      rewrite decide_True in Hg' by done. injection Hg' as <-.
      change (Store.or_rule name (internals.codes result) l)
        with (port_update (PLog source name result schema) l).
      split_and!.
      * intros Hname. rewrite port_update_mask by done. by rewrite decide_True.
      * intros ->. simpl. unfold or_property. by rewrite decide_True.
      * intros name' Hne. rewrite port_update_rule.
        rewrite decide_False; [done|]. by intros [-> _].
    + by intros source v ->.
  - intros ps s'. apply port_calls_grows.
Qed.

Lemma port_accumulates_witness :
  let s := nested_run in
  let p := PLog Store.src_rule "min" internals.value_ 3%positive in
  (∃ s', port_call p s = Some s' ∧ store_grows s s')
  ∧ (∀ schema, port_schema p = schema ->
       (p = PEntry schema -> port_call p s = Store.entry schema s)
       ∧ (∀ source name result, p = PLog source name result schema ->
            port_call p s = Store.log source name result schema s
            ∧ ∀ s' l l', port_call p s = Some s' ->
                map_get schema (_logs s) = Some l ->
                map_get schema (_logs s') = Some l' ->
                (name ≠ "__proto__" ->
                   mask l' name = Z.lor (mask l name) (internals.codes result))
                ∧ (name = "__proto__" -> log_rule l' = log_rule l)
                ∧ (∀ name', name' ≠ name ->
                     log_rule l' !! name' = log_rule l !! name'))
       ∧ (∀ source v, p = PValue source v schema ->
            port_call p s = Store.value source v schema s))
  ∧ (∀ ps s', port_calls ps s = Some s' -> store_grows s s').
Proof.
  intros s p. apply (port_accumulates s p).
  apply (bool_decide_unpack _). vm_compute. reflexivity.
Defined.

(** ** The report of the registry *)

Lemma report_schema_skip H R file m coverage reg :
  Tracer.report_schema H R file m coverage reg =
    if decide (selects file reg
               ∧ Tracer.missing_of H (Tracer.deref m (store reg)) ≠ [])
    then coverage ++ [record_of H R m reg]
    else coverage.
Proof.
  unfold Tracer.report_schema, record_of.
  set (missing := Tracer.missing_of H (Tracer.deref m (store reg))).
  assert (Hskip : truthy file && negb (String.eqb (default "" file) (filename reg))
                  = negb (bool_decide (selects file reg))).
  { destruct file as [f|]; [|done]. simpl.
    destruct (String.eqb_spec f "") as [->|Hf];
      [by rewrite bool_decide_eq_true_2 by (by left)|].
    destruct (String.eqb_spec f (filename reg)) as [->|Hne].
    - by rewrite bool_decide_eq_true_2 by (by right).
    - by rewrite bool_decide_eq_false_2 by (by intros [?|?]). }
  rewrite Hskip. destruct (decide (selects file reg)) as [Hsel|Hsel].
  - rewrite bool_decide_eq_true_2 by done. cbn [negb].
    destruct (decide (length missing = 0%nat)) as [Hl|Hl].
    + rewrite decide_False; [done|]. intros [_ Hne]. apply Hne.
      by apply length_zero_iff_nil.
    + rewrite decide_True; [done|]. split; [done|]. intros E. by rewrite E in Hl.
  - rewrite bool_decide_eq_false_2 by done. cbn [negb].
    rewrite decide_False; [done|]. by intros [? _].
Qed.

Lemma foldl_report_schema H R file m regs : ∀ coverage,
  foldl (Tracer.report_schema H R file m) coverage regs =
    coverage ++ (record_of H R m <$>
                   filter (λ reg, selects file reg
                                  ∧ Tracer.missing_of H (Tracer.deref m (store reg)) ≠ [])
                     regs).
Proof.
  induction regs as [|reg regs IH]; intros coverage; cbn [foldl].
  - by rewrite app_nil_r.
  - rewrite IH, report_schema_skip, filter_cons.
    case_decide; csimpl; [by rewrite <- app_assoc | done].
Qed.

(** C7: [report(file)] is total.  It returns [null] exactly when no
    registration that the file filter lets through has a gap, and
    otherwise the non-empty list of the records of the registrations that
    have gaps, in registration order, each with the file name and line of
    its registration, its gaps, the severity ["error"] and a message. *)
Theorem report_null_or_records (H : Heap) (R : Render) (file : option string)
    (m : Memory) :
  (Tracer.report H R file m = None <->
     ∀ reg, reg ∈ (_schemas (tracer m)).*2 -> selects file reg ->
            Tracer.missing_of H (Tracer.deref m (store reg)) = [])
  ∧ (∀ coverage, Tracer.report H R file m = Some coverage ->
       coverage ≠ []
       ∧ coverage = record_of H R m <$> reported H file m
       ∧ ∀ c, c ∈ coverage -> cov_severity c = "error" ∧ cov_missing c ≠ [])
  ∧ (∀ reg, cov_filename (record_of H R m reg) = filename reg
            ∧ cov_line (record_of H R m reg) = line reg
            ∧ cov_missing (record_of H R m reg)
                = Tracer.missing_of H (Tracer.deref m (store reg))
            ∧ cov_severity (record_of H R m reg) = "error"
            ∧ cov_message (record_of H R m reg)
                = String.append "Schema missing tests for "
                    (String.concat ", "
                       (map (internals.message R)
                          (Tracer.missing_of H (Tracer.deref m (store reg)))))).
Proof.
  assert (Hrep : Tracer.report H R file m =
            match record_of H R m <$> reported H file m with
            | [] => None
            | coverage => Some coverage
            end).
  { unfold Tracer.report. rewrite foldl_report_schema. cbn [app].
    fold (reported H file m).
    destruct (record_of H R m <$> reported H file m); by case_decide. }
  split_and!.
  - rewrite Hrep. split.
    + intros Hnone reg Hin Hsel.
      destruct (Tracer.missing_of H (Tracer.deref m (store reg))) eqn:Hm; [done|].
      assert (reg ∈ reported H file m) as Hr.
      { apply list_elem_of_filter. split; [|done]. split; [done|]. by rewrite Hm. }
      destruct (reported H file m); [by apply elem_of_nil in Hr|done].
    + intros Hall. destruct (reported H file m) as [|reg regs] eqn:Hr; [done|].
      assert (reg ∈ reported H file m) as Hin by (rewrite Hr; left).
      apply list_elem_of_filter in Hin as [[Hsel Hne] Hin]. by destruct Hne; apply Hall.
  - intros coverage. rewrite Hrep.
    destruct (record_of H R m <$> reported H file m) as [|c cs] eqn:Hr; [done|].
    intros [= <-]. split_and!; [done|done|].
    intros c' Hc'. rewrite <- Hr in Hc'.
    apply list_elem_of_fmap in Hc' as (reg & -> & Hin).
    apply list_elem_of_filter in Hin as [[_ Hne] _]. done.
  - done.
Qed.

(** ** Calls on the registry *)

(** ** What [report] writes *)

Section effects.

Import Effects.

Context (L : Literals_at) (H : Heap).

Lemma extended_refl w : extended w w.
Proof. split_and!; [done|done|]. exists []. by rewrite app_nil_r. Qed.

Lemma extended_trans w1 w2 w3 : extended w1 w2 -> extended w2 w3 -> extended w1 w3.
Proof.
  intros (Hr1 & Hl1 & f1 & Hs1) (Hr2 & Hl2 & f2 & Hs2).
  split_and!; [congruence|congruence|].
  exists (f1 ++ f2). by rewrite Hs2, Hs1, <- app_assoc.
Qed.

Lemma extended_lookup w w' a vs :
  extended w w' -> sets w !! a = Some vs -> sets w' !! a = Some vs.
Proof. intros (_ & _ & fresh & ->) Ha. by apply lookup_app_l_Some. Qed.

Lemma holds_log_extended w w' r l :
  extended w w' -> holds_log w r l -> holds_log w' r l.
Proof.
  intros Hext (Hp & He & Hr & Hv & Hi).
  split_and!; eauto using extended_lookup.
Qed.

Lemma holds_extended m w w' : extended w w' -> holds L H m w -> holds L H m w'.
Proof.
  intros Hext (Hreg & Hlogs & Hlit). pose proof Hext as (Hr & Hl & _).
  split_and!.
  - congruence.
  - rewrite Hl. eapply Forall2_impl; [exact Hlogs|]. intros rs st Hrs.
    eapply Forall2_impl; [exact Hrs|]. intros r e [Hk Hh].
    split; [done|]. by eapply holds_log_extended.
  - intros k type. specialize (Hlit k type).
    destruct (match type with
              | Store.valid => _valids (H k)
              | Store.invalid => _invalids (H k)
              end); [|done].
    destruct Hlit as (a & Ha & Hs). exists a. split; [done|].
    by eapply extended_lookup.
Qed.

(** The deletions go to the set made last. *)
Lemma for_each_delete reg lgs old : ∀ obs vs,
  for_each obs (Set_delete (length old)) (mkWorld reg lgs (old ++ [vs]))
  = (tt, mkWorld reg lgs
           (old ++ [foldl (λ values value, set_delete value values) vs obs])).
Proof.
  induction obs as [|v obs IH]; intros vs; [done|].
  assert (E : Set_delete (length old) v (mkWorld reg lgs (old ++ [vs]))
              = (tt, mkWorld reg lgs (old ++ [set_delete v vs]))).
  { unfold Set_delete. cbn [registry logs sets]. do 2 f_equal.
    by rewrite alter_app_r_alt, Nat.sub_diag. }
  cbn [for_each foldl]. unfold bind. rewrite E. apply IH.
Qed.

Lemma check_values_effects w sub r missing type set obs :
  L sub type = set ->
  (∀ a, set = Some a -> ∃ declared, sets w !! a = Some declared) ->
  sets w !! observed_at r type = Some obs ->
  ∃ fresh,
    check_values L sub r missing type w
    = (missing ++ Tracer.check_values
                    (mkValues <$> (set ≫= λ a, sets w !! a)) obs (rule_of type),
       mkWorld (registry w) (logs w) (sets w ++ fresh)).
Proof.
  intros HL Hset Hobs. unfold check_values. rewrite HL.
  destruct set as [a|]; simpl.
  - destruct (Hset a eq_refl) as [declared Ha]. rewrite Ha. simpl.
    exists [foldl (λ values value, set_delete value values) declared obs].
    unfold bind, new_Set, Set_values. cbn [fst snd sets registry logs].
    rewrite Ha. cbn [default].
    rewrite (lookup_app_l_Some _ _ _ _ Hobs). cbn [default].
    rewrite for_each_delete. cbn [fst snd sets registry logs].
    rewrite lookup_app_r, Nat.sub_diag by done. cbn [lookup list_lookup default].
    unfold ret, id. unfold Tracer.check_values. cbn [_set]. f_equal.
    case_decide; [by rewrite app_nil_r|done].
  - exists []. unfold ret. rewrite !app_nil_r. by destruct w.
Qed.

Lemma report_log_effects m w acc k r l :
  holds L H m w -> holds_log w r l ->
  ∃ w', report_log L H acc (k, r) w = (Tracer.report_log H acc (k, l), w')
        ∧ extended w w'.
Proof.
  intros (_ & _ & Hlit) (Hp & He & Hr & Hv & Hi).
  unfold report_log, Tracer.report_log. destruct acc as [missing skipped].
  cbn [fst snd]. rewrite Hp, He.
  destruct (internals.sub (log_paths l) skipped);
    [exists w; split; [done|apply extended_refl]|].
  destruct (log_entry l); simpl;
    [|exists w; split; [done|apply extended_refl]].
  pose proof (Hlit k Store.valid) as Hlv. pose proof (Hlit k Store.invalid) as Hli.
  simpl in Hlv, Hli.
  destruct (check_values_effects w k r missing Store.valid (L k Store.valid)
              (log_valid l) eq_refl) as [f1 E1]; [|done|].
  { intros a Ha. destruct (_valids (H k)); [|congruence].
    destruct Hlv as (a' & Ha' & Hs). rewrite Ha in Ha'. injection Ha' as <-.
    by eexists. }
  set (w1 := mkWorld (registry w) (logs w) (sets w ++ f1)) in *.
  assert (Hext1 : extended w w1) by (split_and!; [done|done|by exists f1]).
  destruct (check_values_effects w1 k r
              (missing ++ Tracer.check_values
                 (mkValues <$> (L k Store.valid ≫= λ a, sets w !! a))
                 (log_valid l) (rule_of Store.valid))
              Store.invalid (L k Store.invalid) (log_invalid l) eq_refl)
    as [f2 E2]; [|by eapply extended_lookup|].
  { intros a Ha. destruct (_invalids (H k)); [|congruence].
    destruct Hli as (a' & Ha' & Hs). rewrite Ha in Ha'. injection Ha' as <-.
    exists (_set v). by eapply extended_lookup. }
  set (w2 := mkWorld (registry w1) (logs w1) (sets w1 ++ f2)) in *.
  exists w2. split.
  - assert (Hsv : mkValues <$> (L k Store.valid ≫= λ a, sets w !! a) = _valids (H k)).
    { destruct (_valids (H k)) as [[vs]|].
      - destruct Hlv as (a & -> & Hs). simpl. by rewrite Hs.
      - by rewrite Hlv. }
    assert (Hsi : mkValues <$> (L k Store.invalid ≫= λ a, sets w1 !! a)
                  = _invalids (H k)).
    { destruct (_invalids (H k)) as [[vs]|].
      - destruct Hli as (a & -> & Hs). simpl.
        pose proof (extended_lookup _ _ _ _ Hext1 Hs) as Hs1.
        unfold w1 in *. cbn [sets] in *. by rewrite Hs1.
      - by rewrite Hli. }
    assert (Hrules : Tracer.rules (H k) ≫= Tracer.check_rule (scalars r)
                     = Tracer.rules (H k) ≫= Tracer.check_rule l).
    { apply bind_ext_elem. intros name _.
      unfold Tracer.check_rule, Tracer.rule_status, scalars. simpl.
      by rewrite Hr, Hp. }
    rewrite Hsv in E1, E2. rewrite Hsi in E2.
    unfold bind. cbn [fold_each]. unfold bind. rewrite E1. cbn [fst snd].
    rewrite E2. cbn [fst snd]. unfold ret. rewrite Hrules.
    cbn [rule_of fst snd]. by rewrite <- !app_assoc.
  - eapply extended_trans; [exact Hext1|].
    split_and!; [done|done|by exists f2].
Qed.

Lemma fold_report_log_effects m : ∀ rs ls w acc,
  holds L H m w ->
  Forall2 (λ r e, r.1 = e.1 ∧ holds_log w r.2 e.2) rs ls ->
  ∃ w', fold_each (report_log L H) rs acc w
        = (foldl (Tracer.report_log H) acc ls, w')
        ∧ extended w w'.
Proof.
  induction rs as [|[k r] rs IH]; intros ls w acc Hw Hall.
  - apply Forall2_nil_inv_l in Hall as ->. exists w. split; [done|apply extended_refl].
  - apply Forall2_cons_inv_l in Hall as ([k' l] & ls' & [Hk Hh] & Hall & ->).
    simpl in Hk, Hh. subst k'.
    destruct (report_log_effects m w acc k r l Hw Hh) as (w1 & E1 & Hext1).
    destruct (IH ls' w1 (Tracer.report_log H acc (k, l))) as (w2 & E2 & Hext2).
    + by eapply holds_extended.
    + eapply Forall2_impl; [exact Hall|]. intros r' e' [? ?]. split; [done|].
      by eapply holds_log_extended.
    + exists w2. split; [|by eapply extended_trans].
      cbn [fold_each foldl]. unfold bind. rewrite E1. cbn [fst snd]. exact E2.
Qed.

Lemma report_schema_effects R file m w coverage reg :
  holds L H m w ->
  ∃ w', report_schema L H R file coverage reg w
        = (Tracer.report_schema H R file m coverage reg, w')
        ∧ extended w w'.
Proof.
  intros Hw. unfold report_schema, Tracer.report_schema.
  destruct (truthy file && negb (String.eqb (default "" file) (filename reg)));
    [exists w; split; [done|apply extended_refl]|].
  pose proof Hw as (_ & Hlogs & _).
  assert (Hent : Forall2 (λ r e, r.1 = e.1 ∧ holds_log w r.2 e.2)
                   (default [] (logs w !! store reg))
                   (_logs (Tracer.deref m (store reg)))).
  { unfold Tracer.deref.
    destruct (stores m !! store reg) as [st|] eqn:Hst.
    - destruct (Forall2_lookup_r _ _ _ _ _ Hlogs Hst) as (rs & -> & Hrs). done.
    - assert (logs w !! store reg = None) as ->; [|constructor].
      apply lookup_ge_None. apply lookup_ge_None in Hst.
      by rewrite (Forall2_length _ _ _ Hlogs). }
  destruct (fold_report_log_effects m _ _ w ([], []) Hw Hent) as (w' & E & Hext).
  exists w'. split; [|done].
  unfold bind, store_logs. cbn [fst snd]. rewrite E. cbn [fst snd].
  unfold ret, Tracer.missing_of. done.
Qed.

Lemma fold_report_schema_effects R file m : ∀ regs w coverage,
  holds L H m w ->
  ∃ w', fold_each (report_schema L H R file) regs coverage w
        = (foldl (Tracer.report_schema H R file m) coverage regs, w')
        ∧ extended w w'.
Proof.
  induction regs as [|reg regs IH]; intros w coverage Hw.
  - exists w. split; [done|apply extended_refl].
  - destruct (report_schema_effects R file m w coverage reg Hw) as (w1 & E1 & Hext1).
    destruct (IH w1 (Tracer.report_schema H R file m coverage reg)) as (w2 & E2 & Hext2);
      [by eapply holds_extended|].
    exists w2. split; [|by eapply extended_trans].
    cbn [fold_each foldl]. unfold bind. rewrite E1. cbn [fst snd]. exact E2.
Qed.

Lemma report_effects R file m w :
  holds L H m w ->
  (report L H R file w).1 = Tracer.report H R file m
  ∧ extended w (report L H R file w).2.
Proof.
  intros Hw. pose proof Hw as (Hreg & _).
  destruct (fold_report_schema_effects R file m (registry w).*2 w [] Hw)
    as (w' & E & Hext).
  unfold report, bind, schemas_values. cbn [fst snd]. rewrite E. cbn [fst snd].
  unfold ret, Tracer.report. cbn [fst snd]. by rewrite Hreg.
Qed.

End effects.

(** C8: a call of [report] changes neither the registry nor the logs nor
    any set object that was there: all it writes are the set objects it
    makes itself.  It answers what the registry, the logs and the sets
    determine (the answer of [report] as a function of them), so a second
    call right after it, for the same file or another, answers as it would
    have answered before. *)
Theorem report_pure (L : Effects.Literals_at) (H : Heap) (R : Render)
    (file : option string) (m : Memory) (w : Effects.World) :
  Effects.holds L H m w ->
  (Effects.report L H R file w).1 = Tracer.report H R file m
  ∧ Effects.registry (Effects.report L H R file w).2 = Effects.registry w
  ∧ Effects.logs (Effects.report L H R file w).2 = Effects.logs w
  ∧ (∀ a vs, Effects.sets w !! a = Some vs ->
       Effects.sets (Effects.report L H R file w).2 !! a = Some vs)
  ∧ Effects.holds L H m (Effects.report L H R file w).2
  ∧ (Effects.report L H R file (Effects.report L H R file w).2).1
    = (Effects.report L H R file w).1
  ∧ (∀ file',
       (Effects.report L H R file' (Effects.report L H R file w).2).1
       = (Effects.report L H R file' w).1).
Proof.
  intros Hw.
  destruct (report_effects L H R file m w Hw) as [Hans Hext].
  pose proof (holds_extended L H m _ _ Hext Hw) as Hw'.
  pose proof Hext as (Hr & Hl & _).
  split_and!; [done|done|done| |done| |].
  - intros a vs Ha. by eapply extended_lookup.
  - rewrite Hans. by apply report_effects.
  - intros file'.
    destruct (report_effects L H R file' m w Hw) as [-> _].
    by apply report_effects.
Qed.

Lemma report_pure_witness :
  let L := nested_literals in
  let H := nested in
  let R := example_render in
  let file := Some "schema.js" in
  let m := nested_ran in
  let w := nested_world in
  (Effects.report L H R file w).1 = Tracer.report H R file m
  ∧ Effects.registry (Effects.report L H R file w).2 = Effects.registry w
  ∧ Effects.logs (Effects.report L H R file w).2 = Effects.logs w
  ∧ (∀ a vs, Effects.sets w !! a = Some vs ->
       Effects.sets (Effects.report L H R file w).2 !! a = Some vs)
  ∧ Effects.holds L H m (Effects.report L H R file w).2
  ∧ (Effects.report L H R file (Effects.report L H R file w).2).1
    = (Effects.report L H R file w).1
  ∧ (∀ file',
       (Effects.report L H R file' (Effects.report L H R file w).2).1
       = (Effects.report L H R file' w).1).
Proof.
  intros L H R file m w. apply (report_pure L H R file m w).
  split_and!.
  - vm_compute. reflexivity.
  - repeat constructor.
  - intros k type. unfold L, nested_literals, H, nested, heap_of. simpl.
    destruct type; repeat (case_decide; subst; simpl); try done.
    exists 6%nat. split; reflexivity.
Defined.

(** The report on [nested_world] and the set objects after it: the one
    that [report] made from the literals of the innermost schema, after
    the seven that were there. *)
Example nested_world_report :
  (Effects.report nested_literals nested example_render None nested_world).1
  = Tracer.report nested example_render None nested_ran
  ∧ Effects.sets
      (Effects.report nested_literals nested example_render None nested_world).2
    = Effects.sets nested_world ++ [[VString "b"]].
Proof. vm_compute. split; reflexivity. Qed.

Lemma on_store_inv a f m ans m' :
  on_store a f m = Some (ans, m') ->
  ∃ s s', stores m !! a = Some s ∧ f s = Some s' ∧ ans = Done
          ∧ m' = mkMemory (tracer m) (<[a := s']> (stores m)) (next_array m).
Proof.
  unfold on_store. destruct (stores m !! a) as [s|]; [|done]. simpl.
  destruct (f s) as [s'|] eqn:Hf; [|done]. simpl. intros [= <- <-].
  by exists s, s'.
Qed.

Lemma step_port_inv H R fuel c m ans m' :
  step H R fuel c m = Some (ans, m') ->
  (∃ a, touches a c) ->
  ∃ a p s s', touches a c ∧ stores m !! a = Some s ∧ port_call p s = Some s'
              ∧ m' = mkMemory (tracer m) (<[a := s']> (stores m)) (next_array m).
Proof.
  intros Hstep [a Ha]. destruct c as [| b k | b src n r k | b src v k |];
    simpl in Ha; try done; subst b; simpl in Hstep;
    apply on_store_inv in Hstep as (s & s' & Hs & Hf & _ & ->).
  - exists a, (PEntry k), s, s'. by split_and!.
  - exists a, (PLog src n r k), s, s'. by split_and!.
  - exists a, (PValue src v k), s, s'. by split_and!.
Qed.

Lemma register_inv H fuel loc root m a m1 :
  Tracer._register H fuel loc root m = Some (a, m1) ->
  (∃ reg, map_get root (_schemas (tracer m)) = Some reg ∧ a = store reg ∧ m1 = m)
  ∨ (map_get root (_schemas (tracer m)) = None
     ∧ ∃ s n, Store.constructor H fuel root (next_array m) = Some (s, n)
              ∧ a = length (stores m)
              ∧ m1 = mkMemory
                       (mkTracer (tracer_name (tracer m))
                          (_schemas (tracer m)
                             ++ [(root, mkRegistration loc.1 loc.2 a)]))
                       (stores m ++ [s]) n).
Proof.
  unfold Tracer._register.
  destruct (map_get root (_schemas (tracer m))) as [reg|] eqn:Hg.
  - intros [= <- <-]. left. by exists reg.
  - destruct (Store.constructor H fuel root (next_array m)) as [[s n]|]; [|done].
    simpl. intros [= <- <-]. right. split; [done|]. by exists s, n.
Qed.

(** What one call leaves of the stores and of the registry. *)
Lemma step_preserves H R fuel c m ans m' :
  step H R fuel c m = Some (ans, m') ->
  (∀ b st, stores m !! b = Some st ->
     ∃ st', stores m' !! b = Some st' ∧ store_grows st st'
            ∧ (¬ touches b c -> st' = st))
  ∧ (∀ k reg, map_get k (_schemas (tracer m)) = Some reg ->
       map_get k (_schemas (tracer m')) = Some reg).
Proof.
  intros Hstep.
  assert (Hport : (∃ a, touches a c) ->
    (∀ b st, stores m !! b = Some st ->
       ∃ st', stores m' !! b = Some st' ∧ store_grows st st'
              ∧ (¬ touches b c -> st' = st))
    ∧ (∀ k reg, map_get k (_schemas (tracer m)) = Some reg ->
         map_get k (_schemas (tracer m')) = Some reg)).
  { intros Ht. destruct (step_port_inv _ _ _ _ _ _ _ Hstep Ht)
      as (a & p & s & s' & Ha & Hs & Hp & ->). simpl. split; [|done].
    intros b st Hb. destruct (decide (a = b)) as [->|Hne].
    - rewrite Hs in Hb. injection Hb as <-. exists s'. split_and!.
      + apply list_lookup_insert_eq. by eapply lookup_lt_Some.
      + by eapply port_call_grows.
      + intros Hn. by destruct Hn.
    - exists st. split_and!; [|apply store_grows_refl|done].
      by rewrite list_lookup_insert_ne. }
  destruct c as [loc root|a k|a src n r k|a src v k|file];
    try (apply Hport; by exists a); clear Hport.
  - simpl in Hstep.
    destruct (Tracer._register H fuel loc root m) as [[a m1]|] eqn:Hreg; [|done].
    injection Hstep as <- <-.
    apply register_inv in Hreg as [(reg & Hg & -> & ->)|(Hg & s & n & Hc & -> & ->)].
    + split; [|done]. intros b st Hb. exists st.
      split_and!; [done|apply store_grows_refl|done].
    + simpl. split.
      * intros b st Hb. exists st.
        split_and!; [|apply store_grows_refl|done].
        by apply lookup_app_l_Some.
      * intros k reg Hk. by rewrite map_get_app, Hk.
  - injection Hstep as <- <-. split; [|done]. intros b st Hb. exists st.
    split_and!; [done|apply store_grows_refl|done].
Qed.

Lemma run_preserves H R fuel cs : ∀ m answers m',
  run H R fuel cs m = Some (answers, m') ->
  (∀ b st, stores m !! b = Some st ->
     ∃ st', stores m' !! b = Some st' ∧ store_grows st st'
            ∧ ((∀ c, c ∈ cs -> ¬ touches b c) -> st' = st))
  ∧ (∀ k reg, map_get k (_schemas (tracer m)) = Some reg ->
       map_get k (_schemas (tracer m')) = Some reg).
Proof.
  induction cs as [|c cs IH]; intros m answers m'; simpl.
  - intros [= <- <-]. split; [|done]. intros b st Hb. exists st.
    split_and!; [done|apply store_grows_refl|done].
  - destruct (step H R fuel c m) as [[ans m1]|] eqn:Hstep; [|done]. simpl.
    destruct (run H R fuel cs m1) as [[anss m2]|] eqn:Hrun; [|done]. simpl.
    intros [= <- <-].
    destruct (step_preserves _ _ _ _ _ _ _ Hstep) as [Hs1 Hr1].
    destruct (IH _ _ _ Hrun) as [Hs2 Hr2]. split.
    + intros b st Hb. destruct (Hs1 _ _ Hb) as (st1 & Hb1 & Hg1 & He1).
      destruct (Hs2 _ _ Hb1) as (st2 & Hb2 & Hg2 & He2).
      exists st2. split_and!; [done|by eapply store_grows_trans|].
      intros Hno. rewrite He2, He1; [done| |].
      * apply Hno. left.
      * intros c' Hc'. apply Hno. by right.
    + intros k reg Hk. by apply Hr2, Hr1.
Qed.

(** C9: once a root is registered, registering it again, from wherever,
    answers the same store and changes nothing in memory: no store is
    made, no scan is run, no path array is built, so the answer does not
    even depend on how far a scan could go.  A root that was not registered
    gets a new store, the one the scan of the constructor builds, in a new
    registry entry.  Whatever calls follow, the root stays registered with
    that store, every store keeps its schemas and their paths, and a store
    is as it was unless an instrumentation call was made on it. *)
Theorem register_once (H : Heap) (R : Render) (fuel : nat) (loc : string * Z)
    (root : node) (m : Memory) (a : nat) (m1 : Memory) :
  step H R fuel (Register loc root) m = Some (Registered a, m1) ->
  (∀ fuel' loc',
     step H R fuel' (Register loc' root) m1 = Some (Registered a, m1))
  ∧ (map_get root (_schemas (tracer m)) = None ->
       ∃ s n, Store.constructor H fuel root (next_array m) = Some (s, n)
              ∧ a = length (stores m)
              ∧ stores m1 = stores m ++ [s]
              ∧ next_array m1 = n
              ∧ _schemas (tracer m1)
                = _schemas (tracer m) ++ [(root, mkRegistration loc.1 loc.2 a)])
  ∧ (∀ reg, map_get root (_schemas (tracer m)) = Some reg ->
       a = store reg ∧ m1 = m)
  ∧ (∀ fuel' cs answers m2, run H R fuel' cs m1 = Some (answers, m2) ->
       (∃ reg, map_get root (_schemas (tracer m2)) = Some reg ∧ store reg = a)
       ∧ ∀ b st, stores m1 !! b = Some st ->
           ∃ st', stores m2 !! b = Some st'
                  ∧ topology st' = topology st
                  ∧ ((∀ c, c ∈ cs -> ¬ touches b c) -> st' = st)).
Proof.
  intros Hstep. simpl in Hstep.
  destruct (Tracer._register H fuel loc root m) as [[a' m1']|] eqn:Hreg; [|done].
  injection Hstep as -> ->.
  assert (Hreg1 : ∃ reg, map_get root (_schemas (tracer m1)) = Some reg ∧ store reg = a).
  { apply register_inv in Hreg as [(reg & Hg & -> & ->)|(Hg & s & n & Hc & -> & ->)].
    - by exists reg.
    - simpl. rewrite map_get_app, Hg. simpl. rewrite decide_True by done.
      by eexists. }
  split_and!.
  - intros fuel' loc'. simpl. unfold Tracer._register.
    destruct Hreg1 as (reg & -> & <-). done.
  - intros Hnone.
    apply register_inv in Hreg as [(reg & Hg & _)|(Hg & s & n & Hc & -> & ->)];
      [congruence|].
    by exists s, n.
  - intros reg Hsome.
    apply register_inv in Hreg as [(reg' & Hg & -> & ->)|(Hg & _)]; [|congruence].
    split; congruence.
  - intros fuel' cs answers m2 Hrun.
    destruct (run_preserves _ _ _ _ _ _ _ Hrun) as [Hs Hr]. split.
    + destruct Hreg1 as (reg & Hg & <-). exists reg. split; [by apply Hr|done].
    + intros b st Hb. destruct (Hs _ _ Hb) as (st' & Hb' & (_ & Ht & _) & He).
      by exists st'.
Qed.

Lemma register_once_witness :
  let H := nested in
  let R := example_render in
  let root := 1%positive in
  let loc := ("schema.js", 12) in
  let m := initial in
  let m1 := nested_registered in
  let a := 0%nat in
  (∀ fuel' loc',
     step H R fuel' (Register loc' root) m1 = Some (Registered a, m1))
  ∧ (map_get root (_schemas (tracer m)) = None ->
       ∃ s n, Store.constructor H 10 root (next_array m) = Some (s, n)
              ∧ a = length (stores m)
              ∧ stores m1 = stores m ++ [s]
              ∧ next_array m1 = n
              ∧ _schemas (tracer m1)
                = _schemas (tracer m) ++ [(root, mkRegistration loc.1 loc.2 a)])
  ∧ (∀ reg, map_get root (_schemas (tracer m)) = Some reg ->
       a = store reg ∧ m1 = m)
  ∧ (∀ fuel' cs answers m2, run H R fuel' cs m1 = Some (answers, m2) ->
       (∃ reg, map_get root (_schemas (tracer m2)) = Some reg ∧ store reg = a)
       ∧ ∀ b st, stores m1 !! b = Some st ->
           ∃ st', stores m2 !! b = Some st'
                  ∧ topology st' = topology st
                  ∧ ((∀ c, c ∈ cs -> ¬ touches b c) -> st' = st)).
Proof.
  intros H R root loc m m1 a.
  apply (register_once H R 10 loc root m a m1).
  vm_compute. reflexivity.
Defined.

(** ** A test suite on [nested] *)

(** The root is registered and reported on before any run, then a run
    enters the three schemas, fails the rule of the innermost one and
    matches its literal ["a"]; the report then lists the literal ["b"] and
    the rule that always failed, and nothing for a file that holds no
    schema. *)
Example nested_suite :
  fst <$> run nested example_render 10
            [Register ("schema.js", 12) 1%positive;
             Report None;
             Entry 0 1%positive; Entry 0 2%positive; Entry 0 3%positive;
             LogRule 0 Store.src_rule "min" internals.error 3%positive;
             RecordValue 0 Store.valid (VString "a") 3%positive;
             Report None;
             Report (Some "other.js")]
            initial
  = Some
      [Registered 0;
       Reported (Some
         [mkCoverage "schema.js" 12
            [mkMissing (Label "never reached") None (Some []);
             mkMissing (Label "never reached") None (Some [mkArray 1 [VString "a"]])]
            "error"
            "Schema missing tests for  (never reached), a (never reached)"]);
       Done; Done; Done; Done; Done;
       Reported (Some
         [mkCoverage "schema.js" 12
            [mkMissing (Literals [VString "b"]) (Some "valids") None;
             mkMissing (Label "always error") (Some "min")
               (Some [mkArray 2 [VString "a"; VString "b"]])]
            "error"
            "Schema missing tests for valids (b), a.b:min (always error)"]);
       Reported None].
Proof. vm_compute. reflexivity. Qed.

(** ** What the report depends on *)

Lemma port_calls_entry ps : ∀ s s' k l l',
  port_calls ps s = Some s' ->
  map_get k (_logs s) = Some l -> map_get k (_logs s') = Some l' ->
  log_entry l' = true <-> log_entry l = true ∨ PEntry k ∈ ps.
Proof.
  induction ps as [|p ps IH]; intros s s' k l l'; simpl.
  - intros [= <-] E1 E2. rewrite E1 in E2. injection E2 as <-.
    split; [by left | intros [?|[]%elem_of_nil]; done].
  - destruct (port_call p s) as [s1|] eqn:Hp; [|done]. simpl. intros Hps Hg Hg'.
    apply (port_call_get _ _ _ k) in Hp. rewrite Hg in Hp.
    rewrite elem_of_cons. destruct (decide (port_schema p = k)) as [Hk|Hk]; simpl in Hp.
    + rewrite (IH _ _ _ _ _ Hps Hp Hg').
      destruct p as [k'|src n r k'|src v k']; simpl in *.
      * subst k'. naive_solver.
      * naive_solver.
      * destruct src; naive_solver.
    + rewrite (IH _ _ _ _ _ Hps Hp Hg').
      split; [intros [?|?]; eauto | intros [?|[E|?]]; eauto].
      subst p. by simpl in Hk.
Qed.

Lemma logged_elem ps name k r :
  r ∈ logged ps name k <-> ∃ source, PLog source name r k ∈ ps.
Proof.
  unfold logged. rewrite list_elem_of_omap. split.
  - intros ([k'|src n r' k'|src v k'] & Hin & Hr); try done.
    case_decide as Hd; [|done]. destruct Hd as [-> ->]. injection Hr as ->. eauto.
  - intros [src Hin]. exists (PLog src name r k). split; [done|].
    by rewrite decide_True.
Qed.

Lemma outcome_mask_same rs1 rs2 :
  (∀ r, r ∈ rs1 <-> r ∈ rs2) -> outcome_mask rs1 = outcome_mask rs2.
Proof.
  intros Hrs. rewrite !outcome_mask_cases.
  repeat case_decide; try done; exfalso; rewrite ?Hrs in *; tauto.
Qed.

Lemma contribution_alike H sk k l1 l2 :
  alike l1 l2 ->
  contribution H sk (k, l1) = contribution H sk (k, l2)
  ∧ skipped_after sk (k, l1) = skipped_after sk (k, l2).
Proof.
  intros (Hp & He & Hm & Hv & Hi). unfold contribution, skipped_after, never_reached.
  cbn [fst snd]. rewrite Hp, He, !check_values_gap.
  rewrite (values_gap_same _ _ _ _ Hv), (values_gap_same _ _ _ _ Hi).
  assert (Hr : ∀ name, Tracer.check_rule l1 name = Tracer.check_rule l2 name).
  { intros name. unfold Tracer.check_rule, Tracer.rule_status, get_property.
    by rewrite Hm, Hp. }
  assert (Hb : ∀ names, names ≫= Tracer.check_rule l1 = names ≫= Tracer.check_rule l2).
  { induction names as [|n names IH]; [done|]. csimpl. by rewrite Hr, IH. }
  by rewrite Hb.
Qed.

Lemma loop_alike H logs1 logs2 :
  Forall2 (λ e1 e2, e1.1 = e2.1 ∧ alike e1.2 e2.2) logs1 logs2 ->
  ∀ acc, foldl (Tracer.report_log H) acc logs1 = foldl (Tracer.report_log H) acc logs2.
Proof.
  induction 1 as [|[k1 l1] [k2 l2] logs1 logs2 [Hk Ha] _ IH]; [done|].
  intros [m sk]. cbn [foldl]. simpl in Hk, Ha. subst k2.
  rewrite !report_log_split.
  destruct (contribution_alike H sk k1 l1 l2 Ha) as [-> ->]. apply IH.
Qed.

Lemma map_get_Forall2 {V} (R : V -> V -> Prop) (m1 m2 : list (node * V)) :
  NoDup m1.*1 -> m1.*1 = m2.*1 ->
  (∀ k v1 v2, map_get k m1 = Some v1 -> map_get k m2 = Some v2 -> R v1 v2) ->
  Forall2 (λ e1 e2, e1.1 = e2.1 ∧ R e1.2 e2.2) m1 m2.
Proof.
  revert m2. induction m1 as [|[k v1] m1 IH]; intros [|[k2 v2] m2]; try done.
  csimpl. intros [Hk Hnd]%NoDup_cons [= <- Hkeys] HR. constructor.
  - split; [done|]. apply (HR k); simpl; by rewrite decide_True.
  - apply IH; [done|done|]. intros k' w1 w2 H1 H2.
    assert (k ≠ k').
    { intros <-. apply Hk. apply map_get_Some_elem in H1.
      apply list_elem_of_fmap. by exists (k, w1). }
    apply (HR k'); simpl; by rewrite decide_False.
Qed.

Lemma missing_same_calls (H : Heap) (s0 s1 s2 : StoreObj) (ps1 ps2 : list port) :
  NoDup (_logs s0).*1 ->
  port_calls ps1 s0 = Some s1 ->
  port_calls ps2 s0 = Some s2 ->
  (∀ p, p ∈ ps1 <-> p ∈ ps2) ->
  Tracer.missing_of H s1 = Tracer.missing_of H s2.
Proof.
  intros Hnd H1 H2 Hps. unfold Tracer.missing_of. f_equal. apply loop_alike.
  pose proof (port_calls_keys _ _ _ H1) as Hk1.
  pose proof (port_calls_keys _ _ _ H2) as Hk2.
  apply map_get_Forall2; [by rewrite Hk1|by rewrite Hk1, Hk2|].
  intros k l1 l2 Hg1 Hg2.
  destruct (map_get k (_logs s0)) as [l0|] eqn:Hg0.
  2:{ apply map_get_None in Hg0. rewrite <- Hk1 in Hg0.
      apply map_get_None in Hg0. congruence. }
  destruct (port_calls_grows _ _ _ H1) as (_ & _ & Hgr1).
  destruct (port_calls_grows _ _ _ H2) as (_ & _ & Hgr2).
  destruct (Hgr1 _ _ Hg0) as (l1' & E1 & Hp1 & _).
  destruct (Hgr2 _ _ Hg0) as (l2' & E2 & Hp2 & _).
  rewrite Hg1 in E1. rewrite Hg2 in E2. simplify_eq.
  assert (Hlog : ∀ name, logged ps1 name k = [] <-> logged ps2 name k = []).
  { assert (Hsame : ∀ name r, r ∈ logged ps1 name k <-> r ∈ logged ps2 name k).
    { intros name r. rewrite !logged_elem. by setoid_rewrite Hps. }
    intros name. split; intros Hnil.
    - destruct (logged ps2 name k) as [|r rs] eqn:E; [done|].
      assert (r ∈ logged ps1 name k) as Hr by (apply Hsame; rewrite E; left).
      rewrite Hnil in Hr. by apply elem_of_nil in Hr.
    - destruct (logged ps1 name k) as [|r rs] eqn:E; [done|].
      assert (r ∈ logged ps2 name k) as Hr by (apply Hsame; rewrite E; left).
      rewrite Hnil in Hr. by apply elem_of_nil in Hr. }
  split_and!.
  - congruence.
  - pose proof (port_calls_entry _ _ _ _ _ _ H1 Hg0 Hg1) as He1.
    pose proof (port_calls_entry _ _ _ _ _ _ H2 Hg0 Hg2) as He2.
    rewrite Hps in He1. rewrite <- He2 in He1.
    destruct (log_entry l1'), (log_entry l2'); try done; naive_solver.
  - intros name. destruct (decide (name = "__proto__")) as [->|Hname].
    { rewrite (port_calls_proto _ _ _ _ _ _ H1 Hg0 Hg1).
      by rewrite (port_calls_proto _ _ _ _ _ _ H2 Hg0 Hg2). }
    pose proof (port_calls_own _ _ _ _ _ _ name Hname H1 Hg0 Hg1) as Ho1.
    pose proof (port_calls_own _ _ _ _ _ _ name Hname H2 Hg0 Hg2) as Ho2.
    pose proof (port_calls_mask _ _ _ _ _ _ name Hname H1 Hg0 Hg1) as Hm1.
    pose proof (port_calls_mask _ _ _ _ _ _ name Hname H2 Hg0 Hg2) as Hm2.
    assert (Hm : mask l1' name = mask l2' name).
    { rewrite Hm1, Hm2. f_equal. apply outcome_mask_same.
      intros r. rewrite !logged_elem. by setoid_rewrite Hps. }
    unfold mask in Hm. rewrite Hlog in Ho1. rewrite <- Ho2 in Ho1.
    destruct (log_rule l1' !! name), (log_rule l2' !! name); simpl in Hm;
      naive_solver.
  - intros v.
    rewrite (port_calls_observed _ _ _ _ _ _ Store.valid v H1 Hg0 Hg1).
    rewrite (port_calls_observed _ _ _ _ _ _ Store.valid v H2 Hg0 Hg2).
    by rewrite Hps.
  - intros v.
    rewrite (port_calls_observed _ _ _ _ _ _ Store.invalid v H1 Hg0 Hg1).
    rewrite (port_calls_observed _ _ _ _ _ _ Store.invalid v H2 Hg0 Hg2).
    by rewrite Hps.
Qed.

(** ** A reached schema in the loop of [report] *)

Lemma skipped_after_reached sk e :
  log_entry e.2 = true -> skipped_after sk e = sk.
Proof. unfold skipped_after. intros ->. by destruct (internals.sub _ _). Qed.

Lemma missing_of_reached H s before k l after :
  _logs s = before ++ (k, l) :: after ->
  log_entry l = true ->
  internals.sub (log_paths l) (loop H before).2 = false ->
  Tracer.missing_of H s =
    (loop H before).1
      ++ values_gap (_valids (H k)) (log_valid l) "valids"
      ++ values_gap (_invalids (H k)) (log_invalid l) "invalids"
      ++ (Tracer.rules (H k) ≫= Tracer.check_rule l)
      ++ (foldl (Tracer.report_log H) ([], (loop H before).2) after).1.
Proof.
  intros E He Hs. rewrite (missing_of_split H s before (k, l) after E).
  rewrite (contribution_reached H _ k l He Hs), skipped_after_reached by done.
  by rewrite <- !app_assoc.
Qed.

Lemma missing_of_passed_over H s before k l after :
  _logs s = before ++ (k, l) :: after ->
  internals.sub (log_paths l) (loop H before).2 = true ->
  Tracer.missing_of H s =
    (loop H before).1
      ++ (foldl (Tracer.report_log H) ([], (loop H before).2) after).1.
Proof.
  intros E Hs. rewrite (missing_of_split H s before (k, l) after E).
  unfold contribution, skipped_after. simpl. by rewrite Hs.
Qed.


Lemma values_gap_elem set obs rule item :
  item ∈ values_gap set obs rule ->
  ∃ set', set = Some set' ∧ unobserved (_set set') obs ≠ []
          ∧ item = mkMissing (Literals (unobserved (_set set') obs)) (Some rule) None.
Proof.
  unfold values_gap. destruct set as [set'|]; [|by intros []%elem_of_nil].
  destruct (unobserved (_set set') obs) as [|v vs] eqn:E;
    [by intros []%elem_of_nil|].
  intros ->%list_elem_of_singleton. exists set'. by rewrite E.
Qed.


(** ** Gaps of rules *)




(** ** Gaps of literals *)

(** C4, as the code has it: take a schema that was reached.  When the
    skip check does not pass it over, the list [missing] is what the logs
    before it gave, then one gap for its allow-list and one for its
    deny-list, then the gaps of its rules, then what the logs after it
    give.  The gap of a list is there when the list is declared and some of
    its literals were not observed, its status being the declared literals
    that were not observed, in declared order; there is none when all
    were observed or no list is declared.  The observed set holds exactly
    the values recorded, and [missing] is the same for two sequences of
    calls with the same members, whatever their order and repetitions.
    When the skip check passes the schema over, it adds nothing to
    [missing]. *)
Theorem report_missing_values (H : Heap) (s : StoreObj)
    (before after : list (node * Log)) (k : node) (l : Log) :
  NoDup (_logs s).*1 ->
  _logs s = before ++ (k, l) :: after ->
  log_entry l = true ->
  (internals.sub (log_paths l) (loop H before).2 = false ->
     Tracer.missing_of H s =
       (loop H before).1
         ++ values_gap (_valids (H k)) (log_valid l) "valids"
         ++ values_gap (_invalids (H k)) (log_invalid l) "invalids"
         ++ (Tracer.rules (H k) ≫= Tracer.check_rule l)
         ++ (foldl (Tracer.report_log H) ([], (loop H before).2) after).1)
  ∧ (internals.sub (log_paths l) (loop H before).2 = false ->
     ∀ source,
       (∀ set, declared source (H k) = Some set ->
          unobserved (_set set) (observed source l) ≠ [] ->
          mkMissing (Literals (unobserved (_set set) (observed source l)))
            (Some (literal_rule source)) None ∈ Tracer.missing_of H s)
       ∧ ((declared source (H k) = None
           ∨ ∃ set, declared source (H k) = Some set
                    ∧ unobserved (_set set) (observed source l) = []) ->
          ∀ vs,
            mkMissing (Literals vs) (Some (literal_rule source)) None
            ∉ values_gap (_valids (H k)) (log_valid l) "valids"
              ++ values_gap (_invalids (H k)) (log_invalid l) "invalids"
              ++ (Tracer.rules (H k) ≫= Tracer.check_rule l)))
  ∧ (∀ declared observed v,
       v ∈ unobserved declared observed <-> v ∈ declared ∧ v ∉ observed)
  ∧ (internals.sub (log_paths l) (loop H before).2 = true ->
     Tracer.missing_of H s =
       (loop H before).1
         ++ (foldl (Tracer.report_log H) ([], (loop H before).2) after).1)
  ∧ (∀ s0 ps l0 source v, port_calls ps s0 = Some s ->
       map_get k (_logs s0) = Some l0 ->
       v ∈ observed source l <->
         v ∈ observed source l0 ∨ PValue source v k ∈ ps)
  ∧ (∀ s0 ps ps' s', port_calls ps s0 = Some s ->
       port_calls ps' s0 = Some s' ->
       (∀ p, p ∈ ps <-> p ∈ ps') ->
       Tracer.missing_of H s' = Tracer.missing_of H s).
Proof.
  intros Hnd E He.
  assert (Hg : map_get k (_logs s) = Some l).
  { apply map_get_elem; [done|]. rewrite E. apply elem_of_app. right. left. }
  split_and!.
  - by apply missing_of_reached.
  - intros Hs source. split.
    + intros set Hd Hne. rewrite (missing_of_reached H s before k l after E He Hs).
      assert (Hgap : values_gap (declared source (H k)) (observed source l)
                       (literal_rule source)
                     = [mkMissing (Literals (unobserved (_set set) (observed source l)))
                          (Some (literal_rule source)) None]).
      { rewrite Hd. unfold values_gap.
        by destruct (unobserved (_set set) (observed source l)). }
      destruct source; simpl in Hgap; rewrite !elem_of_app, Hgap;
        [right; left; left | right; right; left; left].
    + intros Hnone vs. rewrite !elem_of_app. intros [Hv|[Hv|Hr]].
      * apply values_gap_elem in Hv as (set' & Hd & Hne & Eq).
        destruct source; [|done]. injection Eq as ->.
        destruct Hnone as [Hn|(set & Hd' & Hu)]; simpl in *; [congruence|].
        rewrite Hd in Hd'. injection Hd' as ->. done.
      * apply values_gap_elem in Hv as (set' & Hd & Hne & Eq).
        destruct source; [done|]. injection Eq as ->.
        destruct Hnone as [Hn|(set & Hd' & Hu)]; simpl in *; [congruence|].
        rewrite Hd in Hd'. injection Hd' as ->. done.
      * apply list_elem_of_bind in Hr as (name & Hr & _).
        unfold Tracer.check_rule in Hr.
        destruct (Tracer.rule_status l name); [|by apply elem_of_nil in Hr].
        by apply list_elem_of_singleton in Hr.
  - apply unobserved_elem.
  - by apply (missing_of_passed_over H s before k l after).
  - intros s0 ps l0 source v Hps Hg0. by eapply port_calls_observed.
  - intros s0 ps ps' s' Hps Hps' Hsame.
    apply (missing_same_calls H s0 s' s ps' ps); [|done|done|by intros p].
    by rewrite <- (port_calls_keys _ _ _ Hps).
Qed.

Lemma report_missing_values_witness :
  let s := nested_run in
  let before := take 2 (_logs s) in
  let after := drop 3 (_logs s) in
  let k := 3%positive in
  let l := default Store.new_log (map_get k (_logs s)) in
  let H := nested in
  (internals.sub (log_paths l) (loop H before).2 = false ->
     Tracer.missing_of H s =
       (loop H before).1
         ++ values_gap (_valids (H k)) (log_valid l) "valids"
         ++ values_gap (_invalids (H k)) (log_invalid l) "invalids"
         ++ (Tracer.rules (H k) ≫= Tracer.check_rule l)
         ++ (foldl (Tracer.report_log H) ([], (loop H before).2) after).1)
  ∧ (internals.sub (log_paths l) (loop H before).2 = false ->
     ∀ source,
       (∀ set, declared source (H k) = Some set ->
          unobserved (_set set) (observed source l) ≠ [] ->
          mkMissing (Literals (unobserved (_set set) (observed source l)))
            (Some (literal_rule source)) None ∈ Tracer.missing_of H s)
       ∧ ((declared source (H k) = None
           ∨ ∃ set, declared source (H k) = Some set
                    ∧ unobserved (_set set) (observed source l) = []) ->
          ∀ vs,
            mkMissing (Literals vs) (Some (literal_rule source)) None
            ∉ values_gap (_valids (H k)) (log_valid l) "valids"
              ++ values_gap (_invalids (H k)) (log_invalid l) "invalids"
              ++ (Tracer.rules (H k) ≫= Tracer.check_rule l)))
  ∧ (∀ declared observed v,
       v ∈ unobserved declared observed <-> v ∈ declared ∧ v ∉ observed)
  ∧ (internals.sub (log_paths l) (loop H before).2 = true ->
     Tracer.missing_of H s =
       (loop H before).1
         ++ (foldl (Tracer.report_log H) ([], (loop H before).2) after).1)
  ∧ (∀ s0 ps l0 source v, port_calls ps s0 = Some s ->
       map_get k (_logs s0) = Some l0 ->
       v ∈ observed source l <->
         v ∈ observed source l0 ∨ PValue source v k ∈ ps)
  ∧ (∀ s0 ps ps' s', port_calls ps s0 = Some s ->
       port_calls ps' s0 = Some s' ->
       (∀ p, p ∈ ps <-> p ∈ ps') ->
       Tracer.missing_of H s' = Tracer.missing_of H s).
Proof.
  intros s before after k l H.
  apply (report_missing_values H s before after k l).
  - apply (bool_decide_unpack _). vm_compute. reflexivity.
  - vm_compute. reflexivity.
  - vm_compute. reflexivity.
Defined.

(** The gap of the allow-list of [nested] after [nested_run]: the literal
    ["b"], ["a"] having been observed. *)
Example nested_run_missing_valids :
  mkMissing (Literals [VString "b"]) (Some "valids") None
    ∈ Tracer.missing_of nested nested_run.
Proof. apply (bool_decide_unpack _). vm_compute. reflexivity. Qed.

(** Two runs on [nested] that observe the same literals in another order,
    one of them twice: the observed sets differ in order, the gaps do not. *)
Example observation_order :
  let first := store_after nested 10 1%positive
                 [PEntry 1%positive; PEntry 2%positive; PEntry 3%positive;
                  PValue Store.valid (VString "b") 3%positive;
                  PValue Store.valid (VString "c") 3%positive] in
  let second := store_after nested 10 1%positive
                  [PEntry 1%positive; PEntry 2%positive; PEntry 3%positive;
                   PValue Store.valid (VString "c") 3%positive;
                   PValue Store.valid (VString "b") 3%positive;
                   PValue Store.valid (VString "c") 3%positive] in
  (Tracer.missing_of nested <$> first) = (Tracer.missing_of nested <$> second)
  ∧ (Tracer.missing_of nested <$> first)
    = Some [mkMissing (Literals [VString "a"]) (Some "valids") None;
            mkMissing (Label "never used") (Some "min")
              (Some [mkArray 2 [VString "a"; VString "b"]])]
  ∧ first ≠ second.
Proof. vm_compute. split_and!; [reflexivity..|discriminate]. Qed.

(** C4 as stated fails for a reached schema that the skip check passes
    over: after a run through the second branch of [two_branches], the
    shared item was reached and none of its literals was observed, but the
    report has no gap for them. *)
Lemma reached_literals_without_gap :
  ¬ (∀ (H : Heap) (fuel : nat) (root : node) (ps : list port) s k l set,
       store_after H fuel root ps = Some s ->
       map_get k (_logs s) = Some l ->
       log_entry l = true ->
       _valids (H k) = Some set ->
       unobserved (_set set) (log_valid l) ≠ [] ->
       mkMissing (Literals (unobserved (_set set) (log_valid l)))
         (Some "valids") None ∈ Tracer.missing_of H s).
Proof.
  intros Hall.
  specialize (Hall two_branches 10%nat 1%positive
                [PEntry 1%positive; PEntry 3%positive; PEntry 4%positive]).
  fold second_branch_run in Hall.
  destruct second_branch_run as [s|] eqn:Hrun; [|by vm_compute in Hrun].
  vm_compute in Hrun. injection Hrun as <-.
  specialize (Hall _ 4%positive _ _ eq_refl eq_refl eq_refl eq_refl).
  assert (Hne : unobserved [VString "a"; VString "b"] [] ≠ []) by (by vm_compute).
  specialize (Hall Hne).
  by_evaluation Hall.
Qed.

(** * Further properties *)

(** ** [internals.sub] *)

(** X1: [internals.sub(paths, skipped)] is true exactly when the segments
    of some skipped path are a prefix of the segments of some path, equal
    paths included; array identity plays no part.  It is false when either
    list is empty, a skipped path without segments matches every path,
    and more paths or more skipped paths never turn true into false. *)
Theorem sub_prefix (paths skipped : list Array) :
  (internals.sub paths skipped = true <->
     ∃ p skip, p ∈ paths ∧ skip ∈ skipped ∧ elems skip `prefix_of` elems p)
  ∧ internals.sub [] skipped = false
  ∧ internals.sub paths [] = false
  ∧ (∀ a, paths ≠ [] -> internals.sub paths (skipped ++ [mkArray a []]) = true)
  ∧ (∀ p, p ∈ paths -> internals.sub paths (skipped ++ [p]) = true)
  ∧ (∀ paths' skipped', paths ⊆ paths' -> skipped ⊆ skipped' ->
       internals.sub paths skipped = true ->
       internals.sub paths' skipped' = true).
Proof.
  split_and!.
  - apply sub_true.
  - done.
  - apply sub_nil.
  - intros a Hne. apply sub_true. destruct paths as [|p ps]; [done|].
    exists p, (mkArray a []). split_and!; [left| |unfold extends; apply prefix_nil].
    apply elem_of_app. right. left.
  - intros p Hp. apply sub_true. exists p, p.
    split_and!; [done| |unfold extends; reflexivity].
    apply elem_of_app. right. left.
  - intros paths' skipped' Hp Hs. rewrite !sub_true.
    intros (p & skip & ? & ? & ?). exists p, skip. split_and!; auto.
Qed.

(** ** The gaps of any store *)

Lemma contribution_gap_of H sk e item :
  item ∈ contribution H sk e -> gap_of H e item.
Proof.
  unfold contribution. destruct (internals.sub _ _); [by intros []%elem_of_nil|].
  destruct (log_entry e.2) eqn:He; simpl.
  - rewrite !check_values_gap, !elem_of_app. intros [Hin|[Hin|Hin]].
    + unfold values_gap in Hin. destruct (_valids (H e.1)) as [set|] eqn:Hd;
        [|by apply elem_of_nil in Hin].
      destruct (unobserved (_set set) (log_valid e.2)) eqn:Hu;
        [by apply elem_of_nil in Hin|].
      apply list_elem_of_singleton in Hin as ->. rewrite <- Hu.
      apply (gap_literals H e Store.valid set); [done|done|]. simpl. by rewrite Hu.
    + unfold values_gap in Hin. destruct (_invalids (H e.1)) as [set|] eqn:Hd;
        [|by apply elem_of_nil in Hin].
      destruct (unobserved (_set set) (log_invalid e.2)) eqn:Hu;
        [by apply elem_of_nil in Hin|].
      apply list_elem_of_singleton in Hin as ->. rewrite <- Hu.
      apply (gap_literals H e Store.invalid set); [done|done|]. simpl. by rewrite Hu.
    + apply list_elem_of_bind in Hin as (name & Hin & Hname).
      rewrite check_rule_mask in Hin.
      destruct (decide (inherited e.2 name)); [by apply elem_of_nil in Hin|].
      destruct (internals.labels (mask e.2 name)) as [label|] eqn:Hl;
        [|by apply elem_of_nil in Hin].
      apply list_elem_of_singleton in Hin as ->. by apply gap_rule.
  - intros ->%list_elem_of_singleton. by apply gap_never.
Qed.

(** X2: every gap of the list [missing] that [report] builds for a store
    is a gap of one log of that store, of one of three shapes: for a schema
    that was not entered, the status "never reached" with all its paths
    and no rule; for a schema that was entered, the literals of a declared
    list that were not observed (at least one) under the rule "valids" or
    "invalids" and without paths; or one of its rule names (or "default",
    "failover") with the label of its mask, which is "never used",
    "always error" or "always pass", and with the paths of the log when it
    has some. *)
Theorem missing_shapes (H : Heap) (s : StoreObj) (item : Missing) :
  item ∈ Tracer.missing_of H s ->
  ∃ e, e ∈ _logs s ∧ gap_of H e item
       ∧ (status item = Label "never reached"
          ∧ rule item = None ∧ paths item = Some (log_paths e.2)
          ∧ log_entry e.2 = false
          ∨ (∃ vs, status item = Literals vs ∧ vs ≠ [])
            ∧ (rule item = Some "valids" ∨ rule item = Some "invalids")
            ∧ paths item = None ∧ log_entry e.2 = true
          ∨ (∃ name label, status item = Label label ∧ rule item = Some name
               ∧ name ∈ Tracer.rules (H e.1)
               ∧ label ∈ ["never used"; "always error"; "always pass"])
            ∧ (paths item = None ∧ log_paths e.2 = []
               ∨ paths item = Some (log_paths e.2) ∧ log_paths e.2 ≠ [])
            ∧ log_entry e.2 = true).
Proof.
  intros Hin. apply missing_of_origin in Hin as (before & e & after & E & Hin).
  apply contribution_gap_of in Hin. exists e. split_and!; [|done|].
  { rewrite E. apply elem_of_app. right. left. }
  destruct Hin as [He|source set He Hd Hu|name label He Hname Hl].
  - left. by split_and!.
  - right. left. split_and!; [by eexists| |done|done].
    destruct source; [by left|by right].
  - right. right. split_and!; [|unfold rule_gap; simpl|done].
    + exists name, label. split_and!; [done|done|done|].
      unfold internals.labels in Hl.
      repeat case_decide; simplify_eq; set_solver.
    + destruct (log_paths e.2); case_decide; naive_solver.
Qed.

Lemma missing_shapes_witness :
  let H := nested in
  let s := nested_run in
  let item := mkMissing (Label "always error") (Some "min")
                (Some (log_paths (default Store.new_log
                                    (map_get 3%positive (_logs nested_run))))) in
  ∃ e, e ∈ _logs s ∧ gap_of H e item
       ∧ (status item = Label "never reached"
          ∧ rule item = None ∧ paths item = Some (log_paths e.2)
          ∧ log_entry e.2 = false
          ∨ (∃ vs, status item = Literals vs ∧ vs ≠ [])
            ∧ (rule item = Some "valids" ∨ rule item = Some "invalids")
            ∧ paths item = None ∧ log_entry e.2 = true
          ∨ (∃ name label, status item = Label label ∧ rule item = Some name
               ∧ name ∈ Tracer.rules (H e.1)
               ∧ label ∈ ["never used"; "always error"; "always pass"])
            ∧ (paths item = None ∧ log_paths e.2 = []
               ∨ paths item = Some (log_paths e.2) ∧ log_paths e.2 ≠ [])
            ∧ log_entry e.2 = true).
Proof.
  intros H s item. apply (missing_shapes H s item).
  apply (bool_decide_unpack _). vm_compute. reflexivity.
Defined.

Lemma contribution_nil H e :
  contribution H [] e = [] <-> covered H e.
Proof.
  unfold contribution, covered. rewrite sub_nil.
  destruct (log_entry e.2) eqn:He; simpl; [|naive_solver].
  rewrite !check_values_gap. split.
  - intros (Hv & (Hi & Hr)%app_eq_nil)%app_eq_nil. split_and!; [done| |].
    + intros source set Hd v Hv'. destruct source; simpl in *; rewrite Hd in *.
      * unfold values_gap in Hv.
        destruct (unobserved (_set set) (log_valid e.2)) eqn:Hu; [|done].
        destruct (decide (v ∈ log_valid e.2)) as [|Hn]; [done|].
        assert (Hin : v ∈ unobserved (_set set) (log_valid e.2))
          by by apply unobserved_elem.
        rewrite Hu in Hin. by apply elem_of_nil in Hin.
      * unfold values_gap in Hi.
        destruct (unobserved (_set set) (log_invalid e.2)) eqn:Hu; [|done].
        destruct (decide (v ∈ log_invalid e.2)) as [|Hn]; [done|].
        assert (Hin : v ∈ unobserved (_set set) (log_invalid e.2))
          by by apply unobserved_elem.
        rewrite Hu in Hin. by apply elem_of_nil in Hin.
    + intros name Hname. apply check_rule_nil.
      destruct (Tracer.check_rule e.2 name) as [|item items] eqn:Hc; [done|].
      assert (Hin : item ∈ Tracer.rules (H e.1) ≫= Tracer.check_rule e.2).
      { apply list_elem_of_bind. exists name. split; [|done]. rewrite Hc. left. }
      rewrite Hr in Hin. by apply elem_of_nil in Hin.
  - intros (_ & Hv & Hr).
    assert (Hgap : ∀ source set, declared source (H e.1) = Some set ->
              unobserved (_set set) (observed source e.2) = []).
    { intros source set Hd.
      destruct (unobserved (_set set) (observed source e.2)) as [|v vs] eqn:Hu; [done|].
      assert (Hin : v ∈ unobserved (_set set) (observed source e.2))
        by (rewrite Hu; left).
      apply unobserved_elem in Hin as [Hin Hn]. by apply (Hv _ _ Hd) in Hin. }
    apply app_nil. split; [|apply app_nil; split].
    + unfold values_gap. destruct (_valids (H e.1)) as [set|] eqn:Hd; [|done].
      pose proof (Hgap Store.valid set Hd) as Hu. simpl in Hu. by rewrite Hu.
    + unfold values_gap. destruct (_invalids (H e.1)) as [set|] eqn:Hd; [|done].
      pose proof (Hgap Store.invalid set Hd) as Hu. simpl in Hu. by rewrite Hu.
    + destruct (Tracer.rules (H e.1) ≫= Tracer.check_rule e.2) as [|item items] eqn:Hb;
        [done|].
      assert (Hin : item ∈ Tracer.rules (H e.1) ≫= Tracer.check_rule e.2)
        by (rewrite Hb; left).
      apply list_elem_of_bind in Hin as (name & Hin & Hname).
      rewrite (proj2 (check_rule_nil e.2 name) (Hr name Hname)) in Hin.
      by apply elem_of_nil in Hin.
Qed.

Lemma loop_covered H logs :
  (∀ e, e ∈ logs -> covered H e) -> loop H logs = ([], []).
Proof.
  induction logs as [|e logs IH] using rev_ind; [done|]. intros Hall.
  rewrite loop_snoc, IH; [|intros e' He'; apply Hall, elem_of_app; by left].
  cbn [fst snd].
  assert (Hcov : covered H e) by (apply Hall, elem_of_app; right; left).
  rewrite (proj2 (contribution_nil H e) Hcov).
  unfold skipped_after. rewrite sub_nil. by rewrite (proj1 Hcov).
Qed.

Lemma loop_nil H logs :
  (loop H logs).1 = [] -> ∀ e, e ∈ logs -> covered H e.
Proof.
  induction logs as [|e logs IH] using rev_ind; [by intros _ e []%elem_of_nil|].
  rewrite loop_snoc. cbn [fst snd]. intros [Hm Hc]%app_eq_nil.
  specialize (IH Hm). rewrite (loop_covered H logs IH) in Hc.
  apply contribution_nil in Hc.
  intros e' [?| ->%list_elem_of_singleton]%elem_of_app; auto.
Qed.

(** X3: the list [missing] that [report] builds for a store is empty, so
    that the registration gets no record, exactly when every schema of the
    store was entered, every literal of its declared allow and deny lists
    was observed, and each of its rule names (and "default" and "failover"
    when the flag is set) either has a mask without a label, that is, not
    0, 1 or 2, or is the name of a property of [Object.prototype] under
    which the rule table holds nothing of its own. *)
Theorem missing_nil_iff_covered (H : Heap) (s : StoreObj) :
  Tracer.missing_of H s = [] <-> ∀ e, e ∈ _logs s -> covered H e.
Proof.
  split.
  - apply loop_nil.
  - intros Hall. unfold Tracer.missing_of. fold (loop H (_logs s)).
    by rewrite (loop_covered H (_logs s) Hall).
Qed.

(** X4: no schema that was never entered goes unreported, whatever the
    state of the store: either [missing] has its own "never reached" gap,
    or one of its paths starts with a path of an earlier schema that was
    never entered and whose "never reached" gap is in [missing]. *)
Theorem unreached_accounted (H : Heap) (s : StoreObj) (e : node * Log) :
  e ∈ _logs s -> log_entry e.2 = false ->
  never_reached e.2 ∈ Tracer.missing_of H s
  ∨ ∃ before e' after p skip,
      _logs s = before ++ e :: after ∧ e' ∈ before
      ∧ log_entry e'.2 = false
      ∧ never_reached e'.2 ∈ Tracer.missing_of H s
      ∧ p ∈ log_paths e.2 ∧ skip ∈ log_paths e'.2 ∧ extends p skip.
Proof.
  intros (before & after & E)%list_elem_of_split He.
  rewrite (missing_of_split H s before e after E).
  rewrite (contribution_unreached H _ e He).
  destruct (internals.sub _ _) eqn:Hsub.
  - right. apply sub_true in Hsub as (p & skip & Hp & Hskip & Hext).
    apply loop_skipped_origin in Hskip as (e' & He' & Hent & Hin & Hgap).
    exists before, e', after, p, skip. split_and!; try done.
    apply elem_of_app. by left.
  - left. apply elem_of_app. right. apply elem_of_app. left. left.
Qed.

Lemma unreached_accounted_witness :
  let H := nested in
  let s := default (mkStore []) (store_after nested 10 1%positive []) in
  let e := default (1%positive, Store.new_log) (_logs s !! 2%nat) in
  never_reached e.2 ∈ Tracer.missing_of H s
  ∨ ∃ before e' after p skip,
      _logs s = before ++ e :: after ∧ e' ∈ before
      ∧ log_entry e'.2 = false
      ∧ never_reached e'.2 ∈ Tracer.missing_of H s
      ∧ p ∈ log_paths e.2 ∧ skip ∈ log_paths e'.2 ∧ extends p skip.
Proof.
  intros H s e. apply (unreached_accounted H s e).
  - apply (list_elem_of_lookup_2 _ 2%nat). vm_compute. reflexivity.
  - vm_compute. reflexivity.
Defined.

(** X5: a log leaves no trace in [missing] when an earlier log of the
    store belongs to a schema that was never entered and has paths, each
    of which is the start of a path of the later log: [missing] is what it
    would be without the later log, whatever that log holds. *)
Theorem descendant_not_reported (H : Heap) (s : StoreObj)
    (before mid after : list (node * Log)) (m k : node * Log) :
  _logs s = before ++ m :: mid ++ k :: after ->
  log_entry m.2 = false ->
  log_paths m.2 ≠ [] ->
  (∀ skip, skip ∈ log_paths m.2 -> ∃ p, p ∈ log_paths k.2 ∧ extends p skip) ->
  Tracer.missing_of H s
  = Tracer.missing_of H (mkStore (before ++ m :: mid ++ after)).
Proof.
  intros E Hm Hne Hext.
  assert (E' : _logs s = (before ++ m :: mid) ++ k :: after)
    by by rewrite E, <- app_assoc.
  rewrite (missing_of_suppressed H s _ k after E'); [by rewrite <- app_assoc|].
  assert (Hin : m ∈ before ++ m :: mid) by (apply elem_of_app; right; left).
  pose proof (loop_covers H _ m Hin Hm Hne) as Hc.
  apply sub_true in Hc as (p' & skip' & Hp' & Hskip' & Hpre).
  destruct (Hext p' Hp') as (p & Hp & Hpp'). apply sub_true.
  exists p, skip'. split_and!; [done|done|].
  unfold extends in *. by etrans.
Qed.

Lemma descendant_not_reported_witness :
  let s := default (mkStore []) (store_after nested 10 1%positive []) in
  Tracer.missing_of nested s
  = Tracer.missing_of nested (mkStore (take 1 (_logs s) ++
      default (1%positive, Store.new_log) (_logs s !! 1%nat) :: [] ++ [])).
Proof.
  intros s.
  apply (descendant_not_reported nested s (take 1 (_logs s)) [] []
           (default (1%positive, Store.new_log) (_logs s !! 1%nat))
           (default (1%positive, Store.new_log) (_logs s !! 2%nat))).
  - vm_compute. reflexivity.
  - vm_compute. reflexivity.
  - vm_compute. discriminate.
  - intros skip Hin. vm_compute in Hin.
    apply list_elem_of_singleton in Hin as ->.
    eexists. split; [vm_compute; left|].
    by exists [VString "b"].
Defined.

(** ** Instrumentation calls on any store *)

Lemma map_update_idem {V} k (f : V -> V) (m : list (node * V)) :
  (∀ v, f (f v) = f v) -> map_update k f (map_update k f m) = map_update k f m.
Proof.
  intros Hf. induction m as [|[k' v] m IH]; [done|]. simpl.
  destruct (decide (k' = k)) as [->|Hne]; simpl.
  - by rewrite decide_True, Hf by done.
  - by rewrite decide_False, IH by done.
Qed.

Lemma port_update_idem p l : port_update p (port_update p l) = port_update p l.
Proof.
  destruct p as [k|src name r k|src v k]; simpl.
  - done.
  - unfold Store.or_rule. simpl. f_equal. unfold or_property.
    destruct (decide (name = "__proto__")); [done|].
    unfold get_property at 1. rewrite lookup_insert_eq.
    rewrite insert_insert_eq. f_equal.
    rewrite <- Z.lor_assoc. by rewrite Z.lor_diag.
  - assert (Hs : ∀ s, set_add v (set_add v s) = set_add v s).
    { intros s. unfold set_add. destruct (decide (v ∈ s)) as [Hin|Hin].
      - by rewrite decide_True.
      - rewrite decide_True; [done|]. apply elem_of_app. right. left. }
    destruct src; unfold Store.add_value; simpl; by rewrite Hs.
Qed.

(** X6: an instrumentation call that is repeated changes nothing the
    second time: after [entry], [log] or [value] has returned, the same
    call with the same arguments returns and leaves every log of the store
    as it is. *)
Theorem port_call_idempotent (p : port) (s s1 : StoreObj) :
  port_call p s = Some s1 -> port_call p s1 = Some s1.
Proof.
  rewrite !port_call_unfold.
  destruct (map_get (port_schema p) (_logs s)) as [l|] eqn:Hg; [|done].
  intros [= <-]. simpl. rewrite map_get_update, Hg. rewrite decide_True by done.
  simpl. by rewrite (map_update_idem _ _ _ (port_update_idem p)).
Qed.

Lemma port_call_idempotent_witness :
  port_call (PValue Store.valid (VString "a") 3%positive) nested_run
  = Some nested_run.
Proof.
  apply (port_call_idempotent (PValue Store.valid (VString "a") 3%positive)
           (default (mkStore [])
              (store_after nested 10 1%positive
                 [PEntry 1%positive; PEntry 2%positive; PEntry 3%positive;
                  PLog Store.src_rule "min" internals.error 3%positive]))).
  vm_compute. reflexivity.
Defined.

(** X7: on a store that the constructor built, after any instrumentation
    calls, a call of [entry], [log] or [value] throws exactly when its
    schema is not the root nor reachable from it through the enumeration of
    sub-schemas; for the root and every schema reachable from it the call
    returns. *)
Theorem port_call_throws_iff (H : Heap) (fuel : nat) (root : node) (next : nat)
    (s : StoreObj) (next' : nat) (ps : list port) (s' : StoreObj) (p : port) :
  Store.constructor H fuel root next = Some (s, next') ->
  port_calls ps s = Some s' ->
  (port_call p s' = None <-> ¬ ∃ q, route H root q (port_schema p))
  ∧ ((∃ q, route H root q (port_schema p)) -> is_Some (port_call p s')).
Proof.
  intros Hc Hps.
  pose proof (constructor_keys H fuel root next s next' (port_schema p) Hc) as Hk.
  rewrite <- (port_calls_keys ps s s' Hps) in Hk. split.
  - rewrite port_call_unfold, <- Hk, <- map_get_None.
    by destruct (map_get (port_schema p) (_logs s')).
  - intros Hr. apply port_call_is_Some. by apply Hk.
Qed.

Lemma port_call_throws_iff_witness :
  (port_call (PEntry 7%positive) nested_run = None
   <-> ¬ ∃ q, route nested 1%positive q 7%positive)
  ∧ ((∃ q, route nested 1%positive q 7%positive) ->
     is_Some (port_call (PEntry 7%positive) nested_run)).
Proof.
  apply (port_call_throws_iff nested 10 1%positive 0
           (default (mkStore []) (store_after nested 10 1%positive [])) 3
           [PEntry 1%positive; PEntry 2%positive; PEntry 3%positive;
            PLog Store.src_rule "min" internals.error 3%positive;
            PValue Store.valid (VString "a") 3%positive]
           nested_run (PEntry 7%positive)).
  - vm_compute. reflexivity.
  - vm_compute. reflexivity.
Defined.

(** X8: the gaps of a store depend on which instrumentation calls were
    made on it, not on their order nor on how often each was made: two
    sequences of calls with the same members, made on the same store with
    one log per schema, leave stores with the same list [missing]. *)
Theorem missing_order_independent (H : Heap) (s0 s1 s2 : StoreObj)
    (ps1 ps2 : list port) :
  NoDup (_logs s0).*1 ->
  port_calls ps1 s0 = Some s1 ->
  port_calls ps2 s0 = Some s2 ->
  (∀ p, p ∈ ps1 <-> p ∈ ps2) ->
  Tracer.missing_of H s1 = Tracer.missing_of H s2.
Proof. apply missing_same_calls. Qed.

Lemma missing_order_independent_witness :
  Tracer.missing_of nested
    (default (mkStore [])
       (store_after nested 10 1%positive
          [PEntry 1%positive; PValue Store.valid (VString "a") 3%positive;
           PEntry 3%positive]))
  = Tracer.missing_of nested
      (default (mkStore [])
         (store_after nested 10 1%positive
            [PEntry 3%positive; PEntry 1%positive; PEntry 3%positive;
             PValue Store.valid (VString "a") 3%positive; PEntry 1%positive])).
Proof.
  apply (missing_order_independent nested
           (default (mkStore []) (store_after nested 10 1%positive [])) _ _
           [PEntry 1%positive; PValue Store.valid (VString "a") 3%positive;
            PEntry 3%positive]
           [PEntry 3%positive; PEntry 1%positive; PEntry 3%positive;
            PValue Store.valid (VString "a") 3%positive; PEntry 1%positive]).
  - apply (bool_decide_unpack _). vm_compute. reflexivity.
  - vm_compute. reflexivity.
  - vm_compute. reflexivity.
  - intros p. rewrite !elem_of_cons, !elem_of_nil. tauto.
Defined.

Lemma instrumented_rule H fuel root next s next' ps s' k l name :
  Store.constructor H fuel root next = Some (s, next') ->
  port_calls ps s = Some s' ->
  map_get k (_logs s') = Some l ->
  (name = "__proto__" -> log_rule l !! name = None)
  ∧ (name ≠ "__proto__" ->
       mask l name = outcome_mask (logged ps name k)
       ∧ (log_rule l !! name = None <-> logged ps name k = [])).
Proof.
  intros Hc Hps Hg.
  destruct (map_get k (_logs s)) as [l0|] eqn:Hg0.
  2:{ apply map_get_None in Hg0. rewrite <- (port_calls_keys _ _ _ Hps) in Hg0.
      apply map_get_None in Hg0. congruence. }
  assert (Hl0 : log_rule l0 = ∅).
  { pose proof (constructor_untouched _ _ _ _ _ _ Hc) as Hall.
    rewrite Forall_forall in Hall.
    assert (Hin : l0 ∈ (_logs s).*2).
    { apply list_elem_of_fmap. exists (k, l0). split; [done|].
      by apply map_get_Some_elem. }
    by destruct (Hall _ Hin) as (_ & Hr & _). }
  split.
  - intros ->. by rewrite (port_calls_proto _ _ _ _ _ _ Hps Hg0 Hg), Hl0.
  - intros Hname. split.
    + rewrite (port_calls_mask _ _ _ _ _ _ name Hname Hps Hg0 Hg).
      unfold mask at 1. by rewrite Hl0.
    + rewrite (port_calls_own _ _ _ _ _ _ name Hname Hps Hg0 Hg), Hl0.
      naive_solver.
Qed.

(** X9: in a store that the constructor built, after any instrumentation
    calls, the rule table of every log holds under every name other than
    ["__proto__"] the bitwise or of the codes logged for that name and
    schema, and nothing under ["__proto__"]; every mask is 0, 1, 2 or 3.
    A rule whose name is not the name of a property of [Object.prototype]
    has no gap exactly when its mask is 3; a rule with such a name has no
    gap exactly when the name is ["__proto__"], or nothing was logged for
    it, or its mask is 3. *)
Theorem mask_range (H : Heap) (fuel : nat) (root : node) (next : nat)
    (s : StoreObj) (next' : nat) (ps : list port) (s' : StoreObj)
    (k : node) (l : Log) (name : string) :
  Store.constructor H fuel root next = Some (s, next') ->
  port_calls ps s = Some s' ->
  map_get k (_logs s') = Some l ->
  0 <= mask l name <= 3
  ∧ (name ≠ "__proto__" -> mask l name = outcome_mask (logged ps name k))
  ∧ (name = "__proto__" -> mask l name = 0)
  ∧ (name ∉ Object_prototype ->
       (Tracer.check_rule l name = [] <-> mask l name = 3))
  ∧ (name ∈ Object_prototype ->
       (Tracer.check_rule l name = [] <->
          name = "__proto__" ∨ logged ps name k = [] ∨ mask l name = 3)).
Proof.
  intros Hc Hps Hg.
  destruct (instrumented_rule _ _ _ _ _ _ _ _ _ _ name Hc Hps Hg) as [Hproto Hown].
  assert (Hrange : 0 <= mask l name <= 3).
  { destruct (decide (name = "__proto__")) as [Hn|Hn].
    - unfold mask. rewrite (Hproto Hn). simpl. lia.
    - destruct (Hown Hn) as [-> _]. rewrite outcome_mask_cases.
      repeat case_decide; lia. }
  assert (Hlab : internals.labels (mask l name) = None <-> mask l name = 3).
  { unfold internals.labels. repeat case_decide; split; (done || lia). }
  split; [done|]. split_and!.
  - intros Hn. by destruct (Hown Hn).
  - intros Hn. unfold mask. by rewrite (Hproto Hn).
  - intros Hn. rewrite check_rule_nil, Hlab. unfold inherited. naive_solver.
  - intros Hn. rewrite check_rule_nil, Hlab. unfold inherited.
    destruct (decide (name = "__proto__")) as [Hp|Hp].
    + specialize (Hproto Hp). naive_solver.
    + destruct (Hown Hp) as [_ Hnone]. rewrite Hnone. naive_solver.
Qed.

Lemma mask_range_witness :
  let l := default Store.new_log (map_get 3%positive (_logs nested_run)) in
  let ps := [PEntry 1%positive; PEntry 2%positive; PEntry 3%positive;
             PLog Store.src_rule "min" internals.error 3%positive;
             PValue Store.valid (VString "a") 3%positive] in
  0 <= mask l "min" <= 3
  ∧ ("min" ≠ "__proto__" -> mask l "min" = outcome_mask (logged ps "min" 3%positive))
  ∧ ("min" = "__proto__" -> mask l "min" = 0)
  ∧ ("min" ∉ Object_prototype ->
       (Tracer.check_rule l "min" = [] <-> mask l "min" = 3))
  ∧ ("min" ∈ Object_prototype ->
       (Tracer.check_rule l "min" = [] <->
          "min" = "__proto__" ∨ logged ps "min" 3%positive = [] ∨ mask l "min" = 3)).
Proof.
  intros l ps.
  apply (mask_range nested 10 1%positive 0
           (default (mkStore []) (store_after nested 10 1%positive [])) 3
           ps nested_run 3%positive l "min").
  - vm_compute. reflexivity.
  - vm_compute. reflexivity.
  - vm_compute. reflexivity.
Defined.

(** ** The scan of a schema graph with a cycle *)

Lemma modify_each_called each calls c : ∀ st st',
  Store.modify_each each calls st = Some st' -> c ∈ calls ->
  ∃ st1 st1', each st1 c = Some st1'.
Proof.
  induction calls as [|c' calls IH]; intros st st'; simpl;
    [by intros _ []%elem_of_nil|].
  destruct (each st c') as [st1|] eqn:E; [|done]. simpl.
  intros Hm [->|Hin]%elem_of_cons; [by exists st, st1|]. by eapply IH.
Qed.

Lemma scan_child H fuel s p st st' sub ctx :
  Store._scan H fuel s p st = Some st' ->
  (sub, ctx) ∈ each_calls (H s) ->
  ∃ fuel' p' st1 st1',
    fuel = S fuel' ∧ Store._scan H fuel' sub (Some p') st1 = Some st1'.
Proof.
  destruct fuel as [|fuel]; [done|]. simpl. intros Hs Hin.
  destruct p as [p|];
    destruct (modify_each_called _ _ _ _ _ Hs Hin) as (st1 & st1' & Hsub);
    simpl in Hsub; by eexists fuel, _, _, st1'.
Qed.

Lemma scan_route H s q k :
  route H s q k ->
  ∀ fuel p st st', Store._scan H fuel s p st = Some st' ->
    ∃ fuel' p' st1 st1',
      (fuel' ≤ fuel)%nat ∧ (q ≠ [] -> (fuel' < fuel)%nat)
      ∧ Store._scan H fuel' k p' st1 = Some st1'.
Proof.
  induction 1 as [s|s sub ctx q k Hin Hr IH]; intros fuel p st st' Hs.
  - exists fuel, p, st, st'. split_and!; [lia|done|done].
  - destruct (scan_child _ _ _ _ _ _ _ _ Hs Hin) as (f1 & p1 & st1 & st1' & -> & Hsub).
    destruct (IH _ _ _ _ Hsub) as (f2 & p2 & st2 & st2' & Hle & _ & Hk).
    exists f2, p2, st2, st2'. split_and!; [lia|intros _; lia|done].
Qed.

Lemma cycle_not_scanned H s :
  on_cycle H s -> ∀ fuel p st, Store._scan H fuel s p st = None.
Proof.
  intros (q & Hq & Hr) fuel.
  induction fuel as [fuel IH] using lt_wf_ind. intros p st.
  destruct (Store._scan H fuel s p st) as [st'|] eqn:Hs; [|done].
  destruct (scan_route _ _ _ _ Hr _ _ _ _ Hs) as (f & p' & st1 & st1' & _ & Hlt & Hs').
  rewrite (IH f (Hlt Hq)) in Hs'. done.
Qed.

(** X10: when the root is on a cycle of the enumeration of sub-schemas, or
    reaches a schema that is, the scan of the constructor does not
    return, however deep the recursion may go: no store is made, and
    registering the root does not return either. *)
Theorem cyclic_scan_never_returns (H : Heap) (root : node) (q : list val)
    (k : node) :
  route H root q k -> on_cycle H k ->
  ∀ fuel,
    (∀ next, Store.constructor H fuel root next = None)
    ∧ ∀ loc R m, map_get root (_schemas (tracer m)) = None ->
                 step H R fuel (Register loc root) m = None.
Proof.
  intros Hr Hcyc fuel.
  assert (Hc : ∀ next, Store.constructor H fuel root next = None).
  { intros next. unfold Store.constructor.
    destruct (Store._scan H fuel root None (Store.mkScan [] next)) as [st|] eqn:Hs;
      [|done].
    destruct (scan_route _ _ _ _ Hr _ _ _ _ Hs) as (f & p' & st1 & st1' & _ & _ & Hs').
    by rewrite (cycle_not_scanned H k Hcyc) in Hs'. }
  split; [done|]. intros loc R m Hg. simpl. unfold Tracer._register.
  by rewrite Hg, Hc.
Qed.

Lemma cyclic_scan_never_returns_witness :
  (∀ next, Store.constructor looping 1000 1%positive next = None)
  ∧ ∀ loc R m, map_get 1%positive (_schemas (tracer m)) = None ->
               step looping R 1000 (Register loc 1%positive) m = None.
Proof.
  refine (cyclic_scan_never_returns looping 1%positive
            (segments (internals.id (looping 2%positive) (term "items" 0)) ++ [])
            2%positive _ _ 1000%nat).
  - apply (route_sub looping 1%positive 2%positive (term "items" 0) [] 2%positive);
      [left|apply route_here].
  - exists (segments (internals.id (looping 2%positive) (term "items" 0)) ++ []).
    split; [done|].
    apply (route_sub looping 2%positive 2%positive (term "items" 0) [] 2%positive);
      [left|apply route_here].
Defined.

(** ** The memory the calls keep *)

Lemma step_consistent H R fuel c m ans m' :
  step H R fuel c m = Some (ans, m') ->
  consistent m ∧ scanned_stores H fuel m ->
  consistent m' ∧ scanned_stores H fuel m'.
Proof.
  intros Hstep [[Hnd Hseq] Hsc].
  assert (Hport : (∃ a, touches a c) -> consistent m' ∧ scanned_stores H fuel m').
  { intros Ht. destruct (step_port_inv _ _ _ _ _ _ _ Hstep Ht)
      as (a & p & s & s' & _ & Hs & Hp & ->). split.
    - split; simpl; [done|]. by rewrite length_insert.
    - intros i k reg Hi. simpl in Hi.
      destruct (Hsc i k reg Hi) as (st & s0 & next & n & Hst & Hc & Hg).
      simpl. destruct (decide (a = i)) as [->|Hne].
      + exists s', s0, next, n. split_and!; [|done|].
        * rewrite list_lookup_insert_eq; [done|]. by eapply lookup_lt_Some.
        * rewrite Hs in Hst. injection Hst as ->.
          eapply store_grows_trans; [done|]. by apply (port_call_grows p).
      + exists st, s0, next, n. by rewrite list_lookup_insert_ne. }
  destruct c as [loc root| a k | a src n r k | a src v k | file].
  - simpl in Hstep.
    destruct (Tracer._register H fuel loc root m) as [[a' m1]|] eqn:Hreg; [|done].
    injection Hstep as _ ->.
    apply register_inv in Hreg as [(reg & _ & _ & ->)|(Hg & s & n & Hc & -> & ->)];
      [done|].
    apply map_get_None in Hg. split.
    + split; simpl.
      * rewrite fmap_app. apply NoDup_app. split_and!; [done| |apply NoDup_singleton].
        intros x Hx ->%list_elem_of_singleton. done.
      * rewrite !fmap_app, length_app, Hseq. simpl. by rewrite Nat.add_1_r, seq_S.
    + assert (Hlen : length (_schemas (tracer m)) = length (stores m)).
      { rewrite <- (length_fmap snd), <- (length_fmap store), Hseq. apply length_seq. }
      intros i k reg Hi. simpl in Hi. simpl.
      apply lookup_app_Some in Hi as [Hi|[Hge Hi]].
      * destruct (Hsc i k reg Hi) as (st & s0 & next & n0 & Hst & Hc0 & Hgr).
        exists st, s0, next, n0. split_and!; [|done|done].
        by apply lookup_app_l_Some.
      * apply list_lookup_singleton_Some in Hi as [Hi [= <- <-]].
        exists s, s, (next_array m), n. split_and!; [|done|apply store_grows_refl].
        assert (i = length (stores m)) as -> by lia.
        by rewrite lookup_app_r, Nat.sub_diag.
  - apply Hport. by exists a.
  - apply Hport. by exists a.
  - apply Hport. by exists a.
  - simpl in Hstep. by injection Hstep as _ <-.
Qed.

Lemma run_consistent H R fuel cs : ∀ m answers m',
  run H R fuel cs m = Some (answers, m') ->
  consistent m ∧ scanned_stores H fuel m ->
  consistent m' ∧ scanned_stores H fuel m'.
Proof.
  induction cs as [|c cs IH]; intros m answers m'; simpl.
  - by intros [= _ <-].
  - destruct (step H R fuel c m) as [[ans m1]|] eqn:Hstep; [|done]. simpl.
    destruct (run H R fuel cs m1) as [[anss m2]|] eqn:Hrun; [|done]. simpl.
    intros [= _ <-] Hinv. eapply IH; [done|]. by eapply step_consistent.
Qed.

(** X11: whatever calls were made since the tracer was created, the
    registry has one entry per root, the registrations refer to the stores
    in the order they were made, each to a store of its own that exists,
    and the store of a root is the one the constructor built for it, with
    the same schemas in the same order and the same paths, grown by
    instrumentation calls only. *)
Theorem registry_consistent (H : Heap) (R : Render) (fuel : nat) (cs : list call)
    (answers : list answer) (m : Memory) :
  run H R fuel cs initial = Some (answers, m) ->
  consistent m
  ∧ scanned_stores H fuel m
  ∧ length (_schemas (tracer m)) = length (stores m)
  ∧ (∀ k reg, map_get k (_schemas (tracer m)) = Some reg ->
       ∃ st s next n,
         stores m !! store reg = Some st
         ∧ Tracer.deref m (store reg) = st
         ∧ Store.constructor H fuel k next = Some (s, n)
         ∧ store_grows s st
         ∧ NoDup (_logs st).*1
         ∧ k ∈ (_logs st).*1)
  ∧ (∀ k1 k2 reg1 reg2,
       map_get k1 (_schemas (tracer m)) = Some reg1 ->
       map_get k2 (_schemas (tracer m)) = Some reg2 ->
       store reg1 = store reg2 -> k1 = k2).
Proof.
  intros Hrun.
  assert (H0 : consistent initial ∧ scanned_stores H fuel initial).
  { split; [split; [apply NoDup_nil_2|done]|]. by intros i k reg Hi. }
  destruct (run_consistent _ _ _ _ _ _ _ Hrun H0) as [[Hnd Hseq] Hsc].
  assert (Hidx : ∀ k reg, map_get k (_schemas (tracer m)) = Some reg ->
            _schemas (tracer m) !! store reg = Some (k, reg)).
  { intros k reg Hg. apply map_get_Some_elem, list_elem_of_lookup in Hg as [i Hi].
    assert (Hs : (store <$> (_schemas (tracer m)).*2) !! i = Some (store reg))
      by by rewrite !list_lookup_fmap, Hi.
    rewrite Hseq in Hs. apply lookup_seq in Hs as [E _]. simpl in E.
    by rewrite E. }
  split; [by split|]. split; [done|]. split; [|split].
  - rewrite <- (length_fmap snd), <- (length_fmap store), Hseq. apply length_seq.
  - intros k reg Hg. apply Hidx in Hg.
    destruct (Hsc _ _ _ Hg) as (st & s & next & n & Hst & Hc & Hgr).
    exists st, s, next, n. split_and!; try done.
    + unfold Tracer.deref. by rewrite Hst.
    + destruct Hgr as (-> & _). by eapply constructor_NoDup.
    + destruct Hgr as (-> & _). apply (constructor_keys _ _ _ _ _ _ k Hc).
      exists []. apply route_here.
  - intros k1 k2 reg1 reg2 H1 H2 E. apply Hidx in H1. apply Hidx in H2.
    rewrite E in H1. congruence.
Qed.

Lemma registry_consistent_witness :
  let m := nested_registered in
  consistent m
  ∧ scanned_stores nested 10 m
  ∧ length (_schemas (tracer m)) = length (stores m)
  ∧ (∀ k reg, map_get k (_schemas (tracer m)) = Some reg ->
       ∃ st s next n,
         stores m !! store reg = Some st
         ∧ Tracer.deref m (store reg) = st
         ∧ Store.constructor nested 10 k next = Some (s, n)
         ∧ store_grows s st
         ∧ NoDup (_logs st).*1
         ∧ k ∈ (_logs st).*1)
  ∧ (∀ k1 k2 reg1 reg2,
       map_get k1 (_schemas (tracer m)) = Some reg1 ->
       map_get k2 (_schemas (tracer m)) = Some reg2 ->
       store reg1 = store reg2 -> k1 = k2).
Proof.
  intros m.
  apply (registry_consistent nested example_render 10
           [Register ("schema.js", 12) 1%positive] [Registered 0] m).
  vm_compute. reflexivity.
Defined.

(** ** The file filter of [report] *)

Lemma report_records H R file m :
  Tracer.report H R file m =
    match record_of H R m <$> reported H file m with
    | [] => None
    | coverage => Some coverage
    end.
Proof.
  unfold Tracer.report. rewrite foldl_report_schema. cbn [app].
  fold (reported H file m).
  destruct (record_of H R m <$> reported H file m); by case_decide.
Qed.

Lemma filter_records H R m (f : string) (regs : list Registration) :
  filter (λ c, cov_filename c = f) (record_of H R m <$> regs)
  = record_of H R m <$> filter (λ reg, filename reg = f) regs.
Proof.
  induction regs as [|reg regs IH]; [done|]. csimpl.
  rewrite !filter_cons. cbn [record_of cov_filename].
  case_decide; csimpl; by rewrite IH.
Qed.

(** X12: the report for a file is the report for all files, cut down to
    the records of that file: [report(file)] with a non-empty file name
    is [null] when [report()] is [null] or has no record with that file
    name, and otherwise the records of [report()] with that file name, in
    the same order; with the empty string as file name, [report] answers
    as without a file. *)
Theorem report_file_filter (H : Heap) (R : Render) (m : Memory) :
  (∀ f, f ≠ "" ->
     Tracer.report H R (Some f) m =
       match filter (λ c, cov_filename c = f) (default [] (Tracer.report H R None m)) with
       | [] => None
       | coverage => Some coverage
       end)
  ∧ Tracer.report H R (Some "") m = Tracer.report H R None m
  ∧ (Tracer.report H R None m = None -> ∀ file, Tracer.report H R file m = None).
Proof.
  assert (Hsome : ∀ f, f ≠ "" ->
            reported H (Some f) m = filter (λ reg, filename reg = f) (reported H None m)).
  { intros f Hf. unfold reported. rewrite list_filter_filter.
    apply filter_ext_elem. intros reg _. simpl. naive_solver. }
  assert (Hempty : reported H (Some "") m = reported H None m).
  { unfold reported. apply filter_ext_elem. intros reg _. simpl. naive_solver. }
  assert (Hcut : ∀ f, f ≠ "" ->
     Tracer.report H R (Some f) m =
       match filter (λ c, cov_filename c = f) (default [] (Tracer.report H R None m)) with
       | [] => None
       | coverage => Some coverage
       end).
  { intros f Hf. rewrite !report_records, (Hsome f Hf), <- filter_records.
    by destruct (record_of H R m <$> reported H None m). }
  split_and!; [done| |].
  - by rewrite !report_records, Hempty.
  - intros Hnone [f|]; [|done]. destruct (decide (f = "")) as [->|Hf].
    + by rewrite !report_records, Hempty, <- report_records.
    + by rewrite (Hcut f Hf), Hnone.
Qed.

(** ** [trace] and [untrace] *)

(** X13: [root.trace()] returns the tracer that [root._tracer] holds
    afterwards; when there was one it is that one and nothing changes, so a
    second call returns the same tracer; when there was none it is a new
    tracer object with an empty registry.  After [root.untrace()] the next
    [trace()] gives such a new tracer whatever was traced before: the
    tracers and stores made so far stay as they are, the new tracer's
    report is [null], and registering a root with it scans the root again
    into a new store. *)
Theorem trace_lifecycle (H : Heap) (R : Render) (fuel : nat) (p : Process) :
  root_tracer (setup.trace p).2 = Some (setup.trace p).1
  ∧ setup.trace (setup.trace p).2 = setup.trace p
  ∧ (∀ a, root_tracer p = Some a -> setup.trace p = (a, p))
  ∧ (root_tracer p = None ->
       (setup.trace p).1 = length (tracers p)
       ∧ tracers (setup.trace p).2 = tracers p ++ [Tracer.constructor]
       ∧ process_stores (setup.trace p).2 = process_stores p)
  ∧ (let a := (setup.trace (setup.untrace p)).1 in
     let p' := (setup.trace (setup.untrace p)).2 in
     a = length (tracers p)
     ∧ tracers p' = tracers p ++ [Tracer.constructor]
     ∧ process_stores p' = process_stores p
     ∧ (∀ file, on_tracer H R fuel a (Report file) p' = Some (Reported None, p'))
     ∧ (∀ loc root s n,
          Store.constructor H fuel root (process_next p) = Some (s, n) ->
          on_tracer H R fuel a (Register loc root) p'
          = Some (Registered (length (process_stores p)),
                  mkProcess
                    (tracers p
                     ++ [mkTracer "Joi"
                           [(root, mkRegistration loc.1 loc.2
                                     (length (process_stores p)))]])
                    (Some a) (process_stores p ++ [s]) n))
     ∧ (∀ loc root,
          Store.constructor H fuel root (process_next p) = None ->
          on_tracer H R fuel a (Register loc root) p' = None)).
Proof.
  assert (Hmid : ∀ (l : list TracerObj) t, (l ++ [t]) !! length l = Some t).
  { intros l t. by rewrite lookup_app_r, Nat.sub_diag. }
  assert (Hins : ∀ (l : list TracerObj) t t', <[length l := t']> (l ++ [t]) = l ++ [t']).
  { intros l t t'. rewrite insert_app_r_alt, Nat.sub_diag by done. done. }
  split_and!.
  - unfold setup.trace. by destruct (root_tracer p) as [a|] eqn:E.
  - unfold setup.trace. destruct (root_tracer p) as [a|] eqn:E; simpl; by rewrite ?E.
  - intros a E. unfold setup.trace. by rewrite E.
  - intros E. unfold setup.trace. by rewrite E.
  - cbn zeta. unfold setup.trace, setup.untrace. cbn [root_tracer tracers
      process_stores process_next fst snd]. split_and!; [done|done|done| | |].
    + intros file. unfold on_tracer. cbn [tracers process_stores process_next root_tracer].
      rewrite Hmid. simpl. by rewrite Hins.
    + intros loc root s n Hc. unfold on_tracer.
      cbn [tracers process_stores process_next root_tracer].
      rewrite Hmid. simpl. unfold Tracer._register. simpl. rewrite Hc. simpl.
      by rewrite Hins.
    + intros loc root Hc. unfold on_tracer.
      cbn [tracers process_stores process_next root_tracer].
      rewrite Hmid. simpl. unfold Tracer._register. simpl. by rewrite Hc.
Qed.

(** ** The order of the logs *)

Lemma constructor_root_first H fuel root next s next' :
  Store.constructor H fuel root next = Some (s, next') ->
  ∃ rest, (_logs s).*1 = root :: rest.
Proof.
  intros (vs & Hl & _)%constructor_visits. rewrite Hl. simpl.
  destruct (visit_all_keys_prefix vs (Store.visit root (mkArray next []) []))
    as [extra ->].
  by exists extra.
Qed.

(** X14: in a store that the constructor built, after any instrumentation
    calls, the log of the root is the first, no schema has two logs, and
    the log of every other schema comes after the log of a schema that
    enumerates it as a sub-schema. *)
Theorem logs_parent_first (H : Heap) (fuel : nat) (root : node) (next : nat)
    (s : StoreObj) (next' : nat) (ps : list port) (s' : StoreObj) :
  Store.constructor H fuel root next = Some (s, next') ->
  port_calls ps s = Some s' ->
  (∃ rest, (_logs s').*1 = root :: rest)
  ∧ NoDup (_logs s').*1
  ∧ ∀ k, k ∈ (_logs s').*1 -> k ≠ root ->
      ∃ before m mid after ctx,
        (_logs s').*1 = before ++ m :: mid ++ k :: after
        ∧ (k, ctx) ∈ each_calls (H m).
Proof.
  intros Hc Hps. rewrite (port_calls_keys _ _ _ Hps).
  destruct (constructor_root_first _ _ _ _ _ _ Hc) as [rest Hrest].
  split_and!; [by exists rest|by eapply constructor_NoDup|].
  intros k Hk Hne.
  destruct (decide (k ∈ (each_calls (H root)).*1)) as [Hd|Hd].
  - apply list_elem_of_fmap in Hd as ([k' ctx] & E & Hd). simpl in E. subst k'.
    rewrite Hrest in Hk. apply elem_of_cons in Hk as [?|Hk]; [done|].
    apply list_elem_of_split in Hk as (mid & after & ->).
    exists [], root, mid, after, ctx. by rewrite Hrest.
  - destruct (map_get k (_logs s)) as [lk|] eqn:Hg;
      [|by apply map_get_None in Hg].
    destruct (constructor_parent_before _ _ _ _ _ _ k lk Hc Hg Hne)
      as (before & m & lm & mid & after & ctx & E & _ & Hin).
    { intros ctx Hin. apply Hd. apply list_elem_of_fmap. by exists (k, ctx). }
    exists before.*1, m, mid.*1, after.*1, ctx. split; [|done].
    rewrite E. by rewrite !fmap_app, !fmap_cons, !fmap_app, !fmap_cons.
Qed.

Lemma logs_parent_first_witness :
  (∃ rest, (_logs nested_run).*1 = 1%positive :: rest)
  ∧ NoDup (_logs nested_run).*1
  ∧ ∀ k, k ∈ (_logs nested_run).*1 -> k ≠ 1%positive ->
      ∃ before m mid after ctx,
        (_logs nested_run).*1 = before ++ m :: mid ++ k :: after
        ∧ (k, ctx) ∈ each_calls (nested m).
Proof.
  apply (logs_parent_first nested 10 1%positive 0
           (default (mkStore []) (store_after nested 10 1%positive [])) 3
           [PEntry 1%positive; PEntry 2%positive; PEntry 3%positive;
            PLog Store.src_rule "min" internals.error 3%positive;
            PValue Store.valid (VString "a") 3%positive]
           nested_run).
  - vm_compute. reflexivity.
  - vm_compute. reflexivity.
Defined.

(** ** The messages of gaps and the identifiers of sub-schemas *)

Lemma string_app_nil_r (s : string) : String.append s "" = s.
Proof.
  induction s as [|c s IH]; [done|].
  change (String c (String.append s "") = String c s). by rewrite IH.
Qed.

(** X15: the message of a gap of a report has one of three forms: for a
    schema never reached, the rendering of its first path (of [undefined]
    when it has no path) and " (never reached)"; for missing literals,
    "valids" or "invalids" and the literals in parentheses, joined by
    commas, with no path even when the schema has paths; for a rule, the
    rule name and its label in parentheses, after the rendering of the
    first path of the schema and a colon when the schema has paths, the
    colon being left out for an empty rule name. *)
Theorem message_forms (H : Heap) (R : Render) (s : StoreObj) (item : Missing) :
  item ∈ Tracer.missing_of H s ->
  ∃ e, e ∈ _logs s
    ∧ (log_entry e.2 = false
       ∧ internals.message R item
         = String.append (Errors_path R (elems <$> head (log_paths e.2)))
             " (never reached)"
       ∨ log_entry e.2 = true
         ∧ (∃ rule vs,
              (rule = "valids" ∨ rule = "invalids") ∧ vs ≠ []
              ∧ internals.message R item
                = String.append rule
                    (String.append " ("
                       (String.append (internals.status_string R (Literals vs)) ")")))
       ∨ log_entry e.2 = true
         ∧ (∃ name label,
              name ∈ Tracer.rules (H e.1)
              ∧ label ∈ ["never used"; "always error"; "always pass"]
              ∧ internals.message R item
                = String.append
                    (if decide (log_paths e.2 = []) then ""
                     else String.append
                            (Errors_path R (elems <$> head (log_paths e.2)))
                            (if decide (name = "") then "" else ":"))
                    (String.append name
                       (String.append " (" (String.append label ")"))))).
Proof.
  intros Hin. apply missing_of_origin in Hin as (before & e & after & E & Hin).
  apply contribution_gap_of in Hin. exists e. split.
  { rewrite E. apply elem_of_app. right. left. }
  destruct Hin as [He|source set He Hd Hu|name label He Hname Hl].
  - left. split; [done|]. unfold internals.message, never_reached. simpl.
    by rewrite string_app_nil_r.
  - right. left. split; [done|].
    exists (literal_rule source), (unobserved (_set set) (observed source e.2)).
    split_and!; [destruct source; [by left|by right]|done|by destruct source].
  - right. right. split; [done|]. exists name, label. split_and!; [done| |].
    + unfold internals.labels in Hl. repeat case_decide; simplify_eq; set_solver.
    + unfold internals.message, rule_gap. cbn [paths rule status internals.status_string].
      destruct (decide (log_paths e.2 = [])) as [Hp|Hp];
        destruct (decide (name = "")) as [->|Hn]; simpl; try done.
      * apply String.eqb_neq in Hn. by rewrite Hn.
      * apply String.eqb_neq in Hn. by rewrite Hn.
Qed.

Lemma message_forms_witness :
  let H := nested in
  let R := example_render in
  let s := nested_run in
  let item := mkMissing (Label "always error") (Some "min")
                (Some (log_paths (default Store.new_log
                                    (map_get 3%positive (_logs nested_run))))) in
  ∃ e, e ∈ _logs s
    ∧ (log_entry e.2 = false
       ∧ internals.message R item
         = String.append (Errors_path R (elems <$> head (log_paths e.2)))
             " (never reached)"
       ∨ log_entry e.2 = true
         ∧ (∃ rule vs,
              (rule = "valids" ∨ rule = "invalids") ∧ vs ≠ []
              ∧ internals.message R item
                = String.append rule
                    (String.append " ("
                       (String.append (internals.status_string R (Literals vs)) ")")))
       ∨ log_entry e.2 = true
         ∧ (∃ name label,
              name ∈ Tracer.rules (H e.1)
              ∧ label ∈ ["never used"; "always error"; "always pass"]
              ∧ internals.message R item
                = String.append
                    (if decide (log_paths e.2 = []) then ""
                     else String.append
                            (Errors_path R (elems <$> head (log_paths e.2)))
                            (if decide (name = "") then "" else ":"))
                    (String.append name
                       (String.append " (" (String.append label ")"))))).
Proof.
  intros H R s item. apply (message_forms H R s item).
  apply (bool_decide_unpack _). vm_compute. reflexivity.
Defined.

(** ** Full coverage, in terms of the calls made *)

Lemma instrumented_log H fuel root next s next' ps s' k l :
  Store.constructor H fuel root next = Some (s, next') ->
  port_calls ps s = Some s' ->
  map_get k (_logs s') = Some l ->
  (log_entry l = true <-> PEntry k ∈ ps)
  ∧ (∀ source v, v ∈ observed source l <-> PValue source v k ∈ ps).
Proof.
  intros Hc Hps Hg.
  destruct (map_get k (_logs s)) as [l0|] eqn:Hg0.
  2:{ apply map_get_None in Hg0. rewrite <- (port_calls_keys _ _ _ Hps) in Hg0.
      apply map_get_None in Hg0. congruence. }
  assert (Hl0 : untouched l0).
  { pose proof (constructor_untouched _ _ _ _ _ _ Hc) as Hall.
    rewrite Forall_forall in Hall. apply Hall.
    apply list_elem_of_fmap. exists (k, l0). split; [done|].
    by apply map_get_Some_elem. }
  destruct Hl0 as (He & Hr & Hv & Hi). split.
  - rewrite (port_calls_entry _ _ _ _ _ _ Hps Hg0 Hg), He. naive_solver.
  - intros source v. rewrite (port_calls_observed _ _ _ _ _ _ source v Hps Hg0 Hg).
    destruct source; simpl; rewrite ?Hv, ?Hi, elem_of_nil; tauto.
Qed.

Lemma logged_nil ps name k :
  logged ps name k = [] <-> ∀ src r, PLog src name r k ∉ ps.
Proof.
  split.
  - intros Hnil src r Hin.
    assert (r ∈ logged ps name k) as Hr by (apply logged_elem; by exists src).
    rewrite Hnil in Hr. by apply elem_of_nil in Hr.
  - intros Hno. destruct (logged ps name k) as [|r rs] eqn:E; [done|].
    assert (r ∈ logged ps name k) as Hr by (rewrite E; left).
    apply logged_elem in Hr as [src Hr]. by apply Hno in Hr.
Qed.

(** X16: the report has nothing to say about a root exactly when the
    instrumentation calls made on its store since the scan include, for the
    root and every schema reachable from it, an [entry], a [value] for each
    literal of its declared allow and deny lists, and for each of its rule
    names (and "default" and "failover" when the flag is set) either a
    [log] with the result "full" or one with "error" and one with
    "value"; a rule name that is the name of a property of
    [Object.prototype] need not be logged at all, and ["__proto__"] asks
    for nothing. *)
Theorem missing_nil_iff_calls (H : Heap) (fuel : nat) (root : node) (next : nat)
    (s : StoreObj) (next' : nat) (ps : list port) (s' : StoreObj) :
  Store.constructor H fuel root next = Some (s, next') ->
  port_calls ps s = Some s' ->
  (Tracer.missing_of H s' = [] <->
     ∀ q k, route H root q k ->
       PEntry k ∈ ps
       ∧ (∀ source set v, declared source (H k) = Some set -> v ∈ _set set ->
            PValue source v k ∈ ps)
       ∧ (∀ name, name ∈ Tracer.rules (H k) ->
            name = "__proto__"
            ∨ (name ∈ Object_prototype ∧ ∀ src r, PLog src name r k ∉ ps)
            ∨ (∃ src, PLog src name internals.full k ∈ ps)
            ∨ ((∃ src, PLog src name internals.error k ∈ ps)
               ∧ (∃ src, PLog src name internals.value_ k ∈ ps)))).
Proof.
  intros Hc Hps.
  pose proof (constructor_NoDup _ _ _ _ _ _ Hc) as Hnd.
  rewrite <- (port_calls_keys _ _ _ Hps) in Hnd.
  assert (Hkeys : ∀ k, k ∈ (_logs s').*1 <-> ∃ q, route H root q k).
  { intros k. rewrite (port_calls_keys _ _ _ Hps). by eapply constructor_keys. }
  assert (Hmask : ∀ k l name, map_get k (_logs s') = Some l ->
            inherited l name ∨ internals.labels (mask l name) = None <->
              name = "__proto__"
              ∨ (name ∈ Object_prototype ∧ ∀ src r, PLog src name r k ∉ ps)
              ∨ (∃ src, PLog src name internals.full k ∈ ps)
              ∨ ((∃ src, PLog src name internals.error k ∈ ps)
                 ∧ (∃ src, PLog src name internals.value_ k ∈ ps))).
  { intros k l name Hg.
    destruct (instrumented_rule _ _ _ _ _ _ _ _ _ _ name Hc Hps Hg) as [Hproto Hown].
    destruct (decide (name = "__proto__")) as [Hn|Hn].
    { split; [by left|]. intros _. left. split; [by apply Hproto|].
      rewrite Hn. apply (bool_decide_unpack _). vm_compute. reflexivity. }
    destruct (Hown Hn) as [Hm Hnone]. unfold inherited.
    rewrite Hnone, logged_nil, Hm, outcome_mask_cases, <- !logged_elem.
    unfold internals.labels.
    repeat case_decide; split; intros; (done || lia || tauto || naive_solver). }
  split.
  - intros Hnil q k Hr.
    assert (Hk : k ∈ (_logs s').*1) by (apply Hkeys; by exists q).
    destruct (map_get k (_logs s')) as [l|] eqn:Hg; [|by apply map_get_None in Hg].
    destruct (loop_nil H (_logs s') Hnil (k, l)) as (He & Hv & Hrules);
      [by apply map_get_Some_elem|].
    destruct (instrumented_log _ _ _ _ _ _ _ _ _ _ Hc Hps Hg) as (Hent & Hobs).
    simpl in *. split_and!.
    + by apply Hent.
    + intros source set v Hd Hin. apply Hobs. by apply (Hv source set Hd).
    + intros name Hname. apply (Hmask k l name Hg). by apply Hrules.
  - intros Hall. unfold Tracer.missing_of. fold (loop H (_logs s')).
    rewrite (loop_covered H (_logs s')); [done|].
    intros [k l] Hin.
    assert (Hg : map_get k (_logs s') = Some l) by by apply map_get_elem.
    assert (Hk : k ∈ (_logs s').*1).
    { apply list_elem_of_fmap. by exists (k, l). }
    apply Hkeys in Hk as [q Hr]. destruct (Hall q k Hr) as (He & Hv & Hrules).
    destruct (instrumented_log _ _ _ _ _ _ _ _ _ _ Hc Hps Hg) as (Hent & Hobs).
    split_and!; simpl.
    + by apply Hent.
    + intros source set Hd v Hv'. apply Hobs. by eapply Hv.
    + intros name Hname. apply (Hmask k l name Hg). by apply Hrules.
Qed.

Lemma missing_nil_iff_calls_witness :
  let ps := [PEntry 1%positive; PEntry 2%positive; PEntry 3%positive;
             PLog Store.src_rule "min" internals.error 3%positive;
             PValue Store.valid (VString "a") 3%positive] in
  Tracer.missing_of nested nested_run = [] <->
    ∀ q k, route nested 1%positive q k ->
      PEntry k ∈ ps
      ∧ (∀ source set v, declared source (nested k) = Some set -> v ∈ _set set ->
           PValue source v k ∈ ps)
      ∧ (∀ name, name ∈ Tracer.rules (nested k) ->
           name = "__proto__"
           ∨ (name ∈ Object_prototype ∧ ∀ src r, PLog src name r k ∉ ps)
           ∨ (∃ src, PLog src name internals.full k ∈ ps)
           ∨ ((∃ src, PLog src name internals.error k ∈ ps)
              ∧ (∃ src, PLog src name internals.value_ k ∈ ps))).
Proof.
  intros ps.
  apply (missing_nil_iff_calls nested 10 1%positive 0
           (default (mkStore []) (store_after nested 10 1%positive [])) 3
           ps nested_run).
  - vm_compute. reflexivity.
  - vm_compute. reflexivity.
Defined.
